(** * Shipment-email extraction: a shallow embedding of the rule-based core

    The development follows the Python modules of the repository:
    [utils.py] (port index, port finder, field parsers, business rule),
    [schemas.py] (the pydantic model with its three pre-validators),
    [extract.py] (the rule-based orchestrator and the batch loop) and
    [evaluate.py] (the comparison of two field values and the tally of
    the accuracy report).

    Text.  A Python [str] is embedded as a list of 8-bit characters, the
    code points 0 to 255.  On that range [str.lower], [str.strip] and
    the regular-expression classes [\d], [\s], [\w] and [\b] are those
    of Python 3: [\s] and [str.strip] also accept the four separators
    0x1c-0x1f, the next-line control 0x85 and the no-break space 0xa0,
    and [\w] holds of the accented letters and of the other letters and
    numbers above the ASCII range.  [str.upper] is Python's too, but on
    the sharp s, the micro sign and the y with diaeresis, whose upper
    case is not an 8-bit character: these three are left as they are,
    which the parsers cannot tell, since they keep a letter a letter.

    Regular expressions.  The patterns of the code are written as terms
    of a small pattern type and run by a backtracking matcher with
    Python's priorities (leftmost match, alternatives in order, greedy
    quantifiers); the matcher is proved to agree with a declarative
    reading of the patterns.

    Numbers.  A Python [float] is an IEEE-754 binary64 number.

    Exceptions.  A computation that may raise returns a [res].

    Input.  An email is a JSON object with a string for subject and for
    body; its id is whatever [email.get("id")] gives, null included.

    What lies outside the repository is taken as given: the matcher
    [extractOne] of [rapidfuzz], the LLM call, [json.loads], the checks
    pydantic itself makes of a [str], [float] or [bool] field, Python's
    [str()] on values that are not strings, and the order and the
    equality of the keys of a [dict]. *)

From Stdlib Require Import ZArith NArith Ascii String List Bool Lia Permutation.
From Stdlib Require Import SpecFloat.
From stdpp Require Import gmap strings.
Import ListNotations.

(** ** Characters and text *)

Abbreviation text := (list ascii).

Definition str (s : string) : text := list_ascii_of_string s.
Arguments str s%_string.

Module Char.

Definition code (c : ascii) : N := N_of_ascii c.

Definition in_range (lo hi : N) (c : ascii) : bool :=
  (lo <=? code c)%N && (code c <=? hi)%N.

Definition is_digit (c : ascii) : bool := in_range 48 57 c.
Definition is_upper (c : ascii) : bool := in_range 65 90 c.
Definition is_lower (c : ascii) : bool := in_range 97 122 c.
Definition is_alpha (c : ascii) : bool := is_upper c || is_lower c.

(** The letters and numbers above the ASCII range: the ordinal
    indicators, the superscript digits, the micro sign, the three
    fractions, and the letters from 192 to 255 but the multiplication and
    the division sign. *)
Definition is_alnum_high (c : ascii) : bool :=
  (code c =? 170)%N || in_range 178 179 c || (code c =? 181)%N ||
  in_range 185 186 c || in_range 188 190 c ||
  in_range 192 214 c || in_range 216 246 c || in_range 248 255 c.

(** [\w]: letters, digits and the underscore. *)
Definition is_word (c : ascii) : bool :=
  is_alpha c || is_digit c || (code c =? 95)%N || is_alnum_high c.

(** [\s] and the characters removed by [str.strip()]: TAB, LF, VT, FF,
    CR, the separators FS, GS, RS, US, the space, the next-line control
    (133) and the no-break space (160). *)
Definition is_space (c : ascii) : bool :=
  in_range 9 13 c || in_range 28 32 c || (code c =? 133)%N || (code c =? 160)%N.

(** The letters whose other case is a character of the range too.  The
    upper case of the sharp s (223), of the micro sign (181) and of the y
    with diaeresis (255) is not: [upper] leaves these three as they
    are. *)
Definition has_upper (c : ascii) : bool :=
  is_lower c || in_range 224 246 c || in_range 248 254 c.

Definition has_lower (c : ascii) : bool :=
  is_upper c || in_range 192 214 c || in_range 216 222 c.

Definition to_upper (c : ascii) : ascii :=
  if has_upper c then ascii_of_N (code c - 32) else c.

Definition to_lower (c : ascii) : ascii :=
  if has_lower c then ascii_of_N (code c + 32) else c.

Definition eqb (c d : ascii) : bool := Ascii.eqb c d.

(** Character comparison of the regex engine; [ic] is [re.IGNORECASE]. *)
Definition eq_flag (ic : bool) (c d : ascii) : bool :=
  if ic then eqb (to_lower c) (to_lower d) else eqb c d.

End Char.

(** [str.upper()] and [str.lower()]. *)
Definition upper (s : text) : text := List.map Char.to_upper s.
Definition lower (s : text) : text := List.map Char.to_lower s.

(** [str.strip()]. *)
Fixpoint lstrip (s : text) : text :=
  match s with
  | c :: s' => if Char.is_space c then lstrip s' else s
  | [] => []
  end.

Definition rstrip (s : text) : text := rev (lstrip (rev s)).
Definition strip (s : text) : text := rstrip (lstrip s).

(** The line feed. *)
Definition nl : text := ["010"%char].

(** Truthiness of a [str]: the empty string is falsy. *)
Definition nonempty (s : text) : bool :=
  match s with [] => false | _ => true end.

Fixpoint text_eqb (s t : text) : bool :=
  match s, t with
  | [], [] => true
  | c :: s', d :: t' => Char.eqb c d && text_eqb s' t'
  | _, _ => false
  end.

(** [t.startswith(p)]. *)
Fixpoint startswith (p t : text) : bool :=
  match p, t with
  | [], _ => true
  | c :: p', d :: t' => Char.eqb c d && startswith p' t'
  | _ :: _, [] => false
  end.

(** [n in t] on strings: substring test. *)
Fixpoint contains (n t : text) : bool :=
  startswith n t ||
  match t with
  | [] => false
  | _ :: t' => contains n t'
  end.

(** [s.replace(a, b)] for single characters. *)
Definition replace_char (a b : ascii) (s : text) : text :=
  List.map (fun c => if Char.eqb c a then b else c) s.

(** ** Exceptions

    A computation that may raise: [Raised] stands for any Python
    exception (the code only ever catches [Exception] as a whole). *)

Inductive res (A : Type) : Type :=
| Ok (a : A)
| Raised.
Arguments Ok {A} a.
Arguments Raised {A}.

Definition res_bind {A B : Type} (m : res A) (k : A -> res B) : res B :=
  match m with
  | Ok a => k a
  | Raised => Raised
  end.

Notation "'let*' x ':=' m 'in' k" := (res_bind m (fun x => k))
  (at level 10, x pattern, m at level 100, k at level 200).

Definition res_map {A B : Type} (f : A -> B) (m : res A) : res B :=
  let* a := m in Ok (f a).

Definition of_option {A : Type} (o : option A) : res A :=
  match o with Some a => Ok a | None => Raised end.

(** ** The fragment of [re] used by the parsers

    A backtracking matcher in continuation-passing style.  The cursor is
    the character just before the current position (for [\b]) together
    with the remaining input; group 1 is carried along.  Alternatives are
    tried left to right and quantifiers are greedy, as in Python. *)

Module Re.

Inductive regex : Type :=
| Eps                                  (* the empty pattern *)
| Chr (c : ascii)                      (* a literal character *)
| Cls (p : ascii -> bool)              (* a class such as [\d] or [.,] *)
| Seq (r1 r2 : regex)                  (* r1 r2 *)
| Alt (r1 r2 : regex)                  (* r1|r2 *)
| Opt (r : regex)                      (* (?:r)? *)
| Rep (p : ascii -> bool) (n : nat)    (* [p]{n,}: n = 0 is *, n = 1 is + *)
| WordB                                (* \b *)
| Grp (r : regex).                     (* ( r ), capturing group 1 *)

(** A literal string, as produced by [re.escape] on letters. *)
Fixpoint lit (s : text) : regex :=
  match s with
  | [] => Eps
  | c :: s' => Seq (Chr c) (lit s')
  end.

Fixpoint alts (r : regex) (rs : list regex) : regex :=
  match rs with
  | [] => r
  | r' :: rs' => Alt r (alts r' rs')
  end.

Definition word_opt (o : option ascii) : bool :=
  match o with Some c => Char.is_word c | None => false end.

(** [\b] holds where exactly one side is a word character. *)
Definition at_boundary (prev : option ascii) (rest : text) : bool :=
  xorb (word_opt prev) (word_opt (head rest)).

Section Matcher.
Context {A : Type}.
Variable ic : bool.

Fixpoint rep_greedy (p : ascii -> bool) (n : nat) (prev : option ascii)
    (rest : text) (k : option ascii -> text -> option A) : option A :=
  match rest with
  | c :: rest' =>
      if p c then
        match rep_greedy p (pred n) (Some c) rest' k with
        | Some a => Some a
        | None => if (n =? 0)%nat then k prev rest else None
        end
      else if (n =? 0)%nat then k prev rest else None
  | [] => if (n =? 0)%nat then k prev rest else None
  end.

Fixpoint run (r : regex) (prev : option ascii) (rest : text)
    (cap : option text)
    (k : option ascii -> text -> option text -> option A) : option A :=
  match r with
  | Eps => k prev rest cap
  | Chr c =>
      match rest with
      | d :: rest' =>
          if Char.eq_flag ic c d then k (Some d) rest' cap else None
      | [] => None
      end
  | Cls p =>
      match rest with
      | d :: rest' => if p d then k (Some d) rest' cap else None
      | [] => None
      end
  | Seq r1 r2 =>
      run r1 prev rest cap (fun prev' rest' cap' => run r2 prev' rest' cap' k)
  | Alt r1 r2 =>
      match run r1 prev rest cap k with
      | Some a => Some a
      | None => run r2 prev rest cap k
      end
  | Opt r1 =>
      match run r1 prev rest cap k with
      | Some a => Some a
      | None => k prev rest cap
      end
  | Rep p n =>
      rep_greedy p n prev rest (fun prev' rest' => k prev' rest' cap)
  | WordB => if at_boundary prev rest then k prev rest cap else None
  | Grp r1 =>
      run r1 prev rest cap (fun prev' rest' _ =>
        k prev' rest' (Some (firstn (length rest - length rest') rest)))
  end.
End Matcher.

(** What a successful [re.search] gives back: [group(1)] (when the
    pattern has a group that took part in the match). *)
Definition accept (_ : option ascii) (_ : text) (cap : option text)
  : option (option text) := Some cap.

Fixpoint search_from (ic : bool) (r : regex) (prev : option ascii)
    (rest : text) : option (option text) :=
  match run ic r prev rest None accept with
  | Some g => Some g
  | None =>
      match rest with
      | [] => None
      | c :: rest' => search_from ic r (Some c) rest'
      end
  end.

(** [re.search(r, t)] and [re.search(r, t, re.I)]: leftmost match. *)
Definition search (ic : bool) (r : regex) (t : text) : option (option text) :=
  search_from ic r None t.

Definition found (ic : bool) (r : regex) (t : text) : bool :=
  match search ic r t with Some _ => true | None => false end.

(** [m.group(1)] of a search. *)
Definition group1 (ic : bool) (r : regex) (t : text) : option text :=
  match search ic r t with
  | Some (Some g) => Some g
  | _ => None
  end.

(** *** Declarative reading of a pattern

    [Matches ic r prev s post]: pattern [r] matches exactly the
    characters [s], when [prev] is the character before [s] and [post]
    the input after it. *)

Definition last_of (prev : option ascii) (s : text) : option ascii :=
  match rev s with
  | c :: _ => Some c
  | [] => prev
  end.

Inductive Matches (ic : bool) : regex -> option ascii -> text -> text -> Prop :=
| M_Eps prev post : Matches ic Eps prev [] post
| M_Chr c d prev post :
    Char.eq_flag ic c d = true -> Matches ic (Chr c) prev [d] post
| M_Cls (p : ascii -> bool) d prev post :
    p d = true -> Matches ic (Cls p) prev [d] post
| M_Seq r1 r2 prev s1 s2 post :
    Matches ic r1 prev s1 (s2 ++ post) ->
    Matches ic r2 (last_of prev s1) s2 post ->
    Matches ic (Seq r1 r2) prev (s1 ++ s2) post
| M_AltL r1 r2 prev s post :
    Matches ic r1 prev s post -> Matches ic (Alt r1 r2) prev s post
| M_AltR r1 r2 prev s post :
    Matches ic r2 prev s post -> Matches ic (Alt r1 r2) prev s post
| M_OptSome r prev s post :
    Matches ic r prev s post -> Matches ic (Opt r) prev s post
| M_OptNone r prev post : Matches ic (Opt r) prev [] post
| M_Rep (p : ascii -> bool) n prev s post :
    (n <= length s)%nat -> forallb p s = true ->
    Matches ic (Rep p n) prev s post
| M_WordB prev post :
    at_boundary prev post = true -> Matches ic WordB prev [] post
| M_Grp r prev s post :
    Matches ic r prev s post -> Matches ic (Grp r) prev s post.

(** The pattern occurs somewhere in [t]. *)
Definition Occurs (ic : bool) (r : regex) (t : text) : Prop :=
  exists pre s post,
    t = pre ++ s ++ post /\ Matches ic r (last_of None pre) s post.

(** Success of a continuation does not depend on the group it is handed. *)
Definition blind {A : Type}
    (k : option ascii -> text -> option text -> option A) : Prop :=
  forall prev rest c c', k prev rest c = None -> k prev rest c' = None.

(** [g] is matched by the group of the pattern, somewhere. *)
Fixpoint group_match (ic : bool) (r : regex) (g : text) : Prop :=
  match r with
  | Grp r1 => exists prev post, Matches ic r1 prev g post
  | Seq r1 r2 | Alt r1 r2 => group_match ic r1 g \/ group_match ic r2 g
  | Opt r1 => group_match ic r1 g
  | _ => False
  end.

(** Every successful match of the pattern goes through its group. *)
Fixpoint sets_group (r : regex) : bool :=
  match r with
  | Grp _ => true
  | Seq r1 r2 => sets_group r1 || sets_group r2
  | Alt r1 r2 => sets_group r1 && sets_group r2
  | _ => false
  end.

End Re.

(** ** Binary64 numbers

    A Python [float] is an IEEE-754 binary64 number, embedded as the
    Standard Library's [spec_float] with precision 53.  Decimal text is
    converted with correct rounding (to nearest, ties to even), as
    CPython's [float()] and its literals are; [round(x, 2)] rounds the
    exact binary value to two decimals (ties to even) and converts the
    decimal result back, as CPython's [float.__round__] does. *)

Module F64.

Abbreviation float := spec_float.

Definition prec : Z := 53.
Definition emax : Z := 1024.
Definition emin : Z := -1074.

Definition mul (x y : float) : float := SFmul prec emax x y.

(** Nearest integer to [n / d], ties to even ([0 <= n], [0 < d]). *)
Definition rne_div (n d : Z) : Z :=
  let q := (n / d)%Z in
  match (2 * (n mod d) ?= d)%Z with
  | Lt => q
  | Gt => (q + 1)%Z
  | Eq => if Z.even q then q else (q + 1)%Z
  end.

(** Exponent of the unit in the last place at [n / d]: the [e] with
    [2^52 <= (n/d) / 2^e < 2^53], but never below [emin]. *)
Definition ratio_exp (n d : Z) : Z :=
  Z.max emin (Z.log2 (n * 2 ^ 1200 / d) - 1200 - 52).

(** [2^e] split into an integer numerator and denominator:
    [2^e = scale_up e / scale_dn e]. *)
Definition scale_up (e : Z) : Z := 2 ^ Z.max 0 e.
Definition scale_dn (e : Z) : Z := 2 ^ Z.max 0 (- e).

(** The binary64 number nearest to [(-1)^s * n / d]; beyond the largest
    finite number the result is an infinity. *)
Definition of_ratio (s : bool) (n d : Z) : float :=
  let e := ratio_exp n d in
  let m := rne_div (n * scale_dn e) (d * scale_up e) in
  let e' := if (m =? 2 ^ prec)%Z then (e + 1)%Z else e in
  let m' := if (m =? 2 ^ prec)%Z then (2 ^ (prec - 1))%Z else m in
  match m' with
  | Zpos p => if (e' <=? emax - prec)%Z then S754_finite s p e' else S754_infinity s
  | _ => S754_zero s
  end.

(** [float(n)] for a Python [int]: [None] stands for [OverflowError]. *)
Definition of_int (n : Z) : option float :=
  match of_ratio (n <? 0)%Z (Z.abs n) 1 with
  | S754_infinity _ => None
  | f => Some f
  end.

(** [round(x, 2)]. *)
Definition round2 (x : float) : float :=
  match x with
  | S754_finite s m e =>
      of_ratio s (rne_div (100 * Zpos m * scale_up e) (scale_dn e)) 100
  | _ => x
  end.

(** Truthiness: zeros are falsy, everything else (NaN included) is truthy. *)
Definition truthy (x : float) : bool :=
  match x with S754_zero _ => false | _ => true end.

(** *** [float(s)] on text *)

Definition digit_val (c : ascii) : Z := Z.of_N (Char.code c) - 48.

(** The rest of a digit part: digits, each optionally preceded by one
    underscore.  Returns the value, the number of digits and the
    remaining input. *)
Fixpoint digits_tail (acc : Z) (cnt : nat) (s : text) : Z * nat * text :=
  match s with
  | c :: s' =>
      if Char.is_digit c then digits_tail (10 * acc + digit_val c) (S cnt) s'
      else if Char.eqb c "_" then
        match s' with
        | d :: s'' =>
            if Char.is_digit d
            then digits_tail (10 * acc + digit_val d) (S cnt) s''
            else (acc, cnt, s)
        | [] => (acc, cnt, s)
        end
      else (acc, cnt, s)
  | [] => (acc, cnt, s)
  end.

(** Where the reading of digits stops: at the end of the text or at a
    character that is neither a digit nor an underscore. *)
Definition stops (rest : text) : Prop :=
  match rest with
  | [] => True
  | c :: _ => Char.is_digit c = false /\ Char.eqb c "_" = false
  end.

Definition digit_part (s : text) : option (Z * nat * text) :=
  match s with
  | c :: s' =>
      if Char.is_digit c then Some (digits_tail (digit_val c) 1 s') else None
  | [] => None
  end.

Definition opt_digit_part (s : text) : Z * nat * text :=
  match digit_part s with Some r => r | None => (0%Z, 0%nat, s) end.

Definition sign_part (s : text) : bool * text :=
  match s with
  | c :: s' =>
      if Char.eqb c "-" then (true, s')
      else if Char.eqb c "+" then (false, s') else (false, s)
  | [] => (false, s)
  end.

(** An optional exponent [e[+-]digits]; [None] when an [e] is there
    without its digits. *)
Definition exponent_part (s : text) : option (Z * text) :=
  match s with
  | c :: s' =>
      if Char.eqb (Char.to_lower c) "e" then
        let '(neg, s'') := sign_part s' in
        match digit_part s'' with
        | Some (x, _, rest) => Some (if neg then (- x)%Z else x, rest)
        | None => None
        end
      else Some (0%Z, s)
  | [] => Some (0%Z, s)
  end.

(** The whitespace [float()] strips: the one of the C locale (without
    the separators 0x1c-0x1f), and above the ASCII range what [\s]
    holds of, which [float()] first turns into spaces. *)
Definition is_c_space (c : ascii) : bool :=
  Char.in_range 9 13 c || (Char.code c =? 32)%N ||
  (Char.code c =? 133)%N || (Char.code c =? 160)%N.

Fixpoint lstrip_c (s : text) : text :=
  match s with
  | c :: s' => if is_c_space c then lstrip_c s' else s
  | [] => []
  end.

Definition scaled (s : bool) (n : Z) (x : Z) : float :=
  of_ratio s (n * 10 ^ Z.max 0 x) (10 ^ Z.max 0 (- x)).

(** [float(s)]; [None] stands for [ValueError]. *)
Definition of_text (s : text) : option float :=
  let s := rev (lstrip_c (rev (lstrip_c s))) in
  let '(neg, body) := sign_part s in
  let word := lower body in
  if text_eqb word (str "inf") || text_eqb word (str "infinity")
  then Some (S754_infinity neg)
  else if text_eqb word (str "nan") then Some S754_nan
  else
    let '(i, ci, r1) := opt_digit_part body in
    let '(f, cf, r2) :=
      match r1 with
      | c :: r1' => if Char.eqb c "." then opt_digit_part r1' else (0%Z, 0%nat, r1)
      | [] => (0%Z, 0%nat, r1)
      end in
    if (ci + cf =? 0)%nat then None
    else
      match exponent_part r2 with
      | Some (x, []) =>
          Some (scaled neg (i * 10 ^ Z.of_nat cf + f) (x - Z.of_nat cf))
      | _ => None
      end.

(** The constants of the weight parser, [1000.0] and [0.453592]. *)
Definition f1000 : float := Eval vm_compute in of_ratio false 1000 1.
Definition lb_in_kg : float := Eval vm_compute in of_ratio false 453592 1000000.

(** A decimal literal [n / 10^k], for stating expected values. *)
Definition dec (n : Z) (k : Z) : float := of_ratio false n (10 ^ k).

End F64.


(** ** utils.py *)

Module Utils.

Import Re.

Definition VALID_INCOTERMS : list text :=
  [str "FOB"; str "CIF"; str "CFR"; str "EXW"; str "DDP";
   str "DAP"; str "FCA"; str "CPT"; str "CIP"; str "DPU"].

(** *** build_port_index *)

(** A reference entry; [None] is a key that is missing (or null). *)
Record port_entry : Type := PortEntry {
  pe_code : option text;
  pe_name : option text
}.

(** Truthiness of [entry.get(..)]. *)
Definition truthy_opt (o : option text) : bool :=
  match o with Some s => nonempty s | None => false end.

(** The class [[\s,-/]]: whitespace and the range from [,] to [/],
    that is the comma, the hyphen, the full stop and the slash. *)
Definition is_sep (c : ascii) : bool :=
  Char.is_space c || Char.in_range 44 47 c.

(** [re.split] for a pattern [[p]+]: the pieces between the maximal runs
    of [p], with an empty piece before a leading run and after a
    trailing one. *)
Fixpoint split_runs (p : ascii -> bool) (s : text) : list text :=
  match s with
  | [] => [[]]
  | c :: s' =>
      let r := split_runs p s' in
      if p c then
        match s' with
        | d :: _ => if p d then r else [] :: r
        | [] => [] :: r
        end
      else
        match r with
        | piece :: ps => (c :: piece) :: ps
        | [] => [[c]]
        end
  end.

(** [d.setdefault(k, v)] *)
Definition setdefault (k v : text) (d : gmap text text) : gmap text text :=
  match d !! k with
  | Some _ => d
  | None => <[k := v]> d
  end.

Definition add_token (code : text) (d : gmap text text) (tok : text)
  : gmap text text :=
  if (2 <=? length tok)%nat then setdefault tok code d else d.

(** One iteration of the loop over the reference; the state is
    [(name_to_code, code_to_name)]. *)
Definition add_entry (idx : gmap text text * gmap text text)
    (entry : port_entry) : gmap text text * gmap text text :=
  let code := pe_code entry in
  let name := pe_name entry in
  if negb (truthy_opt code) || negb (truthy_opt name) then idx
  else
    match code, name with
    | Some code, Some name =>
        let code_to_name := <[code := name]> (snd idx) in
        let name_to_code := <[lower name := code]> (fst idx) in
        (fold_left (add_token code) (split_runs is_sep (lower name)) name_to_code,
         code_to_name)
    | _, _ => idx
    end.

Definition build_port_index (ref : list port_entry)
  : gmap text text * gmap text text :=
  fold_left add_entry ref (∅, ∅).

(** *** parse_incoterm *)

(** [r"\b" + re.escape(inc) + r"\b"] *)
Definition incoterm_re (inc : text) : regex :=
  Seq WordB (Seq (lit inc) WordB).

(** [VALID_INCOTERMS] is a Python set, iterated in an order the language
    does not fix; [order] is that iteration order. *)
Definition parse_incoterm_in (order : list text) (t : text) : option text :=
  if negb (nonempty t) then None
  else
    let txt := upper t in
    let found := List.filter (fun inc => Re.found false (incoterm_re inc) txt) order in
    match found with
    | [] => None
    | first :: _ => if (1 <? length found)%nat then Some (str "FOB") else Some first
    end.

Definition parse_incoterm (t : text) : option text :=
  parse_incoterm_in VALID_INCOTERMS t.

(** *** parse_cbm and parse_weight_kg *)

Definition is_dot_comma (c : ascii) : bool :=
  Char.eqb c "." || Char.eqb c ",".

(** [(\d+(?:[\.,]\d+)?)] *)
Definition number_re : regex :=
  Grp (Seq (Rep Char.is_digit 1)
           (Opt (Seq (Cls is_dot_comma) (Rep Char.is_digit 1)))).

(** [(\d+(?:[\.,]\d+)?)\s*(?:u1|u2|...)\b] *)
Definition quantity_re (u : text) (us : list text) : regex :=
  Seq number_re
    (Seq (Rep Char.is_space 0) (Seq (alts (lit u) (List.map lit us)) WordB)).

Definition cbm_re : regex :=
  quantity_re (str "cbm") [str "m3"; str "cubic meters"; str "cubic metres"].
Definition kg_re : regex := quantity_re (str "kg") [str "kgs"].
Definition tonne_re : regex :=
  quantity_re (str "tonne") [str "tonnes"; str "t"; str "mt"].
Definition lb_re : regex := quantity_re (str "lb") [str "lbs"].

(** [\b0\s*(?:kg|kgs|lb|lbs|tonne|t|mt)\b] *)
Definition zero_re : regex :=
  Seq WordB
    (Seq (Chr "0")
      (Seq (Rep Char.is_space 0)
        (Seq (alts (lit (str "kg"))
                (List.map lit [str "kgs"; str "lb"; str "lbs"; str "tonne";
                               str "t"; str "mt"]))
             WordB))).

(** [\b(?:TBD|N/A|TO BE CONFIRMED|TO BE ADVISED)\b] *)
Definition placeholder_re : regex :=
  Seq WordB
    (Seq (alts (lit (str "TBD"))
            (List.map lit [str "N/A"; str "TO BE CONFIRMED"; str "TO BE ADVISED"]))
         WordB).

(** [float(m.group(1).replace(',', '.'))] *)
Definition group_value (g : text) : res F64.float :=
  of_option (F64.of_text (replace_char "," "." g)).

(** The parsers return [Ok None] for Python's [None] and [Ok (Some x)]
    for a number. *)
Definition parse_cbm (t : text) : res (option F64.float) :=
  if negb (nonempty t) then Ok None
  else
    match Re.group1 true cbm_re t with
    | Some g => let* v := group_value g in Ok (Some v)
    | None => Ok None
    end.

Definition parse_weight_kg (t : text) : res (option F64.float) :=
  if negb (nonempty t) then Ok None
  else
    match Re.group1 true kg_re t with
    | Some g => let* v := group_value g in Ok (Some v)
    | None =>
    match Re.group1 true tonne_re t with
    | Some g => let* v := group_value g in Ok (Some (F64.mul v F64.f1000))
    | None =>
    match Re.group1 true lb_re t with
    | Some g => let* v := group_value g in Ok (Some (F64.mul v F64.lb_in_kg))
    | None =>
        if Re.found false zero_re t then Ok (Some (S754_zero false))
        else if Re.found true placeholder_re t then Ok None
        else Ok None
    end end end.

(** *** detect_dangerous *)

Definition negatives : list text :=
  [str "non-hazardous"; str "non hazardous"; str "non-dg";
   str "not dangerous"; str "non dg"].

(** ["dg", "dangerous", "hazardous", r"class \d", "imo", "imdg"] *)
Definition keywords : list regex :=
  [lit (str "dg"); lit (str "dangerous"); lit (str "hazardous");
   Seq (lit (str "class ")) (Cls Char.is_digit);
   lit (str "imo"); lit (str "imdg")].

(** The argument is [None] for an absent text (Python's [None]). *)
Definition detect_dangerous (t : option text) : bool :=
  match t with
  | None => false
  | Some t =>
      if negb (nonempty t) then false
      else
        let txt := lower t in
        if existsb (fun n => contains n txt) negatives then false
        else if existsb (fun k => Re.found false k txt) keywords then true
        else false
  end.

(** *** choose_product_line *)

Definition starts_IN (code : option text) : bool :=
  match code with
  | Some c => nonempty c && startswith (str "IN") (upper c)
  | None => false
  end.

Definition choose_product_line (origin_code dest_code : option text)
  : option text :=
  if starts_IN dest_code then Some (str "pl_sea_import_lcl")
  else if starts_IN origin_code then Some (str "pl_sea_export_lcl")
  else None.

End Utils.


(** ** schemas.py *)

Module Schemas.

(** The values a raw record can hold: what the rule-based extractor
    produces and what [json.loads] can return.  [PObj] is a JSON array
    or object. *)
Inductive pyval : Type :=
| PNone
| PBool (b : bool)
| PInt (n : Z)
| PFloat (x : F64.float)
| PStr (s : text)
| PObj.

(** The keyword arguments given to [ExtractionResult]; [None] is a key
    that is not given. *)
Record raw_record : Type := Raw {
  raw_id : option pyval;
  raw_product_line : option pyval;
  raw_origin_port_code : option pyval;
  raw_origin_port_name : option pyval;
  raw_destination_port_code : option pyval;
  raw_destination_port_name : option pyval;
  raw_incoterm : option pyval;
  raw_cargo_weight_kg : option pyval;
  raw_cargo_cbm : option pyval;
  raw_is_dangerous : option pyval
}.

Record ExtractionResult : Type := Result {
  id : text;
  product_line : option text;
  origin_port_code : option text;
  origin_port_name : option text;
  destination_port_code : option text;
  destination_port_name : option text;
  incoterm : option text;
  cargo_weight_kg : option F64.float;
  cargo_cbm : option F64.float;
  is_dangerous : bool
}.

(** [float(v)] *)
Definition py_float (v : pyval) : res F64.float :=
  match v with
  | PFloat x => Ok x
  | PInt n => of_option (F64.of_int n)
  | PBool b => Ok (if b then F64.dec 1 0 else S754_zero false)
  | PStr s => of_option (F64.of_text s)
  | PNone | PObj => Raised
  end.

(** The pre-validator of [cargo_weight_kg]. *)
Definition round_weight (v : pyval) : option F64.float :=
  match v with
  | PNone => None
  | _ =>
      match py_float v with
      | Ok x => Some (F64.round2 x)
      | Raised => None
      end
  end.

(** The pre-validator of [cargo_cbm]. *)
Definition round_cbm (v : pyval) : option F64.float :=
  match v with
  | PNone => None
  | _ =>
      match py_float v with
      | Ok x => Some (F64.round2 x)
      | Raised => None
      end
  end.

Definition opt_float_val (o : option F64.float) : pyval :=
  match o with Some x => PFloat x | None => PNone end.

Definition opt_text_val (o : option text) : pyval :=
  match o with Some s => PStr s | None => PNone end.

(** A missing key of an optional field is the default [None]. *)
Definition given (o : option pyval) : pyval :=
  match o with Some v => v | None => PNone end.

Section Model.

(** pydantic's own checks of a [str], a [float] and a [bool] field,
    and Python's [str()]; they live outside the repository. *)
Variable validate_str : pyval -> res text.
Variable validate_float : pyval -> res F64.float.
Variable validate_bool : pyval -> res bool.
Variable py_str : pyval -> text.

(** The pre-validator of [incoterm]. *)
Definition norm_incoterm (v : pyval) : option text :=
  match v with
  | PNone => None
  | _ =>
      let s := upper (strip (py_str v)) in
      if nonempty s then Some s else None
  end.

(** An [Optional[...]] field: [None] is accepted as it is. *)
Definition optional {A : Type} (check : pyval -> res A) (v : pyval)
  : res (option A) :=
  match v with
  | PNone => Ok None
  | _ => let* a := check v in Ok (Some a)
  end.

(** Building an [ExtractionResult] from the keyword arguments [raw]:
    the pre-validators run first (also on
    a missing key, [always=True]), then each field is checked; any
    failure raises [ValidationError]. *)
Definition validate (raw : raw_record) : res ExtractionResult :=
  let* i :=
    match raw_id raw with
    | Some PNone | None => Raised
    | Some v => validate_str v
    end in
  let* pl := optional validate_str (given (raw_product_line raw)) in
  let* oc := optional validate_str (given (raw_origin_port_code raw)) in
  let* on := optional validate_str (given (raw_origin_port_name raw)) in
  let* dc := optional validate_str (given (raw_destination_port_code raw)) in
  let* dn := optional validate_str (given (raw_destination_port_name raw)) in
  let* inc :=
    optional validate_str
      (opt_text_val (norm_incoterm (given (raw_incoterm raw)))) in
  let* w :=
    optional validate_float
      (opt_float_val (round_weight (given (raw_cargo_weight_kg raw)))) in
  let* c :=
    optional validate_float
      (opt_float_val (round_cbm (given (raw_cargo_cbm raw)))) in
  let* d :=
    match raw_is_dangerous raw with
    | None => Ok false
    | Some PNone => Raised
    | Some v => validate_bool v
    end in
  Ok (Result i pl oc on dc dn inc w c d).

End Model.

(** [validated.dict()], read again as keyword arguments. *)
Definition dict (r : ExtractionResult) : raw_record :=
  Raw (Some (PStr (id r)))
      (Some (opt_text_val (product_line r)))
      (Some (opt_text_val (origin_port_code r)))
      (Some (opt_text_val (origin_port_name r)))
      (Some (opt_text_val (destination_port_code r)))
      (Some (opt_text_val (destination_port_name r)))
      (Some (opt_text_val (incoterm r)))
      (Some (opt_float_val (cargo_weight_kg r)))
      (Some (opt_float_val (cargo_cbm r)))
      (Some (PBool (is_dangerous r))).

End Schemas.

(** ** extract.py *)

Module Extract.

Import Utils Schemas.

(** An input email, a JSON object whose subject and body are strings:
    [e_subject] and [e_body] are what [email.get] gives for them, the
    empty string when the key is missing.  [e_id] is [email.get("id")],
    whatever it holds: [PNone] when the key is missing or null. *)
Record email : Type := MkEmail {
  e_id : pyval;
  e_subject : text;
  e_body : text
}.

(** An email of the input schema [{id, subject, body}], the id a
    string. *)
Definition Email (i subject body : text) : email :=
  MkEmail (PStr i) subject body.

(** The prompt sent to the LLM. *)
Definition prompt (e : email) : text :=
  e_subject e ++ nl ++ nl ++ e_body e ++ nl ++ nl.

(** [a or b] on [Optional[str]] and on [Optional[float]]. *)
Definition or_text (a b : option text) : option text :=
  match a with
  | Some s => if nonempty s then a else b
  | None => b
  end.

Definition or_float (a b : option F64.float) : option F64.float :=
  match a with
  | Some x => if F64.truthy x then a else b
  | None => b
  end.

(** [a or b] on lists. *)
Definition or_list {A : Type} (a b : list A) : list A :=
  match a with [] => b | _ => a end.

(** [\{[\s\S]*\}], the whole match being what is extracted. *)
Definition json_re : Re.regex :=
  Re.Grp (Re.Seq (Re.Chr "{") (Re.Seq (Re.Rep (fun _ => true) 0) (Re.Chr "}"))).

Section Pipeline.

(** The fuzzy port matcher rests on [rapidfuzz]; it is taken as given. *)
Variable find_ports_in_text : text -> gmap text text -> list text.

(** The LLM call with the reading of its settings, and [json.loads]. *)
Variable call_llm : text -> res (option text).
Variable json_loads : text -> res raw_record.

Variable validate_str : pyval -> res text.
Variable validate_float : pyval -> res F64.float.
Variable validate_bool : pyval -> res bool.
Variable py_str : pyval -> text.

Definition lookup_name (code_to_name : gmap text text) (code : option text)
  : option text :=
  match code with
  | Some c => if nonempty c then code_to_name !! c else None
  | None => None
  end.

Definition rule_extract (e : email) (name_index code_to_name : gmap text text)
  : res raw_record :=
  let subj := e_subject e in
  let body := e_body e in
  let combined := subj ++ nl ++ body in
  let body_ports := find_ports_in_text body name_index in
  let subj_ports := find_ports_in_text subj name_index in
  let ports := or_list body_ports subj_ports in
  let origin := if (1 <=? length ports)%nat then nth_error ports 0 else None in
  let dest := if (2 <=? length ports)%nat then nth_error ports 1 else None in
  let incoterm :=
    or_text (or_text (parse_incoterm body) (parse_incoterm subj))
            (Some (str "FOB")) in
  let* cbm_body := parse_cbm body in
  let* cbm :=
    if match cbm_body with Some x => F64.truthy x | None => false end
    then Ok cbm_body
    else let* cbm_subj := parse_cbm subj in Ok (or_float cbm_body cbm_subj) in
  let* weight_body := parse_weight_kg body in
  let* weight :=
    if match weight_body with Some x => F64.truthy x | None => false end
    then Ok weight_body
    else let* weight_subj := parse_weight_kg subj in
         Ok (or_float weight_body weight_subj) in
  let dangerous := detect_dangerous (Some combined) in
  let product_line := choose_product_line origin dest in
  Ok (Raw (Some (e_id e))
          (Some (opt_text_val product_line))
          (Some (opt_text_val origin))
          (Some (opt_text_val (lookup_name code_to_name origin)))
          (Some (opt_text_val dest))
          (Some (opt_text_val (lookup_name code_to_name dest)))
          (Some (opt_text_val incoterm))
          (Some (opt_float_val weight))
          (Some (opt_float_val cbm))
          (Some (PBool dangerous))).

(** The record substituted in the [except] branch. *)
Definition null_raw (i : pyval) : raw_record :=
  Raw (Some i) (Some PNone) (Some PNone) (Some PNone) (Some PNone)
      (Some PNone) (Some PNone) (Some PNone) (Some PNone) (Some (PBool false)).

Definition null_result (i : text) : ExtractionResult :=
  Result i None None None None None None None None false.

(** The body of the [try]. *)
Definition try_extract (mock : bool) (e : email)
    (name_index code_to_name : gmap text text) : res ExtractionResult :=
  let* raw :=
    if mock then rule_extract e name_index code_to_name
    else
      let* llm_resp := call_llm (prompt e) in
      match llm_resp with
      | Some resp =>
          if nonempty resp then
            match Re.group1 false json_re resp with
            | Some g => json_loads g
            | None => rule_extract e name_index code_to_name
            end
          else rule_extract e name_index code_to_name
      | None => rule_extract e name_index code_to_name
      end in
  validate validate_str validate_float validate_bool py_str raw.

(** One iteration of the loop of [main]: the [try] and its handler.
    An exception raised inside the handler is not caught. *)
Definition process (mock : bool) (name_index code_to_name : gmap text text)
    (e : email) : res ExtractionResult :=
  match try_extract mock e name_index code_to_name with
  | Ok validated => Ok validated
  | Raised =>
      validate validate_str validate_float validate_bool py_str
        (null_raw (e_id e))
  end.

Fixpoint loop (mock : bool) (name_index code_to_name : gmap text text)
    (emails : list email) (outputs : list ExtractionResult)
  : res (list ExtractionResult) :=
  match emails with
  | [] => Ok outputs
  | e :: rest =>
      let* r := process mock name_index code_to_name e in
      loop mock name_index code_to_name rest (outputs ++ [r])
  end.

(** [main]: the index is built once, then the emails are processed in
    order; the result is the list written to the output file. *)
Definition main (mock : bool) (ports_ref : list port_entry)
    (emails : list email) : res (list ExtractionResult) :=
  let '(name_index, code_to_name) := build_port_index ports_ref in
  loop mock name_index code_to_name emails [].

End Pipeline.

End Extract.

(** ** A concrete environment

    Stand-ins for what lies outside the repository, used to run the
    pipeline on examples: checks that accept exactly the values of the
    field's own type, a port matcher that finds nothing, and an LLM that
    answers every prompt with one fixed JSON object. *)

Module Env.

Import Schemas Extract.

Definition strict_str (v : pyval) : res text :=
  match v with PStr s => Ok s | _ => Raised end.

Definition strict_float (v : pyval) : res F64.float :=
  match v with PFloat x => Ok x | _ => Raised end.

Definition strict_bool (v : pyval) : res bool :=
  match v with PBool b => Ok b | _ => Raised end.

Definition plain_str (v : pyval) : text :=
  match v with PStr s => s | _ => str "?" end.

Definition no_ports (_ : text) (_ : gmap text text) : list text := [].

Definition no_json (_ : text) : res raw_record := Raised.

Definition quote : text := ["034"%char].

Definition key (k : string) : text := quote ++ str k ++ quote ++ str ": ".
Arguments key k%_string.

(** A complete JSON object, with every key of the schema, for another id
    than the one of the email it answers. *)
Definition llm_object : text :=
  str "{" ++ key "id" ++ quote ++ str "EMAIL_999" ++ quote ++ str ", " ++
  key "product_line" ++ str "null, " ++
  key "origin_port_code" ++ str "null, " ++
  key "origin_port_name" ++ str "null, " ++
  key "destination_port_code" ++ str "null, " ++
  key "destination_port_name" ++ str "null, " ++
  key "incoterm" ++ quote ++ str "FOB" ++ quote ++ str ", " ++
  key "cargo_weight_kg" ++ str "10.0, " ++
  key "cargo_cbm" ++ str "null, " ++
  key "is_dangerous" ++ str "false}".

Definition llm_answer : text := str "Here is the record: " ++ llm_object.

Definition fixed_llm (_ : text) : res (option text) := Ok (Some llm_answer).

(** An LLM call that fails on the prompts that mention "boom" and is
    not configured otherwise. *)
Definition flaky_llm (prompt : text) : res (option text) :=
  if contains (str "boom") prompt then Raised else Ok None.

Definition fixed_json (g : text) : res raw_record :=
  if text_eqb g llm_object
  then Ok (Raw (Some (PStr (str "EMAIL_999"))) (Some PNone) (Some PNone)
             (Some PNone) (Some PNone) (Some PNone) (Some (PStr (str "FOB")))
             (Some (PFloat (F64.dec 10 0))) (Some PNone) (Some (PBool false)))
  else Raised.

End Env.

(** ** The specification's vocabulary

    Plain readings of the phrases the specification uses; the theorems
    below relate the code to them. *)

Module Spec.

(** [n] appears somewhere in [t]. *)
Definition appears (n t : text) : Prop :=
  exists pre post, t = pre ++ n ++ post.

(** The word [w] occurs in [t], compared without regard to case, with a
    word boundary on each side. *)
Definition occurs_word_ci (w t : text) : Prop :=
  exists pre mid post,
    t = pre ++ mid ++ post /\ upper mid = upper w /\
    Re.at_boundary (Re.last_of None pre) (mid ++ post) = true /\
    Re.at_boundary (Re.last_of None (pre ++ mid)) post = true.

(** A decimal numeral [g]: the digits [ip], then possibly a dot or a
    comma and the digits [fp]. *)
Definition numeral (ip fp g : text) : Prop :=
  ip <> [] /\ forallb Char.is_digit ip = true /\ forallb Char.is_digit fp = true /\
  (fp = [] /\ g = ip \/
   fp <> [] /\ exists c, Utils.is_dot_comma c = true /\ g = ip ++ c :: fp).

Definition digits_value (ds : text) : Z :=
  fold_left (fun a c => (10 * a + F64.digit_val c)%Z) ds 0%Z.

(** The binary64 number nearest to the decimal [ip.fp]. *)
Definition numeral_value (ip fp : text) : F64.float :=
  F64.of_ratio false
    (digits_value ip * 10 ^ Z.of_nat (length fp) + digits_value fp)
    (10 ^ Z.of_nat (length fp)).

(** The code starts with the country prefix IN, in any case. *)
Definition starts_with_IN (code : option text) : Prop :=
  exists a b rest,
    code = Some (a :: b :: rest) /\
    Char.to_upper a = "I"%char /\ Char.to_upper b = "N"%char.

End Spec.


(** ** What the two indexes hold, said directly *)

Module IndexSpec.

Import Utils.

(** An entry the builder does not skip: code and name present and not
    empty. *)
Definition well_formed (e : port_entry) : bool :=
  truthy_opt (pe_code e) && truthy_opt (pe_name e).

Definition name_of (e : port_entry) : text :=
  match pe_name e with Some n => n | None => [] end.

Definition has_code (c : text) (e : port_entry) : bool :=
  well_formed e && match pe_code e with Some c' => text_eqb c' c | None => false end.

(** The sub-tokens the builder registers for a name. *)
Definition tokens (name : text) : list text :=
  List.filter (fun tok => (2 <=? length tok)%nat) (split_runs is_sep (lower name)).

Definition full_name_is (k : text) (e : port_entry) : bool :=
  well_formed e && text_eqb (lower (name_of e)) k.

Definition has_token (k : text) (e : port_entry) : bool :=
  well_formed e && existsb (text_eqb k) (tokens (name_of e)).

(** The name of the last well-formed entry with code [c]. *)
Definition code_to_name_of (ref : list port_entry) (c : text) : option text :=
  match List.find (has_code c) (rev ref) with
  | Some e => pe_name e
  | None => None
  end.

(** The code of the last well-formed entry whose full lower-cased name is
    [k]; failing that, of the first one that has [k] among its
    sub-tokens. *)
Definition name_to_code_of (ref : list port_entry) (k : text) : option text :=
  match List.find (full_name_is k) (rev ref) with
  | Some e => pe_code e
  | None =>
      match List.find (has_token k) ref with
      | Some e => pe_code e
      | None => None
      end
  end.

End IndexSpec.

(** ** utils.py: the fuzzy port finder *)

Module Ports.

Import Utils.

(** *** The candidates: [re.findall(r"[A-Za-z]{2,}(?:\s+[A-Za-z]{2,})*", text)] *)

(** One more word: [\s+[A-Za-z]{2,}]. *)
Definition next_word : Re.regex :=
  Re.Seq (Re.Rep Char.is_space 1) (Re.Rep Char.is_alpha 2).

(** [(?:\s+[A-Za-z]{2,})*]: one more repetition is tried first, and the
    match goes on from where it stands when there is none.  Every
    repetition takes at least three characters, so [fuel] the length of
    the input is never used up. *)
Fixpoint more_words {A : Type} (fuel : nat) (rest : text)
    (k : text -> option A) : option A :=
  match fuel with
  | O => k rest
  | S fuel' =>
      match Re.run false next_word None rest None
              (fun _ rest' _ => more_words fuel' rest' k) with
      | Some a => Some a
      | None => k rest
      end
  end.

(** The match of the whole pattern at the start of [rest]: what is left
    of the input after it. *)
Definition match_at (rest : text) : option text :=
  Re.run false (Re.Rep Char.is_alpha 2) None rest None
    (fun _ rest' _ => more_words (length rest') rest' Some).

(** The matches from left to right, none overlapping another. *)
Fixpoint findall_from (fuel : nat) (rest : text) : list text :=
  match fuel with
  | O => []
  | S fuel' =>
      match rest with
      | [] => []
      | _ :: rest' =>
          match match_at rest with
          | Some after =>
              firstn (length rest - length after) rest :: findall_from fuel' after
          | None => findall_from fuel' rest'
          end
      end
  end.

Definition findall (t : text) : list text := findall_from (length t) t.

(** *** [sorted(tokens, key=lambda s: -len(s))]: longest first, and in
    the order of the input among equal lengths (the sort is stable). *)

Fixpoint insert_by_length (t : text) (l : list text) : list text :=
  match l with
  | [] => [t]
  | u :: l' =>
      if (length t <? length u)%nat then u :: insert_by_length t l' else t :: l
  end.

Definition sorted_longest_first (l : list text) : list text :=
  fold_right insert_by_length [] l.

Section Fuzzy.

(** [process.extractOne(query, choices, scorer=fuzz.WRatio)] of
    [rapidfuzz]: the best choice and its score, or [None]. *)
Variable extractOne : text -> list text -> option (text * F64.float).

(** [list(name_index.keys())]: the keys in the order of insertion, which
    the map does not record. *)
Variable keys : gmap text text -> list text.

(** [score >= threshold] of a float and an integer that a float holds
    exactly, from 0 to 2^53 (the thresholds of the code are 70 and 75). *)
Definition at_least (score : F64.float) (threshold : Z) : bool :=
  SFleb (F64.dec threshold 0) score.

Definition fuzzy_find_port (t : text) (name_index : gmap text text)
    (threshold : Z) : res (option (text * F64.float)) :=
  if negb (nonempty t) || bool_decide (name_index = ∅) then Ok None
  else
    let choices := keys name_index in
    match extractOne (lower t) choices with
    | Some (m, score) =>
        if nonempty m && at_least score threshold then
          (* name_index[match] raises KeyError on a missing key *)
          let* code := of_option (name_index !! m) in
          Ok (Some (code, score))
        else Ok None
    | None => Ok None
    end.

(** The loop of [find_ports_in_text] over the sorted candidates. *)
Fixpoint scan (cands : list text) (name_index : gmap text text)
    (found : list text) (seen_codes : gset text) : res (list text) :=
  match cands with
  | [] => Ok found
  | t :: cands' =>
      let* r := fuzzy_find_port t name_index 75 in
      match r with
      | Some (code, _) =>
          if bool_decide (code ∈ seen_codes)
          then scan cands' name_index found seen_codes
          else scan cands' name_index (found ++ [code]) ({[code]} ∪ seen_codes)
      | None => scan cands' name_index found seen_codes
      end
  end.

Definition find_ports_in_text (t : text) (name_index : gmap text text)
  : res (list text) :=
  scan (sorted_longest_first (findall t)) name_index [] ∅.

End Fuzzy.

End Ports.

(** ** The candidates of the port finder, said directly *)

Module PortsSpec.

(** [(?:\s+[A-Za-z]{2,})*]: further words, each after some whitespace. *)
Inductive Words : text -> Prop :=
| Words_nil : Words []
| Words_cons sp w s :
    (1 <= length sp)%nat -> forallb Char.is_space sp = true ->
    (2 <= length w)%nat -> forallb Char.is_alpha w = true ->
    Words s -> Words (sp ++ w ++ s).

(** A candidate: words of two letters or more, whitespace between them. *)
Definition Phrase (s : text) : Prop :=
  exists w ws,
    s = w ++ ws /\ (2 <= length w)%nat /\ forallb Char.is_alpha w = true /\
    Words ws.

(** Two letters in a row somewhere in [t]. *)
Definition two_letters (t : text) : Prop :=
  exists pre a b post,
    t = pre ++ a :: b :: post /\ Char.is_alpha a = true /\ Char.is_alpha b = true.

(** No longer candidate comes after a shorter one. *)
Definition longest_first (l : list text) : Prop :=
  forall l1 x l2 y l3, l = l1 ++ x :: l2 ++ y :: l3 -> (length y <= length x)%nat.

End PortsSpec.

(** ** The record of the rule-based mode, said directly *)

Module RulesSpec.

Import Utils Schemas Extract.

(** What a parser found; the parsers of the repository never raise. *)
Definition parsed (m : res (option F64.float)) : option F64.float :=
  match m with Ok o => o | Raised => None end.

(** The id of an email whose id is a string. *)
Definition id_text (e : email) : text :=
  match e_id e with PStr i => i | _ => [] end.

(** The output record of an email in [--mock] mode, field by field. *)
Definition record (find_ports_in_text : text -> gmap text text -> list text)
    (name_index code_to_name : gmap text text) (e : email) : ExtractionResult :=
  let ports := or_list (find_ports_in_text (e_body e) name_index)
                       (find_ports_in_text (e_subject e) name_index) in
  let origin := nth_error ports 0 in
  let dest := nth_error ports 1 in
  Result (id_text e)
    (choose_product_line origin dest)
    origin (lookup_name code_to_name origin)
    dest (lookup_name code_to_name dest)
    (or_text (or_text (parse_incoterm (e_body e)) (parse_incoterm (e_subject e)))
             (Some (str "FOB")))
    (option_map F64.round2
       (or_float (parsed (parse_weight_kg (e_body e)))
                 (parsed (parse_weight_kg (e_subject e)))))
    (option_map F64.round2
       (or_float (parsed (parse_cbm (e_body e)))
                 (parsed (parse_cbm (e_subject e)))))
    (detect_dangerous (Some (e_subject e ++ nl ++ e_body e))).

End RulesSpec.

(** ** Vocabulary for what the parsers return *)

Module FloatSpec.

(** A number that is not NaN and has its sign bit clear: zero, a
    positive number or plus infinity. *)
Definition nonneg (x : F64.float) : bool :=
  match x with
  | S754_zero s | S754_infinity s | S754_finite s _ _ => negb s
  | S754_nan => false
  end.

End FloatSpec.

(** ** main: the braces of the answer of the LLM *)

Module JsonSpec.

Definition open_brace : ascii := "{"%char.
Definition close_brace : ascii := "}"%char.

(** What follows the last closing brace of [rest]. *)
Fixpoint last_close (rest : text) : option text :=
  match rest with
  | [] => None
  | c :: r =>
      match last_close r with
      | Some x => Some x
      | None => if Char.eqb close_brace c then Some r else None
      end
  end.

(** A call of the LLM that gives nothing to parse: no answer, or an
    answer in which the pattern of the JSON block finds nothing. *)
Definition unusable (answer : res (option text)) : Prop :=
  answer = Ok None \/
  exists resp,
    answer = Ok (Some resp) /\ Re.group1 false Extract.json_re resp = None.

End JsonSpec.

(** ** Patterns that do not tell the case of a letter *)

Module CaseSpec.

Import Re.

(** The classes of the pattern hold of a letter whatever its case. *)
Fixpoint stable (r : regex) : Prop :=
  match r with
  | Cls p | Rep p _ => forall c, p (Char.to_upper c) = p c
  | Seq r1 r2 | Alt r1 r2 => stable r1 /\ stable r2
  | Opt r1 | Grp r1 => stable r1
  | Eps | Chr _ | WordB => True
  end.

(** The character before the cursor, in upper case. *)
Definition up (o : option ascii) : option ascii := option_map Char.to_upper o.

(** The characters whose upper case is an 8-bit character, that is all
    but the sharp s, the micro sign and the y with diaeresis. *)
Definition upper_in_range (c : ascii) : bool :=
  negb ((Char.code c =? 181)%N || (Char.code c =? 223)%N || (Char.code c =? 255)%N).

(** Two texts that differ by the case of their letters at most. *)
Definition same_up_to_case (s t : text) : Prop := upper s = upper t.

End CaseSpec.

(** ** evaluate.py *)

Module Evaluate.

Import Schemas.

(** [isinstance(v, float)]; a [bool] or an [int] is not a [float]. *)
Definition is_float (v : pyval) : bool :=
  match v with PFloat _ => true | _ => false end.

Definition is_nan (v : pyval) : bool :=
  match v with PFloat S754_nan => true | _ => false end.

Section Compare.

(** Python's [str()]. *)
Variable py_str : pyval -> text.

(** [compare_field(a, b)]: the two [try] blocks answer [False] on any
    exception. *)
Definition compare_field (a b : pyval) : bool :=
  match a, b with
  | PNone, PNone => true
  | PNone, _ | _, PNone => false
  | _, _ =>
      if is_float a || is_float b then
        match (let* x := py_float a in
               let* y := py_float b in
               Ok (SFeqb (F64.round2 x) (F64.round2 y))) with
        | Ok verdict => verdict
        | Raised => false
        end
      else
        text_eqb (lower (strip (py_str a))) (lower (strip (py_str b)))
  end.

End Compare.

(** *** evaluate

    The two files are read by [json.load]; what is modelled is the
    tally the function keeps before it prints the percentages. *)

(** An element of the JSON arrays: an object, or any other value. *)
Definition jobject : Type := gmap text pyval.

Inductive json : Type :=
| JObject (r : jobject)
| JOther.

(** [r.get(f)] *)
Definition get (r : jobject) (f : text) : pyval := default PNone (r !! f).

(** A list or a dict cannot be the key of a dict. *)
Definition hashable (v : pyval) : bool :=
  match v with PObj => false | _ => true end.

Definition fields : list text :=
  [str "product_line"; str "origin_port_code"; str "origin_port_name";
   str "destination_port_code"; str "destination_port_name"; str "incoterm";
   str "cargo_weight_kg"; str "cargo_cbm"; str "is_dangerous"].

Record tally : Type := Tally {
  totals : gmap text nat;
  correct : gmap text nat;
  total_values : nat;
  correct_values : nat
}.

(** [d[f] += 1] *)
Definition bump (f : text) (d : gmap text nat) : res (gmap text nat) :=
  let* n := of_option (d !! f) in Ok (<[f := S n]> d).

(** [{f: 0 for f in fields}] *)
Definition zeros : gmap text nat :=
  fold_left (fun d f => <[f := 0%nat]> d) fields ∅.

Definition start : tally := Tally zeros zeros 0 0.

Section Tally.

Variable py_str : pyval -> text.

(** Whether two hashable values are the same key of a dict (the same
    object, or equal with the same hash). *)
Variable key_eq : pyval -> pyval -> bool.

(** A dict with such keys, in the order of insertion. *)
Definition pydict : Type := list (pyval * jobject).

Fixpoint dict_set (k : pyval) (v : jobject) (d : pydict) : pydict :=
  match d with
  | [] => [(k, v)]
  | (k', v') :: d' =>
      if key_eq k' k then (k', v) :: d' else (k', v') :: dict_set k v d'
  end.

Definition dict_get (k : pyval) (d : pydict) : option jobject :=
  option_map snd (List.find (fun kv => key_eq (fst kv) k) d).

(** [{t["id"]: t for t in truth}] *)
Fixpoint truth_map_from (truth : list json) (d : pydict) : res pydict :=
  match truth with
  | [] => Ok d
  | JOther :: _ => Raised
  | JObject t :: truth' =>
      let* k := of_option (t !! str "id") in
      if hashable k then truth_map_from truth' (dict_set k t d) else Raised
  end.

(** One turn of the loop over the fields. *)
Definition score_field (rec gold : jobject) (acc : res tally) (f : text)
  : res tally :=
  let* t := acc in
  let* totals' := bump f (totals t) in
  if compare_field py_str (get rec f) (get gold f) then
    let* correct' := bump f (correct t) in
    Ok (Tally totals' correct' (S (total_values t)) (S (correct_values t)))
  else
    Ok (Tally totals' (correct t) (S (total_values t)) (correct_values t)).

(** One turn of the loop over the output records. *)
Definition score_record (truth_map : pydict) (acc : res tally) (rec : json)
  : res tally :=
  let* t := acc in
  match rec with
  | JOther => Raised
  | JObject r =>
      let id := get r (str "id") in
      if hashable id then
        match dict_get id truth_map with
        | None => Ok t
        | Some gold =>
            if bool_decide (gold = ∅) then Ok t
            else fold_left (score_field r gold) fields (Ok t)
        end
      else Raised
  end.

Definition evaluate (out truth : list json) : res tally :=
  let* truth_map := truth_map_from truth [] in
  fold_left (score_record truth_map) out (Ok start).

End Tally.

(** The sum of the per-field counts. *)
Definition sum_over (d : gmap text nat) : nat :=
  fold_right (fun f acc => (default 0 (d !! f) + acc)%nat) 0%nat fields.

(** The sum of the counts of the fields of [l]. *)
Definition sum_list (l : list text) (d : gmap text nat) : nat :=
  fold_right (fun f acc => (default 0 (d !! f) + acc)%nat) 0%nat l.

(** The state of the tally in the middle of a record: the fields of
    [done] have been counted once more than those of [todo]. *)
Definition Inv (done todo : list text) (m : nat) (t : tally) : Prop :=
  (forall f, In f done ->
     totals t !! f = Some (S m) /\ exists c, correct t !! f = Some c /\ (c <= S m)%nat) /\
  (forall f, In f todo ->
     totals t !! f = Some m /\ exists c, correct t !! f = Some c /\ (c <= m)%nat) /\
  total_values t = (length fields * m + length done)%nat /\
  correct_values t = sum_over (correct t).

End Evaluate.

(** ** Stand-ins for [rapidfuzz] and for the order of the keys, to run
    the port finder on examples *)

Module Mock.

(** A matcher that only knows exact matches, scored 100. *)
Definition exact_match (q : text) (choices : list text)
  : option (text * F64.float) :=
  if existsb (text_eqb q) choices then Some (q, F64.dec 100 0) else None.

(** A matcher that answers with the first choice the query contains,
    scored 90. *)
Definition partial_match (q : text) (choices : list text)
  : option (text * F64.float) :=
  match List.find (fun k => contains k q) choices with
  | Some k => Some (k, F64.dec 90 0)
  | None => None
  end.

Definition map_keys (d : gmap text text) : list text :=
  List.map fst (map_to_list d).

(** An LLM that answers in prose, without any JSON. *)
Definition chatty_llm (_ : text) : res (option text) :=
  Ok (Some (str "Sorry, I cannot read this email."))%string.

(** Keys that are strings, or null. *)
Definition same_key (a b : Schemas.pyval) : bool :=
  match a, b with
  | Schemas.PStr s, Schemas.PStr t => text_eqb s t
  | Schemas.PNone, Schemas.PNone => true
  | _, _ => false
  end.

(** Two gold records and two output records, the second one with an id
    that has no gold record. *)
Definition truth : list Evaluate.json :=
  [Evaluate.JObject
     (<[str "id" := Schemas.PStr (str "EMAIL_001")]>
        (<[str "incoterm" := Schemas.PStr (str "FOB")]>
           (<[str "cargo_weight_kg" := Schemas.PFloat (F64.dec 125 1)]> ∅)));
   Evaluate.JObject
     (<[str "id" := Schemas.PStr (str "EMAIL_002")]>
        (<[str "incoterm" := Schemas.PStr (str "CIF")]> ∅))].

Definition outputs : list Evaluate.json :=
  [Evaluate.JObject
     (<[str "id" := Schemas.PStr (str "EMAIL_001")]>
        (<[str "incoterm" := Schemas.PStr (str " fob ")]>
           (<[str "cargo_weight_kg" := Schemas.PFloat (F64.dec 12499 3)]>
              (<[str "is_dangerous" := Schemas.PBool true]> ∅))));
   Evaluate.JObject
     (<[str "id" := Schemas.PStr (str "EMAIL_009")]>
        (<[str "incoterm" := Schemas.PStr (str "CIF")]> ∅))].

(** A small port reference, with an entry that has no name. *)
Definition reference : list Utils.port_entry :=
  [Utils.PortEntry (Some (str "INMAA")) (Some (str "Chennai"));
   Utils.PortEntry (Some (str "DEHAM")) (Some (str "Hamburg"));
   Utils.PortEntry (Some (str "XXXXX")) None;
   Utils.PortEntry (Some (str "AEJEA")) (Some (str "Jebel Ali"))].

(** The port finder on these stand-ins, as the pure function the
    pipeline takes. *)
Definition finder (t : text) (d : gmap text text) : list text :=
  match Ports.find_ports_in_text partial_match map_keys t d with
  | Ok l => l
  | Raised => []
  end.

Definition name_index : gmap text text := fst (Utils.build_port_index reference).
Definition code_to_name : gmap text text := snd (Utils.build_port_index reference).

End Mock.


(** * Properties *)

(** ** Characters and text *)

Module CharFacts.

Import Char.

Ltac by_cases c := destruct c as [[] [] [] [] [] [] [] []]; vm_compute; try reflexivity; try congruence.

Lemma is_word_to_upper c : is_word (to_upper c) = is_word c.
Proof. by_cases c. Qed.

Lemma to_upper_idem c : to_upper (to_upper c) = to_upper c.
Proof. by_cases c. Qed.

Lemma is_space_to_upper c : is_space (to_upper c) = is_space c.
Proof. by_cases c. Qed.

Lemma eqb_eq c d : eqb c d = true <-> c = d.
Proof. apply Ascii.eqb_eq. Qed.

Lemma eqb_refl c : eqb c c = true.
Proof. apply Ascii.eqb_refl. Qed.

End CharFacts.

Section TextFacts.

Lemma upper_app s t : upper (s ++ t) = upper s ++ upper t.
Proof. apply List.map_app. Qed.

Lemma upper_idem s : upper (upper s) = upper s.
Proof.
  unfold upper. rewrite List.map_map. apply List.map_ext.
  intros c. apply CharFacts.to_upper_idem.
Qed.

Lemma startswith_iff p t : startswith p t = true <-> exists post, t = p ++ post.
Proof.
  revert t. induction p as [|c p IH]; intros t; simpl.
  - split; eauto.
  - destruct t as [|d t].
    + split; [discriminate | intros [post H]; discriminate].
    + rewrite andb_true_iff, CharFacts.eqb_eq, IH. split.
      * intros [-> [post ->]]. eauto.
      * intros [post [= -> ->]]. eauto.
Qed.

(** [n in t] holds exactly when [n] is a contiguous part of [t]. *)
Lemma contains_iff n t :
  contains n t = true <-> exists pre post, t = pre ++ n ++ post.
Proof.
  induction t as [|d t IH].
  - simpl. rewrite orb_false_r, startswith_iff. split.
    + intros [post H]. exists [], post. exact H.
    + intros [pre [post H]]. destruct pre; simpl in H.
      * eauto.
      * discriminate.
  - simpl. rewrite orb_true_iff, IH.
    change (match n with [] => true | c :: p' => Char.eqb c d && startswith p' t end)
      with (startswith n (d :: t)).
    rewrite startswith_iff. split.
    + intros [[post H] | [pre [post H]]].
      * exists [], post. exact H.
      * exists (d :: pre), post. simpl. now rewrite H.
    + intros [pre [post H]]. destruct pre as [|e pre]; simpl in H.
      * left. eauto.
      * right. injection H as _ H. eauto.
Qed.

End TextFacts.

(** ** The matcher agrees with the declarative reading of patterns *)

Module ReFacts.

Import Re.

Lemma last_of_nil prev : last_of prev [] = prev.
Proof. reflexivity. Qed.

Lemma last_of_snoc prev s c : last_of prev (s ++ [c]) = Some c.
Proof. unfold last_of. now rewrite rev_app_distr. Qed.

Lemma last_of_cons prev c s : last_of prev (c :: s) = last_of (Some c) s.
Proof.
  destruct s as [|d s] using rev_ind; [reflexivity|].
  now rewrite app_comm_cons, !last_of_snoc.
Qed.

Lemma last_of_app prev s1 s2 :
  last_of (last_of prev s1) s2 = last_of prev (s1 ++ s2).
Proof.
  revert prev. induction s1 as [|c s1 IH]; intros prev; [reflexivity|].
  simpl. now rewrite !last_of_cons, IH.
Qed.

Section Run.

Context {A : Type}.
Variable ic : bool.

Lemma rep_greedy_iff p n prev rest (k : option ascii -> text -> option A) :
  rep_greedy p n prev rest k <> None <->
  exists s post,
    rest = s ++ post /\ (n <= length s)%nat /\ forallb p s = true /\
    k (last_of prev s) post <> None.
Proof.
  revert n prev. induction rest as [|c rest IH]; intros n prev; simpl.
  - destruct (Nat.eqb_spec n 0) as [->|Hn].
    + split.
      * intros H. exists [], []. repeat split; auto.
      * intros (s & post & Hs & _ & _ & Hk).
        symmetry in Hs. apply app_eq_nil in Hs as [-> ->]. exact Hk.
    + split; [congruence|].
      intros (s & post & Hs & Hlen & _ & _).
      symmetry in Hs. apply app_eq_nil in Hs as [-> ->]. simpl in Hlen. lia.
  - destruct (p c) eqn:Hp.
    + destruct (rep_greedy p (Nat.pred n) (Some c) rest k) eqn:Hrec.
      * split; [|congruence]. intros _.
        assert (Hne : rep_greedy p (Nat.pred n) (Some c) rest k <> None) by congruence.
        apply IH in Hne as (s & post & -> & Hlen & Hall & Hk).
        exists (c :: s), post. simpl. rewrite Hp, last_of_cons.
        repeat split; auto. lia.
      * assert (Hno : ~ exists s post, rest = s ++ post /\ (Nat.pred n <= length s)%nat /\
                         forallb p s = true /\ k (last_of (Some c) s) post <> None).
        { intros H. apply IH in H. congruence. }
        destruct (Nat.eqb_spec n 0) as [->|Hn].
        -- split.
           ++ intros Hk. exists [], (c :: rest). repeat split; auto.
           ++ intros (s & post & Hs & _ & Hall & Hk).
              destruct s as [|d s]; simpl in Hs.
              ** subst post. exact Hk.
              ** injection Hs as -> ->. exfalso. apply Hno.
                 exists s, post. simpl in Hall. apply andb_true_iff in Hall as [_ Hall].
                 rewrite last_of_cons in Hk. repeat split; auto. simpl. lia.
        -- split; [congruence|].
           intros (s & post & Hs & Hlen & Hall & Hk).
           destruct s as [|d s]; simpl in Hs, Hlen; [lia|].
           injection Hs as -> ->. exfalso. apply Hno.
           exists s, post. simpl in Hall. apply andb_true_iff in Hall as [_ Hall].
           rewrite last_of_cons in Hk. repeat split; auto. lia.
    + destruct (Nat.eqb_spec n 0) as [->|Hn].
      * split.
        -- intros Hk. exists [], (c :: rest). repeat split; auto.
        -- intros (s & post & Hs & _ & Hall & Hk).
           destruct s as [|d s]; simpl in Hs.
           ++ subst post. exact Hk.
           ++ injection Hs as -> ->. simpl in Hall. rewrite Hp in Hall. discriminate.
      * split; [congruence|].
        intros (s & post & Hs & Hlen & Hall & Hk).
        destruct s as [|d s]; simpl in Hs, Hlen; [lia|].
        injection Hs as -> ->. simpl in Hall. rewrite Hp in Hall. discriminate.
Qed.

(** The matcher succeeds exactly when some prefix of the input matches
    the pattern and the continuation succeeds after it. *)
Lemma run_iff r :
  forall (k : option ascii -> text -> option text -> option A), blind k ->
  forall prev rest cap,
    run ic r prev rest cap k <> None <->
    exists s post,
      rest = s ++ post /\ Matches ic r prev s post /\
      k (last_of prev s) post None <> None.
Proof.
  induction r as [ | c | p | r1 IH1 r2 IH2 | r1 IH1 r2 IH2 | r1 IH1 | p n | | r1 IH1];
    intros k Hk prev rest cap; simpl.
  - (* Eps *)
    split.
    + intros H. exists [], rest. repeat split; [constructor|].
      intros E. apply H. eapply Hk, E.
    + intros (s & post & -> & HM & H). inversion HM; subst. simpl.
      intros E. apply H. eapply Hk, E.
  - (* Chr *)
    destruct rest as [|d rest].
    + split; [congruence|]. intros (s & post & Hs & HM & _).
      inversion HM; subst. discriminate.
    + destruct (Char.eq_flag ic c d) eqn:E.
      * split.
        -- intros H. exists [d], rest. repeat split; [now constructor|].
           intros E'. apply H. eapply Hk, E'.
        -- intros (s & post & Hs & HM & H). inversion HM; subst.
           injection Hs as -> ->. intros E'. apply H. eapply Hk, E'.
      * split; [congruence|]. intros (s & post & Hs & HM & _).
        inversion HM; subst. injection Hs as -> ->. congruence.
  - (* Cls *)
    destruct rest as [|d rest].
    + split; [congruence|]. intros (s & post & Hs & HM & _).
      inversion HM; subst. discriminate.
    + destruct (p d) eqn:E.
      * split.
        -- intros H. exists [d], rest. repeat split; [now constructor|].
           intros E'. apply H. eapply Hk, E'.
        -- intros (s & post & Hs & HM & H). inversion HM; subst.
           injection Hs as -> ->. intros E'. apply H. eapply Hk, E'.
      * split; [congruence|]. intros (s & post & Hs & HM & _).
        inversion HM; subst. injection Hs as -> ->. congruence.
  - (* Seq *)
    assert (Hk2 : blind (fun prev' rest' cap' => run ic r2 prev' rest' cap' k)).
    { intros p0 r0 c0 c0' E.
      destruct (run ic r2 p0 r0 c0' k) eqn:E'; [|reflexivity].
      assert (Hne : run ic r2 p0 r0 c0' k <> None) by congruence.
      apply (IH2 k Hk) in Hne. apply (IH2 k Hk p0 r0 c0) in Hne. congruence. }
    rewrite (IH1 _ Hk2). split.
    + intros (s1 & post1 & -> & HM1 & H2).
      apply (IH2 k Hk) in H2 as (s2 & post & -> & HM2 & H).
      exists (s1 ++ s2), post. rewrite <- app_assoc, <- last_of_app.
      repeat split; auto. now constructor.
    + intros (s & post & -> & HM & H). inversion HM; subst.
      exists s1, (s2 ++ post). rewrite <- app_assoc. repeat split; auto.
      apply (IH2 k Hk). exists s2, post. rewrite last_of_app. auto.
  - (* Alt *)
    destruct (run ic r1 prev rest cap k) eqn:E1.
    + split; [|congruence]. intros _.
      assert (Hne : run ic r1 prev rest cap k <> None) by congruence.
      apply (IH1 k Hk) in Hne as (s & post & -> & HM & H).
      exists s, post. repeat split; auto. now apply M_AltL.
    + rewrite (IH2 k Hk). split.
      * intros (s & post & -> & HM & H). exists s, post.
        repeat split; auto. now apply M_AltR.
      * intros (s & post & -> & HM & H). inversion HM; subst.
        -- exfalso. assert (Hne : run ic r1 prev (s ++ post) cap k <> None).
           { apply (IH1 k Hk). eauto. }
           congruence.
        -- eauto.
  - (* Opt *)
    destruct (run ic r1 prev rest cap k) eqn:E1.
    + split; [|congruence]. intros _.
      assert (Hne : run ic r1 prev rest cap k <> None) by congruence.
      apply (IH1 k Hk) in Hne as (s & post & -> & HM & H).
      exists s, post. repeat split; auto. now apply M_OptSome.
    + split.
      * intros H. exists [], rest. repeat split; [apply M_OptNone|].
        intros E. apply H. eapply Hk, E.
      * intros (s & post & -> & HM & H). inversion HM; subst.
        -- exfalso. assert (Hne : run ic r1 prev (s ++ post) cap k <> None).
           { apply (IH1 k Hk). eauto. }
           congruence.
        -- simpl. intros E. apply H. eapply Hk, E.
  - (* Rep *)
    rewrite rep_greedy_iff. split.
    + intros (s & post & -> & Hlen & Hall & H). exists s, post.
      repeat split; [now constructor|]. intros E. apply H. eapply Hk, E.
    + intros (s & post & -> & HM & H). inversion HM; subst.
      exists s, post. repeat split; auto. intros E. apply H. eapply Hk, E.
  - (* WordB *)
    destruct (at_boundary prev rest) eqn:E.
    + split.
      * intros H. exists [], rest. repeat split; [now constructor|].
        intros E'. apply H. eapply Hk, E'.
      * intros (s & post & -> & HM & H). inversion HM; subst. simpl.
        intros E'. apply H. eapply Hk, E'.
    + split; [congruence|]. intros (s & post & -> & HM & _).
      inversion HM; subst. simpl in E. congruence.
  - (* Grp *)
    rewrite IH1.
    + split.
      * intros (s & post & -> & HM & H). exists s, post.
        repeat split; [now constructor|]. intros E. apply H. eapply Hk, E.
      * intros (s & post & -> & HM & H). inversion HM; subst.
        exists s, post. repeat split; auto. intros E. apply H. eapply Hk, E.
    + intros p0 r0 c0 c0' E. exact E.
Qed.

End Run.

Lemma blind_accept : blind accept.
Proof. intros prev rest c c' H. discriminate. Qed.

Lemma search_from_iff ic r rest : forall prev,
  search_from ic r prev rest <> None <->
  exists pre s post,
    rest = pre ++ s ++ post /\ Matches ic r (last_of prev pre) s post.
Proof.
  induction rest as [|c rest IH]; intros prev.
  - simpl. destruct (run ic r prev [] None accept) eqn:E.
    + split; [|congruence]. intros _.
      assert (Hne : run ic r prev [] None accept <> None) by congruence.
      apply (run_iff ic r accept blind_accept) in Hne as (s & post & Hs & HM & _).
      exists [], s, post. auto.
    + split; [congruence|]. intros (pre & s & post & Hs & HM).
      symmetry in Hs. apply app_eq_nil in Hs as [-> Hs].
      exfalso. assert (Hne : run ic r prev [] None accept <> None).
      { apply (run_iff ic r accept blind_accept). exists s, post.
        repeat split; auto; try discriminate. }
      congruence.
  - simpl. destruct (run ic r prev (c :: rest) None accept) eqn:E.
    + split; [|congruence]. intros _.
      assert (Hne : run ic r prev (c :: rest) None accept <> None) by congruence.
      apply (run_iff ic r accept blind_accept) in Hne as (s & post & Hs & HM & _).
      exists [], s, post. auto.
    + rewrite IH. split.
      * intros (pre & s & post & -> & HM). exists (c :: pre), s, post.
        rewrite last_of_cons. auto.
      * intros (pre & s & post & Hs & HM). destruct pre as [|d pre].
        -- exfalso. assert (Hne : run ic r prev (c :: rest) None accept <> None).
           { apply (run_iff ic r accept blind_accept). exists s, post.
             repeat split; auto; try discriminate. }
           congruence.
        -- injection Hs as -> ->. rewrite last_of_cons in HM. eauto.
Qed.

Section Group.

Context {A : Type}.
Variable ic : bool.

Lemma rep_greedy_some p n rest : forall prev (k : option ascii -> text -> option A) a,
  rep_greedy p n prev rest k = Some a -> exists prev' rest', k prev' rest' = Some a.
Proof.
  revert n. induction rest as [|c rest IH]; intros n prev k a; simpl.
  - destruct (n =? 0)%nat; [eauto|discriminate].
  - destruct (p c).
    + destruct (rep_greedy p (Nat.pred n) (Some c) rest k) eqn:E.
      * intros [= ->]. eapply IH, E.
      * destruct (n =? 0)%nat; [eauto|discriminate].
    + destruct (n =? 0)%nat; [eauto|discriminate].
Qed.

(** A group that is set stays set, and a pattern that always goes
    through its group hands a group to its continuation. *)
Lemma run_sets_group r :
  forall (k : option ascii -> text -> option text -> option A) prev rest cap a,
    run ic r prev rest cap k = Some a ->
    exists prev' rest' cap',
      k prev' rest' cap' = Some a /\
      (cap <> None \/ sets_group r = true -> cap' <> None).
Proof.
  induction r as [ | c | p | r1 IH1 r2 IH2 | r1 IH1 r2 IH2 | r1 IH1 | p n | | r1 IH1];
    intros k prev rest cap a; simpl.
  - intros H. exists prev, rest, cap. split; [exact H|]. intros [?|?]; [assumption|discriminate].
  - destruct rest as [|d rest]; [discriminate|].
    destruct (Char.eq_flag ic c d); [|discriminate].
    intros H. exists (Some d), rest, cap. split; [exact H|].
    intros [?|?]; [assumption|discriminate].
  - destruct rest as [|d rest]; [discriminate|].
    destruct (p d); [|discriminate].
    intros H. exists (Some d), rest, cap. split; [exact H|].
    intros [?|?]; [assumption|discriminate].
  - intros H. apply IH1 in H as (p1 & t1 & cap1 & H & Hc1).
    apply IH2 in H as (p2 & t2 & cap2 & H & Hc2).
    exists p2, t2, cap2. split; [exact H|].
    intros [Hc|Hs].
    + apply Hc2. left. apply Hc1. now left.
    + apply orb_true_iff in Hs as [Hs|Hs].
      * apply Hc2. left. apply Hc1. now right.
      * apply Hc2. now right.
  - destruct (run ic r1 prev rest cap k) eqn:E.
    + intros [= ->]. apply IH1 in E as (p1 & t1 & cap1 & H & Hc1).
      exists p1, t1, cap1. split; [exact H|].
      intros [Hc|Hs]; apply Hc1; [now left|].
      apply andb_true_iff in Hs as [Hs _]. now right.
    + intros H. apply IH2 in H as (p2 & t2 & cap2 & H & Hc2).
      exists p2, t2, cap2. split; [exact H|].
      intros [Hc|Hs]; apply Hc2; [now left|].
      apply andb_true_iff in Hs as [_ Hs]. now right.
  - destruct (run ic r1 prev rest cap k) eqn:E.
    + intros [= ->]. apply IH1 in E as (p1 & t1 & cap1 & H & Hc1).
      exists p1, t1, cap1. split; [exact H|].
      intros [Hc|Hs]; [|discriminate]. apply Hc1. now left.
    + intros H. exists prev, rest, cap. split; [exact H|].
      intros [?|?]; [assumption|discriminate].
  - intros H. apply rep_greedy_some in H as (p' & t' & H).
    exists p', t', cap. split; [exact H|].
    intros [?|?]; [assumption|discriminate].
  - destruct (at_boundary prev rest); [|discriminate].
    intros H. exists prev, rest, cap. split; [exact H|].
    intros [?|?]; [assumption|discriminate].
  - intros H. apply IH1 in H as (p1 & t1 & cap1 & H & _).
    eexists p1, t1, _. split; [exact H|]. intros _. discriminate.
Qed.

End Group.

Lemma search_from_group ic r rest : forall prev g,
  sets_group r = true -> search_from ic r prev rest = Some g -> g <> None.
Proof.
  induction rest as [|c rest IH]; intros prev g Hs; simpl.
  - destruct (run ic r prev [] None accept) eqn:E; [|discriminate].
    intros [= ->]. apply run_sets_group in E as (p' & t' & cap' & H & Hc).
    injection H as <-. apply Hc. now right.
  - destruct (run ic r prev (c :: rest) None accept) eqn:E.
    + intros [= ->]. apply run_sets_group in E as (p' & t' & cap' & H & Hc).
      injection H as <-. apply Hc. now right.
    + now apply IH.
Qed.

(** [re.search] finds a match exactly when the pattern occurs. *)
Lemma found_iff ic r t : found ic r t = true <-> Occurs ic r t.
Proof.
  unfold found, search, Occurs. rewrite <- search_from_iff.
  destruct (search_from ic r None t); split; congruence.
Qed.

Section Sound.
Context {A : Type}.
Variable ic : bool.

Lemma rep_greedy_sound p n rest : forall prev (k : option ascii -> text -> option A) a,
  rep_greedy p n prev rest k = Some a ->
  exists s post,
    rest = s ++ post /\ (n <= length s)%nat /\ forallb p s = true /\
    k (last_of prev s) post = Some a.
Proof.
  revert n. induction rest as [|c rest IH]; intros n prev k a; simpl.
  - destruct (Nat.eqb_spec n 0) as [->|Hn]; [|discriminate].
    intros H. exists [], []. repeat split; auto.
  - assert (Hhere : (if (n =? 0)%nat then k prev (c :: rest) else None) = Some a ->
              exists s post, c :: rest = s ++ post /\ (n <= length s)%nat /\
                forallb p s = true /\ k (last_of prev s) post = Some a).
    { destruct (Nat.eqb_spec n 0) as [->|Hn]; [|discriminate].
      intros H. exists [], (c :: rest). repeat split; auto. }
    destruct (p c) eqn:Hp; [|exact Hhere].
    destruct (rep_greedy p (Nat.pred n) (Some c) rest k) eqn:E; [|exact Hhere].
    intros [= ->]. apply IH in E as (s & post & -> & Hlen & Hall & Hk).
    exists (c :: s), post. simpl. rewrite Hp, last_of_cons.
    repeat split; auto. lia.
Qed.

(** What a successful run gives its continuation: the rest of the input
    after a match, and a group that is either the one it started with or
    a match of the pattern's group. *)
Lemma run_sound r :
  forall (k : option ascii -> text -> option text -> option A) prev rest cap a,
    run ic r prev rest cap k = Some a ->
    exists s post cap',
      rest = s ++ post /\ Matches ic r prev s post /\
      k (last_of prev s) post cap' = Some a /\
      (cap' = cap \/ exists g, cap' = Some g /\ group_match ic r g).
Proof.
  induction r as [ | c | p | r1 IH1 r2 IH2 | r1 IH1 r2 IH2 | r1 IH1 | p n | | r1 IH1];
    intros k prev rest cap a; simpl.
  - intros H. exists [], rest, cap. repeat split; auto. constructor.
  - destruct rest as [|d rest]; [discriminate|].
    destruct (Char.eq_flag ic c d) eqn:E; [|discriminate].
    intros H. exists [d], rest, cap. repeat split; auto. now constructor.
  - destruct rest as [|d rest]; [discriminate|].
    destruct (p d) eqn:E; [|discriminate].
    intros H. exists [d], rest, cap. repeat split; auto. now constructor.
  - intros H. apply IH1 in H as (s1 & post1 & cap1 & -> & HM1 & H & Hc1).
    apply IH2 in H as (s2 & post & cap2 & -> & HM2 & H & Hc2).
    exists (s1 ++ s2), post, cap2. rewrite <- app_assoc, <- last_of_app.
    repeat split; auto; [now constructor|].
    destruct Hc2 as [->|(g & -> & Hg)]; [|right; eauto].
    destruct Hc1 as [->|(g & -> & Hg)]; [now left|right; eauto].
  - destruct (run ic r1 prev rest cap k) eqn:E.
    + intros [= ->]. apply IH1 in E as (s & post & cap' & -> & HM & H & Hc).
      exists s, post, cap'. repeat split; auto; [now apply M_AltL|].
      destruct Hc as [->|(g & -> & Hg)]; [now left|right; eauto].
    + intros H. apply IH2 in H as (s & post & cap' & -> & HM & H & Hc).
      exists s, post, cap'. repeat split; auto; [now apply M_AltR|].
      destruct Hc as [->|(g & -> & Hg)]; [now left|right; eauto].
  - destruct (run ic r1 prev rest cap k) eqn:E.
    + intros [= ->]. apply IH1 in E as (s & post & cap' & -> & HM & H & Hc).
      exists s, post, cap'. repeat split; auto. now apply M_OptSome.
    + intros H. exists [], rest, cap. repeat split; auto. apply M_OptNone.
  - intros H. apply rep_greedy_sound in H as (s & post & -> & Hlen & Hall & H).
    exists s, post, cap. repeat split; auto. now constructor.
  - destruct (at_boundary prev rest) eqn:E; [|discriminate].
    intros H. exists [], rest, cap. repeat split; auto. now constructor.
  - intros H. apply IH1 in H as (s & post & cap' & -> & HM & H & _).
    rewrite length_app, Nat.add_sub, firstn_app, Nat.sub_diag, firstn_all in H.
    simpl in H. rewrite app_nil_r in H.
    exists s, post, (Some s). repeat split; auto; [now constructor|].
    right. exists s. split; [reflexivity|]. simpl. eauto.
Qed.

End Sound.

Lemma search_from_sound ic r rest : forall prev g,
  search_from ic r prev rest = Some (Some g) -> group_match ic r g.
Proof.
  induction rest as [|c rest IH]; intros prev g; simpl.
  - destruct (run ic r prev [] None accept) eqn:E; [|discriminate].
    intros [= ->]. apply run_sound in E as (s & post & cap' & _ & _ & H & Hc).
    injection H as ->. destruct Hc as [Hc|(g' & [= ->] & Hg)]; [discriminate|exact Hg].
  - destruct (run ic r prev (c :: rest) None accept) eqn:E.
    + intros [= ->]. apply run_sound in E as (s & post & cap' & _ & _ & H & Hc).
      injection H as ->. destruct Hc as [Hc|(g' & [= ->] & Hg)]; [discriminate|exact Hg].
    + apply IH.
Qed.

(** [m.group(1)] is a match of the group of the pattern. *)
Lemma group1_sound ic r t g : group1 ic r t = Some g -> group_match ic r g.
Proof.
  unfold group1, search. destruct (search_from ic r None t) as [[g'|]|] eqn:E;
    try discriminate.
  intros [= ->]. eapply search_from_sound, E.
Qed.

(** For a pattern that always goes through its group, [m.group(1)] is a
    string exactly when the pattern occurs. *)
Lemma group1_iff ic r t :
  sets_group r = true ->
  (exists g, group1 ic r t = Some g) <-> Occurs ic r t.
Proof.
  intros Hs. rewrite <- found_iff. unfold group1, found, search.
  destruct (search_from ic r None t) as [[g|]|] eqn:E.
  - split; eauto.
  - exfalso. eapply search_from_group; eauto.
  - split; [intros [g H]|]; discriminate.
Qed.

Lemma group1_none_iff ic r t :
  sets_group r = true -> group1 ic r t = None <-> ~ Occurs ic r t.
Proof.
  intros Hs. rewrite <- (group1_iff ic r t Hs). split.
  - intros H [g Hg]. congruence.
  - intros H. destruct (group1 ic r t) eqn:E; [|reflexivity].
    exfalso. apply H. eauto.
Qed.

End ReFacts.

(** ** parse_incoterm *)

Module IncotermFacts.

Import Re ReFacts Utils.

Lemma Matches_lit ic w : forall prev s post,
  Matches ic (lit w) prev s post <->
  Forall2 (fun c d => Char.eq_flag ic c d = true) w s.
Proof.
  induction w as [|c w IH]; intros prev s post; simpl.
  - split.
    + intros H. inversion H; subst. constructor.
    + intros H. inversion H; subst. constructor.
  - split.
    + intros H. inversion H; subst.
      match goal with
      | H1 : Matches _ (Chr _) _ _ _ |- _ => inversion H1; subst
      end.
      simpl. constructor; [assumption|]. eapply IH; eassumption.
    + intros H. inversion H as [|c' d w' s' Hcd Hrest]; subst.
      change (d :: s') with ([d] ++ s'). constructor.
      * now constructor.
      * now apply IH.
Qed.

Lemma Matches_lit_exact w prev s post :
  Matches false (lit w) prev s post <-> s = w.
Proof.
  rewrite Matches_lit. split.
  - intros H. induction H as [|c d w s Hcd _ IH]; [reflexivity|].
    simpl in Hcd. apply CharFacts.eqb_eq in Hcd. now subst.
  - intros ->. induction w; constructor; auto.
    simpl. apply CharFacts.eqb_refl.
Qed.

Lemma Matches_incoterm_re w prev s post :
  Matches false (incoterm_re w) prev s post <->
  s = w /\ at_boundary prev (w ++ post) = true /\
  at_boundary (last_of prev w) post = true.
Proof.
  unfold incoterm_re. split.
  - intros H. inversion H as [| | |r1 r2 p0 s1 s2 po H1 H2| | | | | | |]; subst.
    inversion H1; subst.
    inversion H2 as [| | |r1 r2 p0 s3 s4 po H3 H4| | | | | | |]; subst.
    apply Matches_lit_exact in H3. subst s3.
    inversion H4; subst. rewrite app_nil_r in *. simpl in *. auto.
  - intros (-> & Hb1 & Hb2).
    apply (M_Seq false WordB (Seq (lit w) WordB) prev [] w post).
    + constructor. exact Hb1.
    + pose proof (M_Seq false (lit w) WordB (last_of prev []) w [] post) as H.
      rewrite app_nil_r in H. apply H.
      * now apply Matches_lit_exact.
      * constructor. exact Hb2.
Qed.

Lemma word_opt_head_upper s : word_opt (head (upper s)) = word_opt (head s).
Proof. destruct s; simpl; [reflexivity|]. apply CharFacts.is_word_to_upper. Qed.

Lemma word_opt_last_upper s :
  word_opt (last_of None (upper s)) = word_opt (last_of None s).
Proof.
  destruct s as [|c s] using rev_ind; [reflexivity|].
  rewrite upper_app. simpl. rewrite !last_of_snoc. simpl.
  apply CharFacts.is_word_to_upper.
Qed.

Lemma at_boundary_upper pre post :
  at_boundary (last_of None (upper pre)) (upper post) =
  at_boundary (last_of None pre) post.
Proof.
  unfold at_boundary. now rewrite word_opt_head_upper, word_opt_last_upper.
Qed.

(** The search of the code, on the upper-cased text, finds [w] exactly
    when [w] occurs in the text in the specification's sense. *)
Lemma found_incoterm_iff w t :
  upper w = w ->
  found false (incoterm_re w) (upper t) = true <-> Spec.occurs_word_ci w t.
Proof.
  intros Hw. rewrite found_iff. unfold Occurs, Spec.occurs_word_ci. split.
  - intros (pre' & s & post' & Ht & HM).
    apply Matches_incoterm_re in HM as (-> & Hb1 & Hb2).
    unfold upper in Ht. apply List.map_eq_app in Ht as (pre & rest & -> & Hpre & Hrest).
    apply List.map_eq_app in Hrest as (mid & post & -> & Hmid & Hpost).
    fold (upper pre) in Hpre. fold (upper mid) in Hmid. fold (upper post) in Hpost.
    exists pre, mid, post. split; [reflexivity|]. split; [congruence|].
    subst pre' post'. rewrite <- Hmid in Hb1, Hb2.
    rewrite <- upper_app, at_boundary_upper in Hb1.
    rewrite last_of_app, <- upper_app, at_boundary_upper in Hb2. auto.
  - intros (pre & mid & post & -> & Hmid & Hb1 & Hb2).
    exists (upper pre), w, (upper post). rewrite !upper_app. split; [congruence|].
    apply Matches_incoterm_re. split; [reflexivity|].
    rewrite Hw in Hmid. rewrite <- Hmid.
    rewrite <- upper_app, at_boundary_upper.
    rewrite last_of_app, <- upper_app, at_boundary_upper. auto.
Qed.

Lemma valid_upper w : In w VALID_INCOTERMS -> upper w = w.
Proof.
  intros H. repeat (destruct H as [<-|H]; [reflexivity|]). destruct H.
Qed.

Lemma filter_unique {A} (P : A -> bool) (l : list A) (w : A) :
  List.NoDup l -> In w l -> P w = true ->
  (forall x, In x l -> P x = true -> x = w) ->
  List.filter P l = [w].
Proof.
  induction l as [|a l IH]; intros Hnd Hin Hw Hu; [destruct Hin|].
  inversion Hnd as [|a' l' Hnotin Hnd']; subst. simpl.
  assert (Hnone : forall l0, (forall x, In x l0 -> P x = true -> False) ->
                            List.filter P l0 = []).
  { intros l0. induction l0 as [|b l0 IH0]; intros H; [reflexivity|].
    simpl. destruct (P b) eqn:E.
    - exfalso. apply (H b); simpl; auto.
    - apply IH0. intros x Hx. apply H. now right. }
  destruct Hin as [->|Hin].
  - rewrite Hw. f_equal. apply Hnone. intros x Hx Px.
    assert (x = w) by (apply Hu; simpl; auto). subst. contradiction.
  - destruct (P a) eqn:E.
    + assert (a = w) by (apply Hu; simpl; auto). subst. contradiction.
    + apply IH; auto. intros x Hx. apply Hu. now right.
Qed.

Lemma filter_two {A} (P : A -> bool) (l : list A) (x y : A) :
  x <> y -> In x l -> In y l -> P x = true -> P y = true ->
  (1 < length (List.filter P l))%nat.
Proof.
  intros Hxy Hx Hy Px Py.
  assert (Hfx : In x (List.filter P l)) by (apply List.filter_In; auto).
  assert (Hfy : In y (List.filter P l)) by (apply List.filter_In; auto).
  destruct (List.filter P l) as [|a [|b f]]; simpl in *; try lia.
  destruct Hfx as [Ha|[]]. destruct Hfy as [Hb|[]]. congruence.
Qed.

Lemma occurs_nonempty w t :
  w <> [] -> Spec.occurs_word_ci w t -> nonempty t = true.
Proof.
  intros Hw (pre & mid & post & -> & Hmid & _).
  destruct mid as [|c mid].
  - destruct w; [contradiction|discriminate].
  - destruct pre; reflexivity.
Qed.

Lemma valid_nonempty w : In w VALID_INCOTERMS -> w <> [].
Proof.
  intros H. repeat (destruct H as [<-|H]; [discriminate|]). destruct H.
Qed.

Lemma valid_NoDup : List.NoDup VALID_INCOTERMS.
Proof.
  unfold VALID_INCOTERMS, str. simpl.
  repeat (constructor;
          [simpl; intros H; repeat (destruct H as [H|H]; [discriminate H|]); exact H|]).
  constructor.
Qed.

Lemma filter_none {A} (P : A -> bool) (l : list A) :
  (forall x, In x l -> P x <> true) -> List.filter P l = [].
Proof.
  induction l as [|b l IH]; intros H; [reflexivity|].
  simpl. destruct (P b) eqn:E.
  - exfalso. apply (H b); simpl; auto.
  - apply IH. intros x Hx. apply H. now right.
Qed.

End IncotermFacts.

Import Utils.

(** C1.  Whatever the iteration order of the set of incoterms, the parser
    returns null when no member occurs in the text (case-insensitively,
    between word boundaries), the member itself when exactly one distinct
    member occurs, and FOB as soon as two distinct members occur. *)
Theorem parse_incoterm_spec (order : list text) (t : text) :
  Permutation order VALID_INCOTERMS ->
  ((forall w, In w VALID_INCOTERMS -> ~ Spec.occurs_word_ci w t) ->
   parse_incoterm_in order t = None) /\
  (forall w,
     In w VALID_INCOTERMS -> Spec.occurs_word_ci w t ->
     (forall w', In w' VALID_INCOTERMS -> Spec.occurs_word_ci w' t -> w' = w) ->
     parse_incoterm_in order t = Some w) /\
  (forall w1 w2,
     In w1 VALID_INCOTERMS -> In w2 VALID_INCOTERMS -> w1 <> w2 ->
     Spec.occurs_word_ci w1 t -> Spec.occurs_word_ci w2 t ->
     parse_incoterm_in order t = Some (str "FOB")).
Proof.
  intros Hperm.
  assert (Hnd : List.NoDup order).
  { eapply Permutation_NoDup; [symmetry; exact Hperm | apply IncotermFacts.valid_NoDup]. }
  assert (Hin : forall w, In w order <-> In w VALID_INCOTERMS).
  { intros w. split; apply Permutation_in; [assumption | now symmetry]. }
  assert (HP : forall w, In w VALID_INCOTERMS ->
             Re.found false (incoterm_re w) (upper t) = true <-> Spec.occurs_word_ci w t).
  { intros w Hw. apply IncotermFacts.found_incoterm_iff, IncotermFacts.valid_upper, Hw. }
  unfold parse_incoterm_in. repeat split.
  - intros Hnone. destruct (nonempty t); [simpl|reflexivity].
    rewrite IncotermFacts.filter_none; [reflexivity|].
    intros w Hw E. apply Hin in Hw. apply (Hnone w Hw). now apply HP.
  - intros w Hw Hocc Huniq.
    rewrite (IncotermFacts.occurs_nonempty w t (IncotermFacts.valid_nonempty w Hw) Hocc).
    simpl. rewrite (IncotermFacts.filter_unique _ order w); auto.
    + now apply Hin.
    + now apply HP.
    + intros x Hx Px. apply Hin in Hx. apply Huniq; [assumption|]. now apply HP.
  - intros w1 w2 H1 H2 Hne Ho1 Ho2.
    rewrite (IncotermFacts.occurs_nonempty w1 t (IncotermFacts.valid_nonempty w1 H1) Ho1).
    simpl.
    pose proof (IncotermFacts.filter_two
                  (fun inc => Re.found false (incoterm_re inc) (upper t))
                  order w1 w2 Hne) as Hlen.
    specialize (Hlen (proj2 (Hin w1) H1) (proj2 (Hin w2) H2)
                     (proj2 (HP w1 H1) Ho1) (proj2 (HP w2 H2) Ho2)).
    destruct (List.filter _ order) as [|a f] eqn:E; [simpl in Hlen; lia|].
    apply Nat.ltb_lt in Hlen. now rewrite Hlen.
Qed.

(** The three cases of C1 on concrete texts, for the reversed iteration
    order: only a lowercase "cif"; both FOB and CIF; no incoterm at all. *)
Lemma parse_incoterm_spec_witness :
  parse_incoterm_in (rev VALID_INCOTERMS) (str "terms: cif, Nhava Sheva") = Some (str "CIF") /\
  parse_incoterm_in (rev VALID_INCOTERMS) (str "FOB or CIF?") = Some (str "FOB") /\
  parse_incoterm_in (rev VALID_INCOTERMS) (str "fobbed off") = None.
Proof.
  assert (Hperm : Permutation (rev VALID_INCOTERMS) VALID_INCOTERMS).
  { symmetry. apply Permutation_rev. }
  assert (Hdec : forall t w, In w VALID_INCOTERMS -> Spec.occurs_word_ci w t ->
                   Re.found false (incoterm_re w) (upper t) = true).
  { intros t w Hw Ho.
    now apply IncotermFacts.found_incoterm_iff; [apply IncotermFacts.valid_upper|]. }
  split; [|split].
  - apply (proj1 (proj2 (parse_incoterm_spec _ (str "terms: cif, Nhava Sheva") Hperm))).
    + simpl. auto.
    + apply IncotermFacts.found_incoterm_iff; reflexivity.
    + intros w' Hw' Ho. apply Hdec in Ho; [|assumption].
      repeat (destruct Hw' as [<-|Hw']; [first [reflexivity | vm_compute in Ho; discriminate Ho]|]).
      destruct Hw'.
  - apply (proj2 (proj2 (parse_incoterm_spec _ (str "FOB or CIF?") Hperm))
             (str "FOB") (str "CIF")).
    + simpl. auto.
    + simpl. auto.
    + discriminate.
    + apply IncotermFacts.found_incoterm_iff; reflexivity.
    + apply IncotermFacts.found_incoterm_iff; reflexivity.
  - apply (proj1 (parse_incoterm_spec _ (str "fobbed off") Hperm)).
    intros w Hw Ho. apply Hdec in Ho; [|assumption].
    repeat (destruct Hw as [<-|Hw]; [vm_compute in Ho; discriminate Ho|]).
    destruct Hw.
Defined.

(** A letter right beside the term, accented or not, leaves no word
    boundary: [\w] holds of it.  After a space the term is found. *)
Lemma parse_incoterm_accented_letter :
  parse_incoterm ("233"%char :: str "FOB") = None /\
  parse_incoterm (str "cif" ++ ["233"%char]) = None /\
  parse_incoterm ("233"%char :: str " FOB") = Some (str "FOB").
Proof. split; [|split]; vm_compute; reflexivity. Qed.

(** ** detect_dangerous *)

Module DangerFacts.

Import Re ReFacts.

Lemma lower_nonempty t : nonempty (lower t) = nonempty t.
Proof. destruct t; reflexivity. Qed.

Lemma appears_nonempty n t :
  n <> [] -> Spec.appears n t -> nonempty t = true.
Proof.
  intros Hn (pre & post & ->). destruct pre; [|reflexivity].
  destruct n; [contradiction|reflexivity].
Qed.

(** Searching for a literal keyword is a substring test. *)
Lemma found_lit_iff w t : found false (lit w) t = true <-> Spec.appears w t.
Proof.
  rewrite found_iff. unfold Occurs, Spec.appears. split.
  - intros (pre & s & post & -> & HM).
    apply IncotermFacts.Matches_lit_exact in HM. subst. eauto.
  - intros (pre & post & ->). exists pre, w, post. split; [reflexivity|].
    now apply IncotermFacts.Matches_lit_exact.
Qed.

Lemma negation_found t :
  existsb (fun n => contains n (lower t)) negatives = true <->
  exists n, In n negatives /\ Spec.appears n (lower t).
Proof.
  rewrite existsb_exists. split.
  - intros (n & Hn & Hc). exists n. split; [assumption|]. now apply contains_iff.
  - intros (n & Hn & Ha). exists n. split; [assumption|]. now apply contains_iff.
Qed.

End DangerFacts.

(** C3.  A negation phrase anywhere in the lower-cased text makes the
    detector answer false, whatever else the text contains; an absent or
    empty text gives false as well. *)
Theorem detect_dangerous_negation (t n : text) :
  In n negatives -> Spec.appears n (lower t) ->
  detect_dangerous (Some t) = false /\
  detect_dangerous None = false /\
  detect_dangerous (Some []) = false.
Proof.
  intros Hn Ha. split; [|split; reflexivity].
  unfold detect_dangerous. destruct (nonempty t); [|reflexivity].
  simpl negb. cbv iota.
  assert (E : existsb (fun n => contains n (lower t)) negatives = true).
  { apply DangerFacts.negation_found. eauto. }
  now rewrite E.
Qed.

(** The text of the specification: "non-hazardous" wins over "Class 9". *)
Lemma detect_dangerous_negation_witness :
  detect_dangerous
    (Some (str "This shipment is non-hazardous but contains Class 9 materials")) = false /\
  Re.found false (Re.Seq (Re.lit (str "class ")) (Re.Cls Char.is_digit))
    (lower (str "This shipment is non-hazardous but contains Class 9 materials")) = true.
Proof.
  split; [|reflexivity].
  apply (detect_dangerous_negation
           (str "This shipment is non-hazardous but contains Class 9 materials")
           (str "non-hazardous")).
  - simpl. auto.
  - exists (str "this shipment is "), (str " but contains class 9 materials").
    reflexivity.
Defined.

(** C10.  The keyword "dg" is searched as a bare substring: a text whose
    lower-cased form contains "dg" anywhere, and no negation phrase, is
    reported dangerous. *)
Theorem detect_dangerous_dg_substring (t : text) :
  Spec.appears (str "dg") (lower t) ->
  (forall n, In n negatives -> ~ Spec.appears n (lower t)) ->
  detect_dangerous (Some t) = true.
Proof.
  intros Hdg Hneg. unfold detect_dangerous.
  assert (Hne : nonempty t = true).
  { rewrite <- DangerFacts.lower_nonempty.
    eapply DangerFacts.appears_nonempty; [|exact Hdg]. discriminate. }
  rewrite Hne. simpl negb. cbv iota.
  destruct (existsb (fun n => contains n (lower t)) negatives) eqn:E.
  - apply DangerFacts.negation_found in E as (n & Hn & Ha).
    exfalso. exact (Hneg n Hn Ha).
  - apply DangerFacts.found_lit_iff in Hdg.
    assert (K : existsb (fun k => Re.found false k (lower t)) keywords = true).
    { apply existsb_exists. exists (Re.lit (str "dg")). split; [|exact Hdg].
      left. reflexivity. }
    now rewrite K.
Qed.

(** Unrelated words that merely contain the letters: "badge" and "edge". *)
Lemma detect_dangerous_dg_substring_witness :
  detect_dangerous (Some (str "Please attach the badge number")) = true /\
  detect_dangerous (Some (str "Deliver to the EDGE warehouse")) = true.
Proof.
  assert (Hno : forall t,
            existsb (fun n => contains n (lower t)) negatives = false ->
            forall n, In n negatives -> ~ Spec.appears n (lower t)).
  { intros t E n Hn Ha.
    assert (E' : existsb (fun n => contains n (lower t)) negatives = true).
    { apply DangerFacts.negation_found. eauto. }
    congruence. }
  split.
  - apply (detect_dangerous_dg_substring (str "Please attach the badge number")).
    + exists (str "please attach the ba"), (str "e number"). reflexivity.
    + apply Hno. reflexivity.
  - apply (detect_dangerous_dg_substring (str "Deliver to the EDGE warehouse")).
    + exists (str "deliver to the e"), (str "e warehouse"). reflexivity.
    + apply Hno. reflexivity.
Defined.

(** ** choose_product_line *)

Module ProductLineFacts.

Lemma starts_IN_iff code : starts_IN code = true <-> Spec.starts_with_IN code.
Proof.
  unfold starts_IN, Spec.starts_with_IN. destruct code as [c|].
  - rewrite andb_true_iff, startswith_iff. split.
    + intros [_ [post H]].
      change (str "IN" ++ post) with ("I"%char :: "N"%char :: post) in H.
      destruct c as [|a [|b rest]]; try discriminate H.
      change (upper (a :: b :: rest))
        with (Char.to_upper a :: Char.to_upper b :: upper rest) in H.
      injection H as Ha Hb _. exists a, b, rest. auto.
    + intros (a & b & rest & [= ->] & Ha & Hb). split; [reflexivity|].
      exists (upper rest).
      change (upper (a :: b :: rest))
        with (Char.to_upper a :: Char.to_upper b :: upper rest).
      now rewrite Ha, Hb.
  - split; [discriminate|]. intros (a & b & rest & [=] & _).
Qed.

End ProductLineFacts.

(** C5.  The destination is looked at first: a destination code starting
    with IN (in any case) gives the import line; otherwise an origin code
    starting with IN gives the export line; otherwise the result is null.
    The three examples of the specification are included. *)
Theorem choose_product_line_spec (origin dest : option text) :
  (Spec.starts_with_IN dest ->
   choose_product_line origin dest = Some (str "pl_sea_import_lcl")) /\
  (~ Spec.starts_with_IN dest -> Spec.starts_with_IN origin ->
   choose_product_line origin dest = Some (str "pl_sea_export_lcl")) /\
  (~ Spec.starts_with_IN dest -> ~ Spec.starts_with_IN origin ->
   choose_product_line origin dest = None) /\
  choose_product_line None (Some (str "INNSA")) = Some (str "pl_sea_import_lcl") /\
  choose_product_line (Some (str "INNSA")) (Some (str "USLAX")) =
    Some (str "pl_sea_export_lcl") /\
  choose_product_line (Some (str "USLAX")) (Some (str "USNYC")) = None /\
  choose_product_line (Some (str "INNSA")) (Some (str "inmaa")) =
    Some (str "pl_sea_import_lcl").
Proof.
  unfold choose_product_line.
  pose proof (ProductLineFacts.starts_IN_iff dest) as Hd.
  pose proof (ProductLineFacts.starts_IN_iff origin) as Ho.
  repeat split; try reflexivity.
  - intros H. apply Hd in H. now rewrite H.
  - intros Hn H. apply Ho in H. rewrite H.
    destruct (starts_IN dest); [|reflexivity]. exfalso. apply Hn, Hd. reflexivity.
  - intros Hn Hn'.
    destruct (starts_IN dest); [exfalso; apply Hn, Hd; reflexivity|].
    destruct (starts_IN origin); [exfalso; apply Hn', Ho; reflexivity|].
    reflexivity.
Qed.

(** ** build_port_index *)

Module IndexFacts.

Lemma setdefault_keeps (d : gmap text text) tok code k c :
  d !! k = Some c -> setdefault tok code d !! k = Some c.
Proof.
  intros H. unfold setdefault. destruct (d !! tok) eqn:E; [exact H|].
  rewrite lookup_insert_ne; [exact H|]. intros ->. congruence.
Qed.

Lemma add_token_keeps (d : gmap text text) tok code k c :
  d !! k = Some c -> add_token code d tok !! k = Some c.
Proof.
  intros H. unfold add_token. destruct (2 <=? length tok)%nat; [|exact H].
  now apply setdefault_keeps.
Qed.

Lemma add_tokens_keep toks : forall (d : gmap text text) code k c,
  d !! k = Some c -> fold_left (add_token code) toks d !! k = Some c.
Proof.
  induction toks as [|tok toks IH]; intros d code k c H; [exact H|].
  simpl. apply IH. now apply add_token_keeps.
Qed.

(** One entry leaves a mapped key alone unless the key is the entry's own
    full lower-cased name. *)
Lemma add_entry_keeps (idx : gmap text text * gmap text text) e k c :
  fst idx !! k = Some c ->
  (forall name, pe_name e = Some name -> lower name <> k) ->
  fst (add_entry idx e) !! k = Some c.
Proof.
  intros H Hne. unfold add_entry.
  destruct (negb (truthy_opt (pe_code e)) || negb (truthy_opt (pe_name e))); [exact H|].
  destruct (pe_code e) as [code|]; [|exact H].
  destruct (pe_name e) as [name|]; [|exact H].
  simpl. apply add_tokens_keep. rewrite lookup_insert_ne; [exact H|].
  now apply Hne.
Qed.

(** A well-formed entry maps its own full lower-cased name to its code,
    whatever was there before. *)
Lemma add_entry_sets (idx : gmap text text * gmap text text) e code name :
  pe_code e = Some code -> pe_name e = Some name ->
  nonempty code = true -> nonempty name = true ->
  fst (add_entry idx e) !! lower name = Some code.
Proof.
  intros Hc Hn Hc' Hn'. unfold add_entry. rewrite Hc, Hn. simpl.
  rewrite Hc', Hn'. simpl. apply add_tokens_keep. apply lookup_insert_eq.
Qed.

Lemma later_entries_keep later : forall (idx : gmap text text * gmap text text) k c,
  fst idx !! k = Some c ->
  (forall e name, In e later -> pe_name e = Some name -> lower name <> k) ->
  fst (fold_left add_entry later idx) !! k = Some c.
Proof.
  induction later as [|e later IH]; intros idx k c H Hne; [exact H|].
  simpl. apply IH.
  - apply add_entry_keeps; [exact H|]. intros name. apply Hne. now left.
  - intros e' name Hin. apply Hne. now right.
Qed.

End IndexFacts.




(** ** parse_weight_kg *)

Module WeightFacts.

Import Re ReFacts.

Lemma Matches_Seq_inv ic r1 r2 prev s post :
  Matches ic (Seq r1 r2) prev s post ->
  exists s1 s2,
    s = s1 ++ s2 /\ Matches ic r1 prev s1 (s2 ++ post) /\
    Matches ic r2 (last_of prev s1) s2 post.
Proof. intros H. inversion H; subst. eauto. Qed.

Lemma Matches_WordB_inv ic prev s post :
  Matches ic WordB prev s post -> s = [] /\ at_boundary prev post = true.
Proof. intros H. inversion H; subst. auto. Qed.

Lemma Matches_Chr_inv ic c prev s post :
  Matches ic (Chr c) prev s post -> exists d, s = [d] /\ Char.eq_flag ic c d = true.
Proof. intros H. inversion H; subst. eauto. Qed.

Lemma Matches_Rep_inv ic p n prev s post :
  Matches ic (Rep p n) prev s post -> (n <= length s)%nat /\ forallb p s = true.
Proof. intros H. inversion H; subst. auto. Qed.

Lemma Matches_alts_iff ic rs : forall r prev s post,
  Matches ic (alts r rs) prev s post <->
  exists r', In r' (r :: rs) /\ Matches ic r' prev s post.
Proof.
  induction rs as [|r0 rs IH]; intros r prev s post; simpl.
  - split.
    + intros H. exists r. auto.
    + intros (r' & [<-|[]] & H). exact H.
  - split.
    + intros H. inversion H; subst.
      * exists r. auto.
      * match goal with
        | H1 : Matches _ (alts _ _) _ _ _ |- _ => apply IH in H1 as (r' & Hin & HM)
        end.
        exists r'. simpl in Hin. auto.
    + intros (r' & [<-|Hin] & HM).
      * now apply M_AltL.
      * apply M_AltR, IH. exists r'. auto.
Qed.

Lemma Matches_lit_refl ic w prev post : Matches ic (lit w) prev w post.
Proof.
  apply IncotermFacts.Matches_lit. induction w as [|c w IH]; constructor; auto.
  unfold Char.eq_flag. destruct ic; apply CharFacts.eqb_refl.
Qed.

(** How a quantity pattern is matched: a number, blanks, a unit, and a
    word boundary after the unit. *)
Lemma quantity_intro ic u us prev num ws unit post :
  Matches ic number_re prev num ((ws ++ unit) ++ post) ->
  forallb Char.is_space ws = true ->
  In unit (u :: us) ->
  at_boundary (last_of (last_of (last_of prev num) ws) unit) post = true ->
  Matches ic (quantity_re u us) prev (num ++ ws ++ unit) post.
Proof.
  intros Hnum Hws Hunit Hb. unfold quantity_re.
  constructor; [exact Hnum|].
  constructor.
  - constructor; [lia|exact Hws].
  - rewrite <- (app_nil_r unit). constructor.
    + apply Matches_alts_iff. exists (lit unit). split.
      * change (lit u :: List.map lit us) with (List.map lit (u :: us)).
        now apply List.in_map.
      * apply Matches_lit_refl.
    + constructor. exact Hb.
Qed.

Lemma number_zero ic prev post : Matches ic number_re prev ["0"%char] post.
Proof.
  unfold number_re. constructor.
  change ["0"%char] with (["0"%char] ++ []). constructor.
  - constructor; [simpl; lia|reflexivity].
  - apply M_OptNone.
Qed.

(** The explicit-zero pattern can only match where one of the three unit
    patterns matches as well (they are tried first, without regard to
    case), so the explicit-zero branch is never the one that answers. *)
Lemma zero_re_covered t :
  Occurs false zero_re t ->
  Occurs true kg_re t \/ Occurs true tonne_re t \/ Occurs true lb_re t.
Proof.
  intros (pre & s & post & -> & HM). unfold zero_re in HM.
  apply Matches_Seq_inv in HM as (s0 & s1 & -> & HB0 & HM).
  apply Matches_WordB_inv in HB0 as [-> _]. rewrite last_of_nil in HM.
  apply Matches_Seq_inv in HM as (sz & s2 & -> & HZ & HM).
  apply Matches_Chr_inv in HZ as (d & -> & Hd).
  unfold Char.eq_flag in Hd. apply CharFacts.eqb_eq in Hd. subst d.
  apply Matches_Seq_inv in HM as (ws & s3 & -> & HW & HM).
  apply Matches_Rep_inv in HW as [_ HW].
  apply Matches_Seq_inv in HM as (unit & s4 & -> & HU & HB).
  apply Matches_WordB_inv in HB as [-> HB].
  apply Matches_alts_iff in HU as (r' & Hin & HU).
  assert (Hcase : forall u us, In unit (u :: us) ->
            Occurs true (quantity_re u us)
              (pre ++ ([] ++ ["0"%char] ++ ws ++ unit ++ []) ++ post)).
  { intros u us Hu. exists pre, (["0"%char] ++ ws ++ unit), post.
    rewrite app_nil_r. split; [reflexivity|].
    apply quantity_intro; auto. apply number_zero. }
  change (lit (str "kg") :: List.map lit
            [str "kgs"; str "lb"; str "lbs"; str "tonne"; str "t"; str "mt"])
    with (List.map lit
            [str "kg"; str "kgs"; str "lb"; str "lbs"; str "tonne"; str "t"; str "mt"])
    in Hin.
  apply List.in_map_iff in Hin as (w & <- & Hin).
  apply IncotermFacts.Matches_lit_exact in HU. subst unit.
  destruct Hin as [<-|[<-|[<-|[<-|[<-|[<-|[<-|[]]]]]]]].
  - left. apply Hcase. simpl. auto.
  - left. apply Hcase. simpl. auto.
  - right. right. apply Hcase. simpl. auto.
  - right. right. apply Hcase. simpl. auto.
  - right. left. apply Hcase. simpl. auto.
  - right. left. apply Hcase. simpl. auto.
  - right. left. apply Hcase. simpl. auto.
Qed.

(** The empty-text test changes nothing: on the empty text no pattern
    matches. *)
Lemma parse_weight_kg_cascade t :
  parse_weight_kg t =
  match group1 true kg_re t with
  | Some g => let* v := group_value g in Ok (Some v)
  | None =>
  match group1 true tonne_re t with
  | Some g => let* v := group_value g in Ok (Some (F64.mul v F64.f1000))
  | None =>
  match group1 true lb_re t with
  | Some g => let* v := group_value g in Ok (Some (F64.mul v F64.lb_in_kg))
  | None =>
      if found false zero_re t then Ok (Some (S754_zero false))
      else if found true placeholder_re t then Ok None
      else Ok None
  end end end.
Proof. destruct t; reflexivity. Qed.

End WeightFacts.

(** ** The number of a quantity: what [float] is applied to *)

Module NumeralFacts.

Import Re ReFacts F64.

Ltac by_digit c H :=
  destruct c as [[] [] [] [] [] [] [] []]; try discriminate H; reflexivity.

Lemma digit_not_c_space c : Char.is_digit c = true -> is_c_space c = false.
Proof. intros H. by_digit c H. Qed.

Lemma digit_not_minus c : Char.is_digit c = true -> Char.eqb c "-" = false.
Proof. intros H. by_digit c H. Qed.

Lemma digit_not_plus c : Char.is_digit c = true -> Char.eqb c "+" = false.
Proof. intros H. by_digit c H. Qed.

Lemma digit_not_i c : Char.is_digit c = true -> Char.eqb (Char.to_lower c) "i" = false.
Proof. intros H. by_digit c H. Qed.

Lemma digit_not_n c : Char.is_digit c = true -> Char.eqb (Char.to_lower c) "n" = false.
Proof. intros H. by_digit c H. Qed.

Lemma digit_not_comma c :
  Char.is_digit c = true -> (if Char.eqb c "," then "."%char else c) = c.
Proof. intros H. by_digit c H. Qed.

Lemma dot_comma_replaced c :
  is_dot_comma c = true -> (if Char.eqb c "," then "."%char else c) = "."%char.
Proof.
  unfold is_dot_comma. intros H. apply orb_true_iff in H as [H|H].
  - apply CharFacts.eqb_eq in H. subst. reflexivity.
  - apply CharFacts.eqb_eq in H. subst. reflexivity.
Qed.

Lemma replace_digits ds :
  forallb Char.is_digit ds = true -> replace_char "," "." ds = ds.
Proof.
  induction ds as [|d ds IH]; [reflexivity|]. simpl.
  intros H. apply andb_true_iff in H as [Hd Hds].
  now rewrite digit_not_comma, IH.
Qed.

Lemma lstrip_c_digit d s : Char.is_digit d = true -> lstrip_c (d :: s) = d :: s.
Proof. intros H. simpl. now rewrite digit_not_c_space. Qed.

Lemma rstrip_c_digit s d :
  Char.is_digit d = true -> rev (lstrip_c (rev (s ++ [d]))) = s ++ [d].
Proof.
  intros H. rewrite rev_app_distr. simpl rev at 2. simpl app.
  rewrite lstrip_c_digit by exact H.
  change (d :: rev s) with ([d] ++ rev s). rewrite rev_app_distr, rev_involutive.
  reflexivity.
Qed.

Lemma digits_tail_app ds rest : forall acc cnt,
  forallb Char.is_digit ds = true -> stops rest ->
  digits_tail acc cnt (ds ++ rest) =
  (fold_left (fun a c => (10 * a + digit_val c)%Z) ds acc,
   (cnt + length ds)%nat, rest).
Proof.
  induction ds as [|d ds IH]; intros acc cnt Hds Hrest; simpl.
  - rewrite Nat.add_0_r. destruct rest as [|c rest]; [reflexivity|].
    destruct Hrest as [H1 H2]. simpl. now rewrite H1, H2.
  - simpl in Hds. apply andb_true_iff in Hds as [Hd Hds].
    rewrite Hd, IH by assumption. f_equal. f_equal. lia.
Qed.

Lemma opt_digit_part_app ds rest :
  forallb Char.is_digit ds = true -> stops rest ->
  opt_digit_part (ds ++ rest) = (Spec.digits_value ds, length ds, rest).
Proof.
  intros Hds Hrest. unfold opt_digit_part, digit_part.
  destruct ds as [|d ds]; simpl.
  - destruct rest as [|c rest]; [reflexivity|].
    destruct Hrest as [H1 _]. now rewrite H1.
  - simpl in Hds. apply andb_true_iff in Hds as [Hd Hds].
    rewrite Hd, digits_tail_app by assumption. reflexivity.
Qed.


Lemma not_inf_nan d X w :
  Char.is_digit d = true ->
  text_eqb (lower (d :: X)) ("i"%char :: w) = false /\
  text_eqb (lower (d :: X)) ("n"%char :: w) = false.
Proof.
  intros H. simpl. now rewrite digit_not_i, digit_not_n.
Qed.


Lemma of_text_numeral ip fp :
  ip <> [] -> forallb Char.is_digit ip = true -> forallb Char.is_digit fp = true ->
  of_text (ip ++ match fp with [] => [] | _ => "."%char :: fp end) =
  Some (Spec.numeral_value ip fp).
Proof.
  intros Hip Hd Hf.
  set (tl := match fp with [] => [] | _ => "."%char :: fp end).
  assert (Hstop : stops tl) by (destruct fp; simpl; auto).
  assert (Hlast : exists s0 l, ip ++ tl = s0 ++ [l] /\ Char.is_digit l = true).
  { destruct fp as [|f fp].
    - subst tl. rewrite app_nil_r.
      destruct (exists_last Hip) as (s0 & l & ->). exists s0, l. split; [reflexivity|].
      rewrite forallb_app in Hd. apply andb_true_iff in Hd as [_ Hd].
      simpl in Hd. now rewrite andb_true_r in Hd.
    - assert (Hne : f :: fp <> []) by discriminate.
      destruct (exists_last Hne) as (s0 & l & E). subst tl. rewrite E in *.
      exists (ip ++ "."%char :: s0), l. rewrite <- app_assoc. split; [reflexivity|].
      rewrite forallb_app in Hf. apply andb_true_iff in Hf as [_ Hf].
      simpl in Hf. now rewrite andb_true_r in Hf. }
  destruct ip as [|d ip]; [contradiction|].
  pose proof Hd as Hd'. simpl in Hd'. apply andb_true_iff in Hd' as [Hd0 _].
  unfold of_text.
  change ((d :: ip) ++ tl) with (d :: (ip ++ tl)) in *.
  rewrite (lstrip_c_digit d (ip ++ tl) Hd0).
  destruct Hlast as (s0 & l & El & Hl). rewrite El, (rstrip_c_digit s0 l Hl), <- El.
  assert (Hsign : sign_part (d :: ip ++ tl) = (false, d :: ip ++ tl)).
  { unfold sign_part. now rewrite digit_not_minus, digit_not_plus. }
  rewrite Hsign. cbv beta iota.
  change (str "inf") with ("i"%char :: str "nf").
  change (str "infinity") with ("i"%char :: str "nfinity").
  change (str "nan") with ("n"%char :: str "an").
  rewrite (proj1 (not_inf_nan d (ip ++ tl) _ Hd0)).
  rewrite (proj1 (not_inf_nan d (ip ++ tl) _ Hd0)).
  rewrite (proj2 (not_inf_nan d (ip ++ tl) _ Hd0)).
  cbv beta iota. simpl orb. cbv iota.
  change (d :: ip ++ tl) with ((d :: ip) ++ tl).
  rewrite (opt_digit_part_app (d :: ip) tl Hd Hstop). cbv beta iota.
  destruct fp as [|f fp].
  - subst tl. cbv beta iota. simpl exponent_part. cbv beta iota.
    replace (length (d :: ip) + 0 =? 0)%nat with false by reflexivity.
    unfold Spec.numeral_value, scaled. simpl length.
    rewrite Z.mul_1_r. reflexivity.
  - subst tl. cbv beta iota.
    replace (Char.eqb "." ".") with true by reflexivity. cbv iota.
    rewrite <- (app_nil_r (f :: fp)) at 1.
    rewrite (opt_digit_part_app (f :: fp) [] Hf I). cbv beta iota.
    replace (length (d :: ip) + length (f :: fp) =? 0)%nat with false by reflexivity.
    simpl exponent_part. cbv beta iota.
    unfold Spec.numeral_value, scaled.
    rewrite (Z.max_l 0 (0 - Z.of_nat (length (f :: fp)))) by lia.
    rewrite (Z.max_r 0 (- (0 - Z.of_nat (length (f :: fp))))) by lia.
    rewrite Z.mul_1_r.
    replace (- (0 - Z.of_nat (length (f :: fp))))%Z with (Z.of_nat (length (f :: fp)))
      by lia.
    reflexivity.
Qed.


Lemma group_match_lit ic w g : group_match ic (lit w) g -> False.
Proof. induction w as [|c w IH]; simpl; [auto|]. intros [[]|H]. auto. Qed.

Lemma group_match_alts_lit ic ws : forall w g,
  group_match ic (alts (lit w) (List.map lit ws)) g -> False.
Proof.
  induction ws as [|w' ws IH]; intros w g; simpl.
  - apply group_match_lit.
  - intros [H|H]; [eapply group_match_lit, H|eapply IH, H].
Qed.

(** The group of a quantity pattern is a decimal numeral. *)
Lemma quantity_group_numeral ic u us g :
  group_match ic (quantity_re u us) g -> exists ip fp, Spec.numeral ip fp g.
Proof.
  unfold quantity_re. simpl group_match.
  intros [(prev & post & HM)|[[]|[H|[]]]]; [|eapply group_match_alts_lit in H; destruct H].
  apply WeightFacts.Matches_Seq_inv in HM as (ip & s2 & -> & Hip & Hopt).
  apply WeightFacts.Matches_Rep_inv in Hip as [Hlen Hip].
  assert (Hne : ip <> []) by (intros ->; simpl in Hlen; lia).
  inversion Hopt as [| | | | | |r p0 s po HS|r p0 po| | |]; subst.
  - apply WeightFacts.Matches_Seq_inv in HS as (sc & fp & -> & Hc & Hfp).
    inversion Hc; subst.
    apply WeightFacts.Matches_Rep_inv in Hfp as [Hlen' Hfp].
    exists ip, fp. repeat split; auto. right.
    split; [intros ->; simpl in Hlen'; lia|]. eauto.
  - exists ip, []. rewrite app_nil_r. repeat split; auto.
Qed.

(** [float] never fails on such a numeral, and gives its decimal value. *)
Lemma group_value_numeral ip fp g :
  Spec.numeral ip fp g -> group_value g = Ok (Spec.numeral_value ip fp).
Proof.
  intros (Hne & Hip & Hfp & [[-> ->]|[Hfne (c & Hc & ->)]]); unfold group_value.
  - rewrite replace_digits by exact Hip.
    pose proof (of_text_numeral ip [] Hne Hip Hfp) as H.
    rewrite app_nil_r in H. now rewrite H.
  - unfold replace_char. rewrite List.map_app. simpl List.map.
    fold (replace_char "," "." ip). fold (replace_char "," "." fp).
    rewrite dot_comma_replaced, !replace_digits by assumption.
    pose proof (of_text_numeral ip fp Hne Hip Hfp) as H.
    destruct fp; [contradiction|]. now rewrite H.
Qed.

End NumeralFacts.

Import Re ReFacts.

(** C2.  The units are tried in the order kilograms, metric tons, pounds,
    and the first pattern that occurs in the text decides: the number in
    front of the unit (a decimal numeral, comma or dot) is taken as it is,
    times 1000, or times 0.453592.  When none occurs, the explicit-zero
    pattern gives 0.0 and anything else, a placeholder included, gives
    null.  (The last conjunct of that case records that the explicit-zero
    pattern never occurs without one of the unit patterns, so that the
    answer is then in fact always null.)  The examples are those of the
    specification. *)
Theorem parse_weight_kg_spec (t : text) :
  (Occurs true kg_re t ->
   exists g ip fp,
     group1 true kg_re t = Some g /\ Spec.numeral ip fp g /\
     parse_weight_kg t = Ok (Some (Spec.numeral_value ip fp))) /\
  (~ Occurs true kg_re t -> Occurs true tonne_re t ->
   exists g ip fp,
     group1 true tonne_re t = Some g /\ Spec.numeral ip fp g /\
     parse_weight_kg t =
       Ok (Some (F64.mul (Spec.numeral_value ip fp) F64.f1000))) /\
  (~ Occurs true kg_re t -> ~ Occurs true tonne_re t -> Occurs true lb_re t ->
   exists g ip fp,
     group1 true lb_re t = Some g /\ Spec.numeral ip fp g /\
     parse_weight_kg t =
       Ok (Some (F64.mul (Spec.numeral_value ip fp) F64.lb_in_kg))) /\
  (~ Occurs true kg_re t -> ~ Occurs true tonne_re t -> ~ Occurs true lb_re t ->
   parse_weight_kg t =
     (if found false zero_re t then Ok (Some (S754_zero false)) else Ok None) /\
   (Occurs true placeholder_re t -> ~ Occurs false zero_re t ->
    parse_weight_kg t = Ok None) /\
   ~ Occurs false zero_re t) /\
  parse_weight_kg (str "2 t") = Ok (Some (F64.dec 2000 0)) /\
  parse_weight_kg (str "10 lbs") = Ok (Some (F64.dec 453592 5)) /\
  F64.round2 (F64.dec 453592 5) = F64.dec 454 2 /\
  parse_weight_kg (str "0 kg") = Ok (Some (S754_zero false)) /\
  parse_weight_kg (str "TBD") = Ok None /\
  parse_weight_kg (str "5 t, of which 300 kg on pallets") = Ok (Some (F64.dec 300 0)).
Proof.
  pose proof (WeightFacts.parse_weight_kg_cascade t) as Hunfold.
  pose proof (group1_iff true kg_re t eq_refl) as Hkg.
  pose proof (group1_iff true tonne_re t eq_refl) as Hto.
  pose proof (group1_iff true lb_re t eq_refl) as Hlb.
  pose proof (group1_none_iff true kg_re t eq_refl) as Hkg'.
  pose proof (group1_none_iff true tonne_re t eq_refl) as Hto'.
  pose proof (group1_none_iff true lb_re t eq_refl) as Hlb'.
  split; [|split; [|split; [|split]]].
  - intros H. apply Hkg in H as [g Hg].
    destruct (NumeralFacts.quantity_group_numeral _ _ _ _ (group1_sound _ _ _ _ Hg))
      as (ip & fp & Hnum).
    exists g, ip, fp. split; [exact Hg|]. split; [exact Hnum|].
    now rewrite Hunfold, Hg, (NumeralFacts.group_value_numeral ip fp g Hnum).
  - intros Hn H. apply Hkg' in Hn. apply Hto in H as [g Hg].
    destruct (NumeralFacts.quantity_group_numeral _ _ _ _ (group1_sound _ _ _ _ Hg))
      as (ip & fp & Hnum).
    exists g, ip, fp. split; [exact Hg|]. split; [exact Hnum|].
    now rewrite Hunfold, Hn, Hg, (NumeralFacts.group_value_numeral ip fp g Hnum).
  - intros Hn1 Hn2 H. apply Hkg' in Hn1. apply Hto' in Hn2.
    apply Hlb in H as [g Hg].
    destruct (NumeralFacts.quantity_group_numeral _ _ _ _ (group1_sound _ _ _ _ Hg))
      as (ip & fp & Hnum).
    exists g, ip, fp. split; [exact Hg|]. split; [exact Hnum|].
    now rewrite Hunfold, Hn1, Hn2, Hg, (NumeralFacts.group_value_numeral ip fp g Hnum).
  - intros Hn1 Hn2 Hn3.
    assert (Hz : ~ Occurs false zero_re t).
    { intros Hz. apply WeightFacts.zero_re_covered in Hz as [H|[H|H]]; auto. }
    apply Hkg' in Hn1. apply Hto' in Hn2. apply Hlb' in Hn3.
    rewrite Hunfold, Hn1, Hn2, Hn3. split; [|split; [|exact Hz]].
    + destruct (found false zero_re t); [reflexivity|].
      now destruct (found true placeholder_re t).
    + intros _ Hz'. destruct (found false zero_re t) eqn:E.
      * exfalso. apply Hz'. now apply found_iff.
      * now destruct (found true placeholder_re t).
  - repeat split; vm_compute; reflexivity.
Qed.

(** The no-break space and the next-line control are whitespace to
    [\s]: they may stand between the number and its unit, and the
    kilograms are then found before the tons. *)
Lemma parse_weight_kg_no_break_space :
  parse_weight_kg (str "5" ++ ["160"%char] ++ str "kg") = Ok (Some (F64.dec 5 0)) /\
  parse_weight_kg (str "5" ++ ["160"%char] ++ str "kg, 3 t") =
    Ok (Some (F64.dec 5 0)) /\
  parse_weight_kg (str "5" ++ ["133"%char] ++ str "kg") = Ok (Some (F64.dec 5 0)).
Proof. split; [|split]; vm_compute; reflexivity. Qed.

(** The two numeric parsers never raise. *)
Lemma parse_weight_kg_total t : exists w, parse_weight_kg t = Ok w.
Proof.
  rewrite WeightFacts.parse_weight_kg_cascade.
  destruct (group1 true kg_re t) as [g|] eqn:E1.
  { destruct (NumeralFacts.quantity_group_numeral _ _ _ _ (group1_sound _ _ _ _ E1))
      as (ip & fp & Hnum).
    rewrite (NumeralFacts.group_value_numeral ip fp g Hnum). simpl. eauto. }
  destruct (group1 true tonne_re t) as [g|] eqn:E2.
  { destruct (NumeralFacts.quantity_group_numeral _ _ _ _ (group1_sound _ _ _ _ E2))
      as (ip & fp & Hnum).
    rewrite (NumeralFacts.group_value_numeral ip fp g Hnum). simpl. eauto. }
  destruct (group1 true lb_re t) as [g|] eqn:E3.
  { destruct (NumeralFacts.quantity_group_numeral _ _ _ _ (group1_sound _ _ _ _ E3))
      as (ip & fp & Hnum).
    rewrite (NumeralFacts.group_value_numeral ip fp g Hnum). simpl. eauto. }
  destruct (found false zero_re t); [eauto|].
  destruct (found true placeholder_re t); eauto.
Qed.

Lemma parse_cbm_total t : exists v, parse_cbm t = Ok v.
Proof.
  unfold parse_cbm. destruct (negb (nonempty t)); [eauto|].
  destruct (group1 true cbm_re t) as [g|] eqn:E; [|eauto].
  destruct (NumeralFacts.quantity_group_numeral _ _ _ _ (group1_sound _ _ _ _ E))
    as (ip & fp & Hnum).
  rewrite (NumeralFacts.group_value_numeral ip fp g Hnum). simpl. eauto.
Qed.

(** ** round_weight *)

Import Schemas.

(** C9.  [round_weight(12.345)] is 12.35, [None] stays null and "abc" is
    coerced to null; more generally a value [float] refuses is coerced to
    null and a value it accepts is rounded to two decimals. *)
Theorem round_weight_spec :
  round_weight (PFloat (F64.dec 12345 3)) = Some (F64.dec 1235 2) /\
  round_weight PNone = None /\
  round_weight (PStr (str "abc")) = None /\
  (forall v, py_float v = Raised -> round_weight v = None) /\
  (forall v x, v <> PNone -> py_float v = Ok x -> round_weight v = Some (F64.round2 x)).
Proof.
  split; [vm_compute; reflexivity|].
  split; [reflexivity|].
  split; [vm_compute; reflexivity|].
  split.
  - intros v H. unfold round_weight. rewrite H. now destruct v.
  - intros v x Hv H. unfold round_weight. rewrite H. destruct v; congruence.
Qed.

(** ** rule_extract *)

Import Extract.

Module ExtractFacts.

Section Rule.

Variable find_ports_in_text : text -> gmap text text -> list text.

(** The weight of the raw record, as a function of what the two parses
    give: the subject's value is taken whenever the body's is null or
    falsy. *)
Lemma rule_extract_weight (e : email) (idx c2n : gmap text text) wb ws cb cs :
  parse_weight_kg (e_body e) = Ok wb ->
  parse_weight_kg (e_subject e) = Ok ws ->
  parse_cbm (e_body e) = Ok cb ->
  parse_cbm (e_subject e) = Ok cs ->
  res_map raw_cargo_weight_kg (rule_extract find_ports_in_text e idx c2n) =
    Ok (Some (opt_float_val (or_float wb ws))) /\
  res_map raw_cargo_cbm (rule_extract find_ports_in_text e idx c2n) =
    Ok (Some (opt_float_val (or_float cb cs))).
Proof.
  intros Hwb Hws Hcb Hcs. unfold rule_extract, res_map.
  rewrite Hwb, Hws, Hcb, Hcs. simpl res_bind.
  destruct cb as [xc|], wb as [xw|]; simpl;
    try destruct (F64.truthy xc) eqn:Ec; try destruct (F64.truthy xw) eqn:Ew;
    simpl; rewrite ?Ec, ?Ew; auto.
Qed.

(** The rule-based extractor never raises. *)
Lemma rule_extract_total (e : email) (idx c2n : gmap text text) :
  exists raw, rule_extract find_ports_in_text e idx c2n = Ok raw.
Proof.
  unfold rule_extract.
  destruct (parse_cbm_total (e_body e)) as [cb ->].
  destruct (parse_cbm_total (e_subject e)) as [cs ->].
  destruct (parse_weight_kg_total (e_body e)) as [wb ->].
  destruct (parse_weight_kg_total (e_subject e)) as [ws ->].
  simpl res_bind.
  destruct cb as [xc|], wb as [xw|]; simpl;
    try destruct (F64.truthy xc); try destruct (F64.truthy xw); simpl; eauto.
Qed.

End Rule.

End ExtractFacts.

(** C4 on the code.  For every email the weight (and likewise the
    volume) of the raw record is [body or subject] of the two parses, and
    an explicit zero is falsy: it does not survive the [or].  With "0 kg"
    in the body the weight is the subject's 5.0, or null when the subject
    has none; a non-zero body value is kept. *)
Theorem rule_extract_zero_weight_lost
    (find_ports_in_text : text -> gmap text text -> list text)
    (idx c2n : gmap text text) (e : email) :
  (exists wb ws cb cs,
     parse_weight_kg (e_body e) = Ok wb /\ parse_weight_kg (e_subject e) = Ok ws /\
     parse_cbm (e_body e) = Ok cb /\ parse_cbm (e_subject e) = Ok cs /\
     res_map raw_cargo_weight_kg (rule_extract find_ports_in_text e idx c2n) =
       Ok (Some (opt_float_val (or_float wb ws))) /\
     res_map raw_cargo_cbm (rule_extract find_ports_in_text e idx c2n) =
       Ok (Some (opt_float_val (or_float cb cs)))) /\
  (forall ws, or_float (Some (S754_zero false)) ws = ws) /\
  parse_weight_kg (str "Weight: 0 kg") = Ok (Some (S754_zero false)) /\
  res_map raw_cargo_weight_kg
    (rule_extract find_ports_in_text
       (Email (str "EMAIL_001") (str "Re: 5 kg") (str "Weight: 0 kg")) idx c2n) =
    Ok (Some (PFloat (F64.dec 5 0))) /\
  res_map raw_cargo_weight_kg
    (rule_extract find_ports_in_text
       (Email (str "EMAIL_002") (str "Re: quote") (str "Weight: 0 kg")) idx c2n) =
    Ok (Some PNone) /\
  res_map raw_cargo_cbm
    (rule_extract find_ports_in_text
       (Email (str "EMAIL_003") (str "Re: 2 cbm") (str "Volume: 0 cbm")) idx c2n) =
    Ok (Some (PFloat (F64.dec 2 0))) /\
  res_map raw_cargo_weight_kg
    (rule_extract find_ports_in_text
       (Email (str "EMAIL_004") (str "Re: 5 kg") (str "Weight: 7 kg")) idx c2n) =
    Ok (Some (PFloat (F64.dec 7 0))).
Proof.
  split.
  - destruct (parse_weight_kg_total (e_body e)) as [wb Hwb].
    destruct (parse_weight_kg_total (e_subject e)) as [ws Hws].
    destruct (parse_cbm_total (e_body e)) as [cb Hcb].
    destruct (parse_cbm_total (e_subject e)) as [cs Hcs].
    exists wb, ws, cb, cs. repeat (split; [assumption|]).
    now apply ExtractFacts.rule_extract_weight.
  - split; [reflexivity|].
    repeat (split; [vm_compute; reflexivity|]). vm_compute. reflexivity.
Qed.

(** ** main *)

Section MainFacts.

Variable find_ports_in_text : text -> gmap text text -> list text.
Variable call_llm : text -> res (option text).
Variable json_loads : text -> res raw_record.
Variable validate_str : pyval -> res text.
Variable validate_float : pyval -> res F64.float.
Variable validate_bool : pyval -> res bool.
Variable py_str : pyval -> text.

(** What is assumed of pydantic: a [str] field accepts a string and a
    [bool] field accepts a boolean, unchanged. *)
Hypothesis validate_str_str : forall s, validate_str (PStr s) = Ok s.
Hypothesis validate_bool_bool : forall b, validate_bool (PBool b) = Ok b.

Local Abbreviation validate' := (validate validate_str validate_float validate_bool py_str).
Local Abbreviation rule_extract' := (rule_extract find_ports_in_text).
Local Abbreviation try_extract' :=
  (try_extract find_ports_in_text call_llm json_loads
     validate_str validate_float validate_bool py_str).
Local Abbreviation process' :=
  (process find_ports_in_text call_llm json_loads
     validate_str validate_float validate_bool py_str).
Local Abbreviation loop' :=
  (loop find_ports_in_text call_llm json_loads
     validate_str validate_float validate_bool py_str).
Local Abbreviation main' :=
  (main find_ports_in_text call_llm json_loads
     validate_str validate_float validate_bool py_str).

Ltac step_bind H :=
  match type of H with
  | res_bind ?m _ = Ok _ =>
      let E := fresh "E" in destruct m eqn:E; simpl in H; [|discriminate H]
  end.

Lemma validate_null i : validate' (null_raw (PStr i)) = Ok (null_result i).
Proof.
  unfold validate, null_raw. simpl.
  rewrite validate_str_str. simpl. rewrite validate_bool_bool. reflexivity.
Qed.

(** The schema refuses a record without an id, the substitute too. *)
Lemma validate_no_id raw : raw_id raw = Some PNone -> validate' raw = Raised.
Proof. intros H. unfold validate. now rewrite H. Qed.

Lemma validate_id raw r i :
  validate' raw = Ok r -> raw_id raw = Some (PStr i) -> id r = i.
Proof.
  intros H Hi. unfold validate in H. rewrite Hi, validate_str_str in H.
  simpl in H. repeat step_bind H. injection H as <-. reflexivity.
Qed.

Lemma rule_extract_id e idx c2n raw :
  rule_extract' e idx c2n = Ok raw -> raw_id raw = Some (e_id e).
Proof.
  unfold rule_extract. intros H. repeat step_bind H. injection H as <-. reflexivity.
Qed.

Lemma process_total mock idx c2n e i :
  e_id e = PStr i -> exists r, process' mock idx c2n e = Ok r.
Proof.
  intros Hi. unfold process.
  destruct (try_extract' mock e idx c2n) as [r|]; [eauto|].
  rewrite Hi, validate_null. eauto.
Qed.

Lemma process_raised mock idx c2n e r i :
  e_id e = PStr i ->
  process' mock idx c2n e = Ok r ->
  try_extract' mock e idx c2n = Raised -> r = null_result i.
Proof.
  unfold process. intros Hi H E. rewrite E, Hi, validate_null in H. congruence.
Qed.

(** The record of the rule-based extractor carries the id of its email. *)
Lemma rules_id e idx c2n r i :
  e_id e = PStr i ->
  (let* raw := rule_extract' e idx c2n in validate' raw) = Ok r -> id r = i.
Proof.
  intros Hi H. step_bind H. eapply validate_id; [exact H|].
  rewrite <- Hi. eapply rule_extract_id; eassumption.
Qed.

(** Where the id of an output record comes from. *)
Lemma process_id mock idx c2n e r i :
  e_id e = PStr i ->
  process' mock idx c2n e = Ok r ->
  id r = i \/
  (mock = false /\
   exists resp g raw,
     call_llm (prompt e) = Ok (Some resp) /\ nonempty resp = true /\
     Re.group1 false json_re resp = Some g /\
     json_loads g = Ok raw /\ validate' raw = Ok r).
Proof.
  intros Hi. unfold process.
  destruct (try_extract' mock e idx c2n) as [r'|] eqn:E.
  - intros [= ->]. unfold try_extract in E.
    destruct mock.
    + left. eapply rules_id; eassumption.
    + destruct (call_llm (prompt e)) as [[resp|]|] eqn:Ecall;
        cbn [res_bind] in E; [| |discriminate E].
      * destruct (nonempty resp) eqn:Ene.
        -- destruct (Re.group1 false json_re resp) as [g|] eqn:Eg.
           ++ right. split; [reflexivity|].
              destruct (json_loads g) as [raw|] eqn:Ej; cbn [res_bind] in E;
                [|discriminate E].
              exists resp, g, raw. auto.
           ++ left. eapply rules_id; eassumption.
        -- left. eapply rules_id; eassumption.
      * left. eapply rules_id; eassumption.
  - rewrite Hi, validate_null. intros [= <-]. left. reflexivity.
Qed.

Lemma process_id_mock idx c2n e r i :
  e_id e = PStr i -> process' true idx c2n e = Ok r -> id r = i.
Proof.
  intros Hi H. apply (process_id _ _ _ _ _ i Hi) in H as [H|[H _]];
    [exact H|discriminate H].
Qed.

(** In the rule-based mode an email without an id makes the handler
    itself raise. *)
Lemma process_no_id idx c2n e :
  e_id e = PNone -> process' true idx c2n e = Raised.
Proof.
  intros Hi. unfold process, try_extract.
  destruct (ExtractFacts.rule_extract_total find_ports_in_text e idx c2n) as [raw Hraw].
  rewrite Hraw. cbn [res_bind].
  rewrite (validate_no_id raw) by (rewrite <- Hi; eapply rule_extract_id, Hraw).
  apply validate_no_id. unfold null_raw. cbn [raw_id]. now rewrite Hi.
Qed.

Lemma loop_spec mock idx c2n emails :
  Forall (fun e => exists i, e_id e = PStr i) emails ->
  forall outputs,
  exists rs,
    loop' mock idx c2n emails outputs = Ok (outputs ++ rs) /\
    Forall2 (fun e r => process' mock idx c2n e = Ok r) emails rs.
Proof.
  induction 1 as [|e emails [i Hi] _ IH]; intros outputs; simpl.
  - exists []. rewrite app_nil_r. split; [reflexivity|constructor].
  - destruct (process_total mock idx c2n e i Hi) as [r Hr]. rewrite Hr. simpl.
    destruct (IH (outputs ++ [r])) as (rs & Hloop & Hall).
    exists (r :: rs). rewrite Hloop, <- app_assoc. split; [reflexivity|].
    now constructor.
Qed.

(** An exception that leaves the handler ends the loop. *)
Lemma loop_raised mock idx c2n e emails :
  In e emails -> process' mock idx c2n e = Raised ->
  forall outputs, loop' mock idx c2n emails outputs = Raised.
Proof.
  induction emails as [|e' emails IH]; intros Hin Hr outputs; [destruct Hin|].
  cbn [loop]. destruct Hin as [->|Hin].
  - now rewrite Hr.
  - destruct (process' mock idx c2n e'); cbn [res_bind]; [now apply IH|reflexivity].
Qed.

(** C6 on the code.  For a batch of emails whose ids are strings, as the
    input schema has them, the run completes with one output record per
    email, in order; each record is what the loop body makes of its own
    email alone; an exception in the body of the [try] gives the all-null
    record with the email's id; and the id of a record is the id of its
    email unless the LLM answered the prompt of this very email with a
    JSON block, which is then validated as it stands, id included.  The
    ids of the output are thus not always those of the input.  And an
    email without an id, which the type of the input does not exclude,
    ends the run in the rule-based mode: the handler raises on it. *)
Theorem main_batch_per_record (mock : bool) (ports_ref : list port_entry)
    (emails : list email) :
  (Forall (fun e => exists i, e_id e = PStr i) emails ->
   exists outputs,
     main' mock ports_ref emails = Ok outputs /\
     length outputs = length emails /\
     Forall2
       (fun e r =>
          process' mock (fst (build_port_index ports_ref))
            (snd (build_port_index ports_ref)) e = Ok r /\
          (try_extract' mock e (fst (build_port_index ports_ref))
             (snd (build_port_index ports_ref)) = Raised ->
           exists i, e_id e = PStr i /\ r = null_result i) /\
          (mock = true -> e_id e = PStr (id r)) /\
          (e_id e = PStr (id r) \/
           (mock = false /\
            exists resp g raw,
              call_llm (prompt e) = Ok (Some resp) /\ nonempty resp = true /\
              Re.group1 false json_re resp = Some g /\
              json_loads g = Ok raw /\ validate' raw = Ok r)))
       emails outputs) /\
  (forall e, In e emails -> e_id e = PNone ->
     main' true ports_ref emails = Raised).
Proof.
  unfold main. destruct (build_port_index ports_ref) as [idx c2n]. simpl.
  split.
  - intros Hids.
    destruct (loop_spec mock idx c2n emails Hids []) as (rs & Hloop & Hall).
    exists rs. split; [exact Hloop|]. split.
    + symmetry. eapply Forall2_length, Hall.
    + clear Hloop. induction Hall as [|e r es rs' Hr _ IH]; [constructor|].
      inversion Hids as [|? ? [i Hi] Hids']; subst.
      constructor; [|exact (IH Hids')].
      split; [exact Hr|]. split; [|split].
      * intros E. exists i. split; [exact Hi|].
        eapply process_raised; eassumption.
      * intros ->. rewrite Hi. f_equal. symmetry.
        eapply process_id_mock; eassumption.
      * destruct (process_id mock idx c2n e r i Hi Hr) as [H|H].
        -- left. now rewrite Hi, H.
        -- now right.
  - intros e Hin Hi. apply (loop_raised true idx c2n e emails Hin).
    now apply process_no_id.
Qed.

End MainFacts.

(** One email out of three makes the LLM call raise: three records come
    out, in order, and the failing one is the all-null record. *)
Lemma main_batch_per_record_witness :
  (exists outputs,
     main Env.no_ports Env.flaky_llm Env.no_json
       Env.strict_str Env.strict_float Env.strict_bool Env.plain_str false []
       [Email (str "EMAIL_001") (str "Quote") (str "10 kg, CIF");
        Email (str "EMAIL_002") (str "boom") (str "20 kg, CIF");
        Email (str "EMAIL_003") (str "Quote") (str "30 kg, dangerous")] = Ok outputs /\
     length outputs = 3%nat /\
     List.map id outputs = [str "EMAIL_001"; str "EMAIL_002"; str "EMAIL_003"]) /\
  main Env.no_ports Env.flaky_llm Env.no_json
    Env.strict_str Env.strict_float Env.strict_bool Env.plain_str false []
    [Email (str "EMAIL_001") (str "Quote") (str "10 kg, CIF");
     Email (str "EMAIL_002") (str "boom") (str "20 kg, CIF");
     Email (str "EMAIL_003") (str "Quote") (str "30 kg, dangerous")] =
  Ok [Result (str "EMAIL_001") None None None None None (Some (str "CIF"))
        (Some (F64.dec 10 0)) None false;
      Result (str "EMAIL_002") None None None None None None None None false;
      Result (str "EMAIL_003") None None None None None (Some (str "FOB"))
        (Some (F64.dec 30 0)) None true].
Proof.
  split; [|vm_compute; reflexivity].
  destruct (proj1 (main_batch_per_record Env.no_ports Env.flaky_llm Env.no_json
              Env.strict_str Env.strict_float Env.strict_bool Env.plain_str
              (fun s => eq_refl) (fun b => eq_refl) false []
              [Email (str "EMAIL_001") (str "Quote") (str "10 kg, CIF");
               Email (str "EMAIL_002") (str "boom") (str "20 kg, CIF");
               Email (str "EMAIL_003") (str "Quote") (str "30 kg, dangerous")]))
    as (outputs & Hmain & Hlen & Hall).
  { repeat constructor; eexists; reflexivity. }
  exists outputs. split; [exact Hmain|]. split; [exact Hlen|].
  inversion Hall as [|e1 r1 es1 rs1 (_ & _ & _ & [H1|[_ (resp & g & raw & _ & _ & _ & Hj & _)]]) Hall1];
    subst; [|discriminate Hj].
  inversion Hall1 as [|e2 r2 es2 rs2 (_ & _ & _ & [H2|[_ (resp & g & raw & _ & _ & _ & Hj & _)]]) Hall2];
    subst; [|discriminate Hj].
  inversion Hall2 as [|e3 r3 es3 rs3 (_ & _ & _ & [H3|[_ (resp & g & raw & _ & _ & _ & Hj & _)]]) Hall3];
    subst; [|discriminate Hj].
  inversion Hall3; subst. simpl.
  injection H1 as <-. injection H2 as <-. injection H3 as <-. reflexivity.
Defined.

(** The two inputs on which the code leaves the claim.  When the LLM
    answers with a JSON object, the record carries the id written by the
    LLM, not the id of the email; and in the rule-based mode an email
    without an id ends the run, the emails before and after it
    notwithstanding. *)
Lemma main_llm_record_keeps_llm_id :
  main Env.no_ports Env.fixed_llm Env.fixed_json
    Env.strict_str Env.strict_float Env.strict_bool Env.plain_str false []
    [Email (str "EMAIL_001") (str "Quote") (str "Please quote 10 kg")] =
  Ok [Result (str "EMAIL_999") None None None None None (Some (str "FOB"))
        (Some (F64.dec 10 0)) None false] /\
  main Env.no_ports Env.fixed_llm Env.fixed_json
    Env.strict_str Env.strict_float Env.strict_bool Env.plain_str true []
    [Email (str "EMAIL_001") (str "Quote") (str "10 kg");
     MkEmail PNone (str "Quote") (str "20 kg");
     Email (str "EMAIL_003") (str "Quote") (str "30 kg")] = Raised.
Proof. split; vm_compute; reflexivity. Qed.

(** ** Binary64: rounding to two decimals is idempotent *)

Module FloatFacts.

Import F64.
Local Open Scope Z_scope.

Lemma rne_div_bounds n d :
  0 < d -> - d <= 2 * (n - d * rne_div n d) <= d.
Proof.
  intros Hd. unfold rne_div.
  pose proof (Z.div_mod n d ltac:(lia)) as Hdm.
  pose proof (Z.mod_pos_bound n d Hd) as Hm.
  set (q := n / d) in *. set (r := n mod d) in *. clearbody q r.
  destruct (Z.compare_spec (2 * r) d) as [E|E|E].
  - destruct (Z.even q); lia.
  - lia.
  - lia.
Qed.

Lemma rne_div_unique n d q :
  0 < d -> - d < 2 * (n - d * q) < d -> rne_div n d = q.
Proof.
  intros Hd Hq. pose proof (rne_div_bounds n d Hd) as Hr.
  assert (H : - (2 * d) < 2 * d * (rne_div n d - q) < 2 * d) by lia.
  nia.
Qed.

Lemma rne_div_exact q d : 0 < d -> rne_div (q * d) d = q.
Proof. intros Hd. apply rne_div_unique; lia. Qed.

Lemma rne_div_le n d k : 0 < d -> n <= k * d -> rne_div n d <= k.
Proof.
  intros Hd Hn. unfold rne_div.
  pose proof (Z.div_mod n d ltac:(lia)) as Hdm.
  pose proof (Z.mod_pos_bound n d Hd) as Hm.
  assert (Hq : n / d <= k) by (apply Z.div_le_upper_bound; lia).
  set (q := n / d) in *. set (r := n mod d) in *. clearbody q r.
  assert (Hk : q = k -> r = 0) by nia.
  destruct (Z.compare_spec (2 * r) d) as [E|E|E].
  - destruct (Z.even q); lia.
  - lia.
  - lia.
Qed.

Lemma rne_div_ge n d k : 0 < d -> k * d <= n -> k <= rne_div n d.
Proof.
  intros Hd Hn. unfold rne_div.
  assert (Hq : k <= n / d) by (apply Z.div_le_lower_bound; lia).
  set (q := n / d) in *. set (r := n mod d) in *. clearbody q r.
  destruct (2 * r ?= d); [destruct (Z.even q)| |]; lia.
Qed.

Lemma scale_up_pos e : 0 < scale_up e.
Proof. unfold scale_up. apply Z.pow_pos_nonneg; lia. Qed.

Lemma scale_dn_pos e : 0 < scale_dn e.
Proof. unfold scale_dn. apply Z.pow_pos_nonneg; lia. Qed.

Lemma scale_nonneg e : 0 <= e -> scale_up e = 2 ^ e /\ scale_dn e = 1.
Proof.
  intros H. unfold scale_up, scale_dn.
  rewrite (Z.max_r 0 e), (Z.max_l 0 (- e)) by lia. auto.
Qed.

Lemma scale_nonpos e : e <= 0 -> scale_up e = 1 /\ scale_dn e = 2 ^ (- e).
Proof.
  intros H. unfold scale_up, scale_dn.
  rewrite (Z.max_l 0 e), (Z.max_r 0 (- e)) by lia. auto.
Qed.

(** [2^a / 2^b = 2^e] in integers. *)
Lemma scale_eq a b e :
  0 <= a -> 0 <= b -> a = b + e -> 2 ^ a * scale_dn e = 2 ^ b * scale_up e.
Proof.
  intros Ha Hb ->. destruct (Z.le_ge_cases 0 e) as [He|He].
  - destruct (scale_nonneg e He) as [-> ->]. rewrite Z.pow_add_r by lia. lia.
  - destruct (scale_nonpos e He) as [-> ->].
    rewrite <- Z.pow_add_r by lia.
    replace (b + e + - e) with b by lia. lia.
Qed.

Lemma scale_le a b e :
  0 <= a -> 0 <= b -> a <= b + e -> 2 ^ a * scale_dn e <= 2 ^ b * scale_up e.
Proof.
  intros Ha Hb H.
  assert (H0 : 0 <= b + e) by lia.
  rewrite <- (scale_eq (b + e) b e) by lia.
  apply Z.mul_le_mono_nonneg_r; [pose proof (scale_dn_pos e); lia|].
  apply Z.pow_le_mono_r; lia.
Qed.


Lemma scale_succ e :
  scale_up (e + 1) * scale_dn e = 2 * scale_up e * scale_dn (e + 1).
Proof.
  destruct (Z.le_ge_cases 0 e) as [He|He].
  - destruct (scale_nonneg e He) as [-> ->].
    destruct (scale_nonneg (e + 1) ltac:(lia)) as [-> ->].
    rewrite Z.pow_add_r by lia. lia.
  - destruct (Z.eq_dec e 0) as [->|Hne]; [reflexivity|].
    destruct (scale_nonpos e He) as [-> ->].
    destruct (scale_nonpos (e + 1) ltac:(lia)) as [-> ->].
    replace (- e) with (- (e + 1) + 1) by lia.
    rewrite Z.pow_add_r by lia. lia.
Qed.

Lemma pow2_pos a : 0 <= a -> 0 < 2 ^ a.
Proof. intros. apply Z.pow_pos_nonneg; lia. Qed.

Lemma ratio_exp_ge n d : emin <= ratio_exp n d.
Proof. unfold ratio_exp. lia. Qed.

Lemma scale_dn_le e : emin <= e -> scale_dn e <= 2 ^ 1200.
Proof.
  intros H. unfold scale_dn. apply Z.pow_le_mono_r; unfold emin in H; lia.
Qed.

(** [n / d] is below the top of the binade of its exponent. *)
Lemma ratio_exp_upper n d :
  0 <= n -> 0 < d ->
  n * scale_dn (ratio_exp n d) < 2 ^ 53 * (d * scale_up (ratio_exp n d)).
Proof.
  intros Hn Hd.
  pose proof (ratio_exp_ge n d) as He.
  pose proof (scale_dn_le _ He) as Hdn.
  assert (HL : Z.log2 (n * 2 ^ 1200 / d) - 1252 <= ratio_exp n d)
    by (unfold ratio_exp; lia).
  set (e := ratio_exp n d) in *. clearbody e.
  pose proof (scale_up_pos e) as Hup. pose proof (scale_dn_pos e) as Hdn0.
  pose proof (pow2_pos 1200 ltac:(lia)) as HB.
  pose proof (Z.div_mod (n * 2 ^ 1200) d ltac:(lia)) as Hdm.
  pose proof (Z.mod_pos_bound (n * 2 ^ 1200) d Hd) as Hm.
  assert (HX0 : 0 <= n * 2 ^ 1200 / d) by (apply Z.div_pos; lia).
  set (X := n * 2 ^ 1200 / d) in *. set (r := (n * 2 ^ 1200) mod d) in *.
  clearbody X r.
  assert (E53 : 2 ^ 1253 = 2 ^ 53 * 2 ^ 1200) by (rewrite <- Z.pow_add_r by lia; reflexivity).
  set (B := 2 ^ 1200) in *. clearbody B.
  set (T := 2 ^ 53) in *. assert (HT : 0 < T) by (apply pow2_pos; lia).
  destruct (Z.eq_dec X 0) as [->|HX].
  - assert (n * scale_dn e <= n * B) by (apply Z.mul_le_mono_nonneg_l; lia).
    assert (d * 1 <= T * (d * scale_up e)) by nia.
    lia.
  - destruct (Z.log2_spec X ltac:(lia)) as [_ HL2].
    set (L := Z.log2 X) in *. 
    assert (HL0 : 0 <= L) by apply Z.log2_nonneg. clearbody L.
    pose proof (scale_le (Z.succ L) 1253 e ltac:(lia) ltac:(lia) ltac:(lia)) as Hs.
    set (P := 2 ^ Z.succ L) in *. clearbody P.
    rewrite E53 in Hs. clearbody T. 
    assert (H1 : n * B < d * P) by nia.
    assert (H2 : n * B * scale_dn e < d * P * scale_dn e)
      by (apply Z.mul_lt_mono_pos_r; lia).
    assert (H3 : d * (P * scale_dn e) <= d * (T * B * scale_up e))
      by (apply Z.mul_le_mono_nonneg_l; lia).
    apply (Z.mul_lt_mono_pos_r B); [lia|]. lia.
Qed.

(** Above the smallest exponent, [n / d] is inside the binade. *)
Lemma ratio_exp_lower n d :
  0 <= n -> 0 < d -> emin < ratio_exp n d ->
  2 ^ 52 * (d * scale_up (ratio_exp n d)) <= n * scale_dn (ratio_exp n d).
Proof.
  intros Hn Hd He.
  assert (HL : ratio_exp n d = Z.log2 (n * 2 ^ 1200 / d) - 1252)
    by (unfold ratio_exp in *; lia).
  set (e := ratio_exp n d) in *. clearbody e.
  pose proof (scale_up_pos e) as Hup. pose proof (scale_dn_pos e) as Hdn0.
  pose proof (pow2_pos 1200 ltac:(lia)) as HB.
  pose proof (Z.div_mod (n * 2 ^ 1200) d ltac:(lia)) as Hdm.
  pose proof (Z.mod_pos_bound (n * 2 ^ 1200) d Hd) as Hm.
  assert (HX0 : 0 < n * 2 ^ 1200 / d).
  { destruct (Z.lt_ge_cases 0 (n * 2 ^ 1200 / d)) as [H|H]; [exact H|].
    rewrite Z.log2_nonpos in HL by lia. unfold emin in He. lia. }
  set (X := n * 2 ^ 1200 / d) in *. set (r := (n * 2 ^ 1200) mod d) in *.
  clearbody X r.
  destruct (Z.log2_spec X HX0) as [HL2 _].
  set (L := Z.log2 X) in *.
  assert (HL0 : 0 <= L) by apply Z.log2_nonneg. clearbody L.
  pose proof (scale_eq L 1252 e ltac:(lia) ltac:(lia) ltac:(lia)) as Hs.
  assert (E52 : 2 ^ 1252 = 2 ^ 52 * 2 ^ 1200) by (rewrite <- Z.pow_add_r by lia; reflexivity).
  rewrite E52 in Hs.
  set (B := 2 ^ 1200) in *. clearbody B.
  set (T := 2 ^ 52) in *. assert (HT : 0 < T) by (apply pow2_pos; lia). clearbody T.
  set (P := 2 ^ L) in *. clearbody P.
  assert (H1 : d * P <= n * B) by nia.
  assert (H2 : d * P * scale_dn e <= n * B * scale_dn e)
    by (apply Z.mul_le_mono_nonneg_r; lia).
  apply (Z.mul_le_mono_pos_r _ _ B); [lia|].
  replace (T * (d * scale_up e) * B) with (d * (T * B * scale_up e)) by ring.
  rewrite <- Hs. lia.
Qed.

(** A ratio inside the binade of [e] has exponent [e]. *)
Lemma ratio_exp_binade n d e :
  0 <= n -> 0 < d -> emin <= e ->
  n * scale_dn e < 2 ^ 53 * (d * scale_up e) ->
  (emin < e -> 2 ^ 52 * (d * scale_up e) <= n * scale_dn e) ->
  ratio_exp n d = e.
Proof.
  intros Hn Hd He Hup Hlo.
  pose proof (scale_up_pos e) as Hu. pose proof (scale_dn_pos e) as Hdn0.
  pose proof (pow2_pos 1200 ltac:(lia)) as HB.
  assert (E53 : 2 ^ 1253 = 2 ^ 53 * 2 ^ 1200) by (rewrite <- Z.pow_add_r by lia; reflexivity).
  assert (E52 : 2 ^ 1252 = 2 ^ 52 * 2 ^ 1200) by (rewrite <- Z.pow_add_r by lia; reflexivity).
  assert (He' : -1074 <= e) by (unfold emin in He; exact He).
  assert (Hhi : Z.log2 (n * 2 ^ 1200 / d) < 1253 + e).
  { pose proof (scale_eq (1253 + e) 1253 e ltac:(lia) ltac:(lia) ltac:(lia)) as Hs.
    rewrite E53 in Hs.
    assert (HP : 0 < 2 ^ (1253 + e)) by (apply pow2_pos; lia).
    assert (HX : n * 2 ^ 1200 / d < 2 ^ (1253 + e)).
    { apply Z.div_lt_upper_bound; [lia|].
      set (B := 2 ^ 1200) in *. set (T := 2 ^ 53) in *.
      set (P := 2 ^ (1253 + e)) in *. clearbody B T P.
      apply (Z.mul_lt_mono_pos_r (scale_dn e)); [lia|].
      assert (n * scale_dn e * B < T * (d * scale_up e) * B)
        by (apply Z.mul_lt_mono_pos_r; lia).
      replace (d * P * scale_dn e) with (d * (P * scale_dn e)) by ring.
      rewrite Hs. lia. }
    destruct (Z.lt_ge_cases 0 (n * 2 ^ 1200 / d)) as [H|H].
    - apply Z.log2_lt_pow2; lia.
    - rewrite Z.log2_nonpos by lia. lia. }
  destruct (Z.eq_dec e emin) as [->|Hne].
  - unfold ratio_exp. unfold emin in *. lia.
  - assert (Hlo' : 1252 + e <= Z.log2 (n * 2 ^ 1200 / d)).
    { specialize (Hlo ltac:(lia)).
      pose proof (scale_eq (1252 + e) 1252 e ltac:(lia) ltac:(lia) ltac:(lia)) as Hs.
      rewrite E52 in Hs.
      assert (HP : 0 < 2 ^ (1252 + e)) by (apply pow2_pos; lia).
      assert (HX : 2 ^ (1252 + e) <= n * 2 ^ 1200 / d).
      { apply Z.div_le_lower_bound; [lia|].
        set (B := 2 ^ 1200) in *. set (T := 2 ^ 52) in *.
        set (P := 2 ^ (1252 + e)) in *. clearbody B T P.
        apply (Z.mul_le_mono_pos_r _ _ (scale_dn e)); [lia|].
        assert (T * (d * scale_up e) * B <= n * scale_dn e * B)
          by (apply Z.mul_le_mono_nonneg_r; lia).
        replace (d * P * scale_dn e) with (d * (P * scale_dn e)) by ring.
        rewrite Hs. lia. }
      apply Z.log2_le_pow2; lia. }
    unfold ratio_exp. unfold emin in *. lia.
Qed.


Lemma pow53 : 2 ^ prec = 9007199254740992.
Proof. reflexivity. Qed.

Lemma pow52 : 2 ^ (prec - 1) = 4503599627370496.
Proof. reflexivity. Qed.

(** What a finite result of [of_ratio] says about the ratio: the result
    is canonical and within half a unit in the last place. *)
Lemma of_ratio_finite s n d s' p e :
  0 <= n -> 0 < d ->
  of_ratio s n d = S754_finite s' p e ->
  s' = s /\ emin <= e <= 971 /\ Zpos p < 2 ^ 53 /\
  (emin < e -> 2 ^ 52 <= Zpos p) /\
  - (d * scale_up e) <= 2 * (n * scale_dn e - Zpos p * (d * scale_up e))
    <= d * scale_up e.
Proof.
  intros Hn Hd. unfold of_ratio.
  pose proof (ratio_exp_ge n d) as He0.
  pose proof (ratio_exp_upper n d Hn Hd) as Hupper.
  pose proof (ratio_exp_lower n d Hn Hd) as Hlower.
  set (e0 := ratio_exp n d) in *. clearbody e0.
  pose proof (scale_up_pos e0) as Hu. pose proof (scale_dn_pos e0) as Hdn.
  assert (HD : 0 < d * scale_up e0) by nia.
  pose proof (rne_div_bounds (n * scale_dn e0) (d * scale_up e0) HD) as Herr.
  assert (Hle : rne_div (n * scale_dn e0) (d * scale_up e0) <= 2 ^ 53)
    by (apply rne_div_le; lia).
  assert (Hge : emin < e0 -> 2 ^ 52 <= rne_div (n * scale_dn e0) (d * scale_up e0)).
  { intros H. apply rne_div_ge; [lia|]. specialize (Hlower H). lia. }
  set (m := rne_div (n * scale_dn e0) (d * scale_up e0)) in *. clearbody m.
  rewrite pow53, pow52. change (2 ^ 53) with 9007199254740992 in *.
  change (2 ^ 52) with 4503599627370496 in *.
  change (emax - prec) with 971.
  destruct (Z.eqb_spec m 9007199254740992) as [->|Hm].
  - destruct (Z.leb_spec (e0 + 1) 971) as [He|He]; [|discriminate].
    intros [= <- <- <-]. split; [reflexivity|]. split; [lia|].
    split; [lia|]. split; [lia|].
    pose proof (scale_succ e0) as Hs.
    destruct (Z.le_ge_cases 0 e0) as [H0|H0].
    + destruct (scale_nonneg e0 H0) as [Eu Ed].
      destruct (scale_nonneg (e0 + 1) ltac:(lia)) as [Eu' Ed'].
      rewrite Ed, Ed' in *. lia.
    + destruct (Z.eq_dec e0 0) as [->|Hne].
      * change (scale_up (0 + 1)) with 2. change (scale_dn (0 + 1)) with 1.
        change (scale_up 0) with 1 in *. change (scale_dn 0) with 1 in *. lia.
      * destruct (scale_nonpos e0 H0) as [Eu Ed].
        destruct (scale_nonpos (e0 + 1) ltac:(lia)) as [Eu' Ed'].
        rewrite Eu, Eu' in *. lia.
  - destruct m as [|pm|pm]; [discriminate| |discriminate].
    destruct (Z.leb_spec e0 971) as [He|He]; [|discriminate].
    intros [= <- <- <-]. split; [reflexivity|]. split; [lia|].
    split; [lia|]. split; [exact Hge|]. lia.
Qed.

(** Conversely, a canonical number strictly nearest to the ratio, in the
    ratio's own binade, is the result. *)
Lemma of_ratio_intro s n d p e :
  0 <= n -> 0 < d -> emin <= e <= 971 -> Zpos p < 2 ^ 53 ->
  n * scale_dn e < 2 ^ 53 * (d * scale_up e) ->
  (emin < e -> 2 ^ 52 * (d * scale_up e) <= n * scale_dn e) ->
  - (d * scale_up e) < 2 * (n * scale_dn e - (d * scale_up e) * Zpos p)
    < d * scale_up e ->
  of_ratio s n d = S754_finite s p e.
Proof.
  intros Hn Hd He Hp Hup Hlo Herr. unfold of_ratio.
  rewrite (ratio_exp_binade n d e) by (auto; lia).
  pose proof (scale_up_pos e) as Hu.
  assert (HD : 0 < d * scale_up e) by nia.
  rewrite (rne_div_unique _ _ (Zpos p) HD Herr).
  rewrite pow53. change (2 ^ 53) with 9007199254740992 in Hp.
  destruct (Z.eqb_spec (Zpos p) 9007199254740992) as [E|_]; [lia|].
  change (emax - prec) with 971.
  destruct (Z.leb_spec e 971); [reflexivity|lia].
Qed.


Lemma rne_div_1 n : rne_div n 1 = n.
Proof. rewrite <- (Z.mul_1_r n) at 1. apply rne_div_exact. lia. Qed.

(** Rounding the decimal value of a two-decimal result gives the same
    result again. *)
Lemma round2_core s q p e :
  0 <= q ->
  of_ratio s q 100 = S754_finite s p e ->
  of_ratio s (rne_div (100 * Zpos p * scale_up e) (scale_dn e)) 100 =
  S754_finite s p e.
Proof.
  intros Hq H. pose proof H as H0.
  apply of_ratio_finite in H as (_ & He & Hp & Hnorm & Herr); [|lia|lia].
  pose proof (scale_up_pos e) as Hu. pose proof (scale_dn_pos e) as Hd.
  change (2 ^ 53) with 9007199254740992 in *.
  change (2 ^ 52) with 4503599627370496 in *.
  unfold emin in *.
  destruct (Z.le_gt_cases 0 e) as [He0|He0].
  - destruct (scale_nonneg e He0) as [Eu Ed]. rewrite Ed in *. rewrite rne_div_1.
    specialize (Hnorm ltac:(lia)).
    apply of_ratio_intro; unfold emin; rewrite ?Ed;
      change (2 ^ 53) with 9007199254740992;
      change (2 ^ 52) with 4503599627370496; try lia; nia.
  - destruct (scale_nonpos e ltac:(lia)) as [Eu Ed]. rewrite Eu in *.
    rewrite !Z.mul_1_r in *.
    destruct (Z.le_gt_cases 7 (- e)) as [Hk|Hk].
    + assert (HK : 2 ^ 7 <= 2 ^ (- e)) by (apply Z.pow_le_mono_r; lia).
      change (2 ^ 7) with 128 in HK. rewrite <- Ed in HK.
      rewrite (rne_div_unique (100 * Zpos p) (scale_dn e) q); [exact H0|lia|lia].
    + specialize (Hnorm ltac:(lia)).
      assert (HK : scale_dn e = 2 \/ scale_dn e = 4 \/ scale_dn e = 8 \/
                   scale_dn e = 16 \/ scale_dn e = 32 \/ scale_dn e = 64).
      { rewrite Ed.
        assert (Hc : - e = 1 \/ - e = 2 \/ - e = 3 \/ - e = 4 \/ - e = 5 \/ - e = 6) by lia.
        destruct Hc as [->|[->|[->|[->|[->| ->]]]]]; auto 10. }
      pose proof (rne_div_bounds (100 * Zpos p) (scale_dn e) Hd) as Hb.
      assert (Hn0 : 0 <= rne_div (100 * Zpos p) (scale_dn e))
        by (apply rne_div_ge; lia).
      set (Q := rne_div (100 * Zpos p) (scale_dn e)) in *. clearbody Q.
      apply of_ratio_intro; unfold emin; rewrite ?Eu, ?Z.mul_1_r;
        change (2 ^ 53) with 9007199254740992;
        change (2 ^ 52) with 4503599627370496; lia.
Qed.

Lemma round2_nonneg m e : 0 <= rne_div (100 * Zpos m * scale_up e) (scale_dn e).
Proof.
  pose proof (scale_up_pos e). pose proof (scale_dn_pos e).
  apply rne_div_ge; [lia|]. nia.
Qed.

(** [round(x, 2)] is idempotent. *)
Lemma round2_idem x : round2 (round2 x) = round2 x.
Proof.
  destruct x as [s|s| |s m e]; try reflexivity.
  change (round2 (S754_finite s m e))
    with (of_ratio s (rne_div (100 * Zpos m * scale_up e) (scale_dn e)) 100).
  pose proof (round2_nonneg m e) as Hq.
  set (q := rne_div (100 * Zpos m * scale_up e) (scale_dn e)) in *. clearbody q.
  destruct (of_ratio s q 100) as [s'|s'| |s' p e'] eqn:E; try reflexivity.
  pose proof E as E'.
  apply of_ratio_finite in E' as (-> & _); [|lia|lia].
  unfold round2. now apply (round2_core s q).
Qed.

End FloatFacts.

(** ** The normalizer *)

Module StripFacts.

Lemma lstrip_head s :
  lstrip s = [] \/ exists c t, lstrip s = c :: t /\ Char.is_space c = false.
Proof.
  induction s as [|c s IH]; [now left|].
  simpl. destruct (Char.is_space c) eqn:E; [exact IH|].
  right. eauto.
Qed.

Lemma lstrip_fix c t : Char.is_space c = false -> lstrip (c :: t) = c :: t.
Proof. intros H. simpl. now rewrite H. Qed.

Lemma lstrip_idem s : lstrip (lstrip s) = lstrip s.
Proof.
  destruct (lstrip_head s) as [->|(c & t & -> & H)]; [reflexivity|].
  now apply lstrip_fix.
Qed.

Lemma lstrip_snoc w c :
  Char.is_space c = false -> lstrip (w ++ [c]) = lstrip w ++ [c].
Proof.
  intros H. induction w as [|d w IH]; simpl.
  - now rewrite H.
  - destruct (Char.is_space d); [exact IH|reflexivity].
Qed.

Lemma rstrip_cons c t :
  Char.is_space c = false -> rstrip (c :: t) = c :: rstrip t.
Proof.
  intros H. unfold rstrip. simpl rev at 2.
  now rewrite lstrip_snoc, rev_app_distr.
Qed.

Lemma rstrip_idem s : rstrip (rstrip s) = rstrip s.
Proof. unfold rstrip. now rewrite rev_involutive, lstrip_idem. Qed.

Lemma strip_idem s : strip (strip s) = strip s.
Proof.
  unfold strip.
  assert (H : lstrip (rstrip (lstrip s)) = rstrip (lstrip s)).
  { destruct (lstrip_head s) as [->|(c & t & -> & H)]; [reflexivity|].
    rewrite rstrip_cons by exact H. now apply lstrip_fix. }
  now rewrite H, rstrip_idem.
Qed.

Lemma lstrip_upper s : lstrip (upper s) = upper (lstrip s).
Proof.
  induction s as [|c s IH]; [reflexivity|].
  simpl. rewrite CharFacts.is_space_to_upper.
  destruct (Char.is_space c); [exact IH|reflexivity].
Qed.

Lemma rstrip_upper s : rstrip (upper s) = upper (rstrip s).
Proof.
  unfold rstrip. unfold upper at 1. rewrite <- List.map_rev.
  fold (upper (rev s)). rewrite lstrip_upper. unfold upper. now rewrite List.map_rev.
Qed.

Lemma strip_upper s : strip (upper s) = upper (strip s).
Proof. unfold strip. now rewrite lstrip_upper, rstrip_upper. Qed.

(** A stripped, upper-cased string is left alone by stripping and
    upper-casing. *)
Lemma upper_strip_fix s : upper (strip (upper (strip s))) = upper (strip s).
Proof. now rewrite strip_upper, strip_idem, upper_idem. Qed.

End StripFacts.

Section NormalizerFacts.

Variable validate_str : pyval -> res text.
Variable validate_float : pyval -> res F64.float.
Variable validate_bool : pyval -> res bool.
Variable py_str : pyval -> text.

(** What is assumed of pydantic and of [str()]: a value that already has
    the type of its field is accepted unchanged, and [str(s)] is [s] for
    a string. *)
Hypothesis validate_str_str : forall s, validate_str (PStr s) = Ok s.
Hypothesis validate_float_float : forall x, validate_float (PFloat x) = Ok x.
Hypothesis validate_bool_bool : forall b, validate_bool (PBool b) = Ok b.
Hypothesis py_str_str : forall s, py_str (PStr s) = s.

Local Abbreviation validate' := (validate validate_str validate_float validate_bool py_str).
Local Abbreviation norm_incoterm' := (norm_incoterm py_str).

Lemma optional_text o : optional validate_str (opt_text_val o) = Ok o.
Proof. destruct o as [s|]; simpl; [|reflexivity]. now rewrite validate_str_str. Qed.

Lemma optional_float o : optional validate_float (opt_float_val o) = Ok o.
Proof. destruct o as [x|]; simpl; [|reflexivity]. now rewrite validate_float_float. Qed.

Lemma norm_incoterm_idem v :
  norm_incoterm' (opt_text_val (norm_incoterm' v)) = norm_incoterm' v.
Proof.
  assert (H : forall s, nonempty (upper (strip s)) = true ->
            norm_incoterm' (PStr (upper (strip s))) = Some (upper (strip s))).
  { intros s Hs. unfold norm_incoterm.
    rewrite py_str_str, StripFacts.upper_strip_fix, Hs. reflexivity. }
  unfold norm_incoterm at 2 3.
  destruct v; try reflexivity;
    (destruct (nonempty (upper (strip (py_str _)))) eqn:E;
     [simpl; now apply H | reflexivity]).
Qed.

Lemma round_weight_idem v :
  round_weight (opt_float_val (round_weight v)) = round_weight v.
Proof.
  unfold round_weight at 2 3.
  destruct v; try reflexivity;
    (destruct (py_float _) as [y|]; [|reflexivity];
     simpl; now rewrite FloatFacts.round2_idem).
Qed.

Lemma round_cbm_idem v :
  round_cbm (opt_float_val (round_cbm v)) = round_cbm v.
Proof.
  unfold round_cbm at 2 3.
  destruct v; try reflexivity;
    (destruct (py_float _) as [y|]; [|reflexivity];
     simpl; now rewrite FloatFacts.round2_idem).
Qed.

Ltac bind_in H :=
  match type of H with
  | res_bind ?m _ = Ok _ =>
      let E := fresh "E" in destruct m eqn:E; simpl in H; [|discriminate H]
  end.

(** C8.  Normalizing the finalized record once more gives the same
    record: the rounding to two decimals, the trimming and upper-casing
    of the incoterm and the default of the dangerous-goods flag are all
    stable. *)
Theorem normalizer_idempotent (raw : raw_record) (r : ExtractionResult) :
  validate' raw = Ok r -> validate' (dict r) = Ok r.
Proof.
  intros H. unfold validate in H.
  bind_in H. bind_in H. bind_in H. bind_in H. bind_in H. bind_in H.
  bind_in H. bind_in H. bind_in H. bind_in H.
  injection H as <-.
  rewrite optional_text in E5. injection E5 as <-.
  rewrite optional_float in E6. injection E6 as <-.
  rewrite optional_float in E7. injection E7 as <-.
  unfold validate, dict. simpl.
  rewrite validate_str_str. simpl.
  rewrite !optional_text. simpl.
  rewrite round_weight_idem, round_cbm_idem, !optional_float. simpl.
  rewrite validate_bool_bool. simpl.
  now rewrite norm_incoterm_idem.
Qed.

End NormalizerFacts.

(** A raw record with an untrimmed lowercase incoterm, a weight given as
    text and a volume with three decimals: it normalizes to "CIF", 12.35
    and 0.12, and normalizing the result again changes nothing. *)
Lemma normalizer_idempotent_witness :
  validate Env.strict_str Env.strict_float Env.strict_bool Env.plain_str
    (Raw (Some (PStr (str "EMAIL_007"))) None (Some (PStr (str "INNSA"))) None
         (Some PNone) None (Some (PStr (str "  cif ")))
         (Some (PStr (str "12.345"))) (Some (PFloat (F64.dec 125 3))) None) =
  Ok (Result (str "EMAIL_007") None (Some (str "INNSA")) None None None
        (Some (str "CIF")) (Some (F64.dec 1235 2)) (Some (F64.dec 12 2)) false) /\
  validate Env.strict_str Env.strict_float Env.strict_bool Env.plain_str
    (dict (Result (str "EMAIL_007") None (Some (str "INNSA")) None None None
             (Some (str "CIF")) (Some (F64.dec 1235 2)) (Some (F64.dec 12 2)) false)) =
  Ok (Result (str "EMAIL_007") None (Some (str "INNSA")) None None None
        (Some (str "CIF")) (Some (F64.dec 1235 2)) (Some (F64.dec 12 2)) false).
Proof.
  split; [vm_compute; reflexivity|].
  apply (normalizer_idempotent
           Env.strict_str Env.strict_float Env.strict_bool Env.plain_str
           (fun s => eq_refl) (fun x => eq_refl) (fun b => eq_refl) (fun s => eq_refl)
           (Raw (Some (PStr (str "EMAIL_007"))) None (Some (PStr (str "INNSA"))) None
                (Some PNone) None (Some (PStr (str "  cif ")))
                (Some (PStr (str "12.345"))) (Some (PFloat (F64.dec 125 3))) None)).
  vm_compute. reflexivity.
Defined.


(** * Further properties *)

(** ** The two indexes of build_port_index *)

Module IndexMore.

Import IndexSpec.

Lemma text_eqb_iff s t : text_eqb s t = true <-> s = t.
Proof.
  revert t. induction s as [|c s IH]; intros [|d t]; simpl; try easy.
  rewrite andb_true_iff, CharFacts.eqb_eq, IH. split.
  - intros [-> ->]. reflexivity.
  - intros [= -> ->]. auto.
Qed.

Lemma text_eqb_refl s : text_eqb s s = true.
Proof. now apply text_eqb_iff. Qed.

Lemma text_eqb_neq s t : s <> t -> text_eqb s t = false.
Proof.
  intros H. destruct (text_eqb s t) eqn:E; [|reflexivity].
  apply text_eqb_iff in E. contradiction.
Qed.

Lemma find_snoc {A} (f : A -> bool) l x :
  List.find f (l ++ [x]) =
  match List.find f l with
  | Some y => Some y
  | None => if f x then Some x else None
  end.
Proof.
  induction l as [|a l IH]; simpl; [reflexivity|].
  destruct (f a); [reflexivity|exact IH].
Qed.

Lemma build_snoc ref e :
  build_port_index (ref ++ [e]) = add_entry (build_port_index ref) e.
Proof. unfold build_port_index. now rewrite fold_left_app. Qed.

(** What one entry does to the two indexes. *)
Lemma add_entry_well_formed idx e :
  well_formed e = true ->
  exists code name,
    pe_code e = Some code /\ pe_name e = Some name /\
    add_entry idx e =
      (fold_left (add_token code) (split_runs is_sep (lower name))
         (<[lower name := code]> (fst idx)),
       <[code := name]> (snd idx)).
Proof.
  unfold well_formed, add_entry. intros H.
  apply andb_true_iff in H as [Hc Hn]. rewrite Hc, Hn. simpl.
  destruct (pe_code e) as [code|]; [|discriminate].
  destruct (pe_name e) as [name|]; [|discriminate]. eauto.
Qed.

Lemma add_entry_skipped idx e : well_formed e = false -> add_entry idx e = idx.
Proof.
  unfold well_formed, add_entry. intros H.
  apply andb_false_iff in H as [H|H]; rewrite H; simpl; [reflexivity|].
  now rewrite orb_true_r.
Qed.

Lemma add_tokens_lookup toks : forall (d : gmap text text) code k,
  fold_left (add_token code) toks d !! k =
  match d !! k with
  | Some c => Some c
  | None =>
      if existsb (text_eqb k) (List.filter (fun tok => (2 <=? length tok)%nat) toks)
      then Some code else None
  end.
Proof.
  induction toks as [|tok toks IH]; intros d code k; cbn [fold_left].
  - now destruct (d !! k).
  - rewrite IH. unfold add_token.
    change (List.filter ?f (tok :: toks))
      with (if f tok then tok :: List.filter f toks else List.filter f toks).
    cbv beta.
    destruct (2 <=? length tok)%nat; [|reflexivity].
    unfold setdefault. destruct (d !! tok) eqn:Et.
    + destruct (d !! k) eqn:Ek; [reflexivity|]. simpl.
      rewrite text_eqb_neq; [reflexivity|]. intros ->. congruence.
    + destruct (decide (tok = k)) as [->|Hne].
      * rewrite lookup_insert_eq, Et. simpl. now rewrite text_eqb_refl.
      * rewrite lookup_insert_ne by exact Hne.
        destruct (d !! k); [reflexivity|]. simpl.
        rewrite (text_eqb_neq k tok) by congruence. reflexivity.
Qed.

Lemma code_to_name_lookup (ref : list port_entry) (c : text) :
  snd (build_port_index ref) !! c = code_to_name_of ref c.
Proof.
  induction ref as [|e ref IH] using rev_ind; [reflexivity|].
  rewrite build_snoc. unfold code_to_name_of.
  rewrite rev_app_distr. simpl List.find.
  destruct (well_formed e) eqn:Hwf.
  - destruct (add_entry_well_formed (build_port_index ref) e Hwf)
      as (code & name & Hc & Hn & ->).
    simpl snd. unfold has_code at 1. rewrite Hwf, Hc. simpl andb.
    destruct (text_eqb code c) eqn:E.
    + apply text_eqb_iff in E. subst. now rewrite lookup_insert_eq.
    + rewrite lookup_insert_ne; [exact IH|].
      intros ->. now rewrite text_eqb_refl in E.
  - rewrite add_entry_skipped by exact Hwf.
    unfold has_code at 1. rewrite Hwf. simpl. exact IH.
Qed.

Lemma name_to_code_lookup (ref : list port_entry) (k : text) :
  fst (build_port_index ref) !! k = name_to_code_of ref k.
Proof.
  induction ref as [|e ref IH] using rev_ind; [reflexivity|].
  rewrite build_snoc. unfold name_to_code_of in *.
  rewrite rev_app_distr, find_snoc. simpl List.find.
  destruct (well_formed e) eqn:Hwf.
  - destruct (add_entry_well_formed (build_port_index ref) e Hwf)
      as (code & name & Hc & Hn & ->).
    simpl fst. rewrite add_tokens_lookup.
    unfold full_name_is at 1, has_token at 2, name_of. rewrite Hwf, Hn. simpl andb.
    fold (tokens name).
    destruct (text_eqb (lower name) k) eqn:E.
    + apply text_eqb_iff in E. subst k.
      now rewrite lookup_insert_eq.
    + rewrite lookup_insert_ne
        by (intros Hk; rewrite Hk, text_eqb_refl in E; discriminate).
      rewrite IH.
      destruct (List.find (full_name_is k) (rev ref)) as [e1|] eqn:F1.
      * apply List.find_some in F1 as [_ F1]. unfold full_name_is in F1.
        apply andb_true_iff in F1 as [F1 _]. unfold well_formed in F1.
        apply andb_true_iff in F1 as [F1 _].
        destruct (pe_code e1); [reflexivity|discriminate].
      * destruct (List.find (has_token k) ref) as [e2|] eqn:F2.
        -- apply List.find_some in F2 as [_ F2]. unfold has_token in F2.
           apply andb_true_iff in F2 as [F2 _]. unfold well_formed in F2.
           apply andb_true_iff in F2 as [F2 _].
           destruct (pe_code e2); [reflexivity|discriminate].
        -- destruct (existsb (text_eqb k) (tokens name)); [now rewrite Hc|reflexivity].
  - rewrite add_entry_skipped by exact Hwf.
    unfold full_name_is at 1, has_token at 2. rewrite Hwf. simpl. rewrite IH.
    now destruct (List.find (full_name_is k) (rev ref)),
                 (List.find (has_token k) ref).
Qed.

(** Where a value of the name index comes from. *)
Lemma name_to_code_origin ref k c :
  fst (build_port_index ref) !! k = Some c ->
  exists e name,
    In e ref /\ pe_code e = Some c /\ pe_name e = Some name /\
    c <> [] /\ name <> [] /\
    (k = lower name \/ In k (tokens name)).
Proof.
  rewrite name_to_code_lookup. unfold name_to_code_of.
  assert (Hwf : forall e, well_formed e = true -> pe_code e = Some c ->
            exists name, pe_name e = Some name /\ c <> [] /\ name <> []).
  { intros e H Hc. unfold well_formed in H. rewrite Hc in H.
    destruct (pe_name e) as [name|]; [|now rewrite andb_false_r in H].
    apply andb_true_iff in H as [H1 H2]. exists name.
    split; [reflexivity|]. split; intros ->; discriminate. }
  destruct (List.find (full_name_is k) (rev ref)) as [e|] eqn:F1.
  - intros Hc. apply List.find_some in F1 as [Hin F1].
    apply andb_true_iff in F1 as [W F1]. apply text_eqb_iff in F1.
    destruct (Hwf e W Hc) as (name & Hn & ? & ?).
    exists e, name. apply in_rev in Hin.
    unfold name_of in F1. rewrite Hn in F1. auto 10.
  - destruct (List.find (has_token k) ref) as [e|] eqn:F2; [|discriminate].
    intros Hc. apply List.find_some in F2 as [Hin F2].
    apply andb_true_iff in F2 as [W F2].
    destruct (Hwf e W Hc) as (name & Hn & ? & ?).
    exists e, name. unfold name_of in F2. rewrite Hn in F2.
    apply existsb_exists in F2 as (tok & Htok & Heq).
    apply text_eqb_iff in Heq. subst tok. auto 10.
Qed.

Lemma find_is_some {A} (f : A -> bool) l x :
  In x l -> f x = true -> exists y, List.find f l = Some y.
Proof.
  intros Hin Hf. destruct (List.find f l) eqn:E; [eauto|].
  apply (List.find_none _ _ E) in Hin. congruence.
Qed.

Lemma to_lower_idem c : Char.to_lower (Char.to_lower c) = Char.to_lower c.
Proof. CharFacts.by_cases c. Qed.

Lemma lower_idem s : lower (lower s) = lower s.
Proof.
  unfold lower. rewrite List.map_map. apply List.map_ext.
  intros c. apply to_lower_idem.
Qed.

(** The pieces of a split are made of the characters of the input that
    are not separators. *)
Lemma split_runs_pieces (p : ascii -> bool) s :
  forall piece c, In piece (split_runs p s) -> In c piece ->
    In c s /\ p c = false.
Proof.
  induction s as [|a s IH]; intros piece c Hp Hc.
  - simpl in Hp. destruct Hp as [<-|[]]. destruct Hc.
  - cbn [split_runs] in Hp. destruct (p a) eqn:Pa.
    + assert (Hp' : In piece ([] :: split_runs p s)).
      { destruct s as [|d s']; [exact Hp|].
        destruct (p d); [now right|exact Hp]. }
      destruct Hp' as [<-|Hp']; [destruct Hc|].
      destruct (IH piece c Hp' Hc). split; [now right|assumption].
    + destruct (split_runs p s) as [|q qs] eqn:E.
      * destruct Hp as [<-|[]]. destruct Hc as [<-|[]]. split; [now left|exact Pa].
      * destruct Hp as [<-|Hp].
        -- destruct Hc as [<-|Hc]; [split; [now left|exact Pa]|].
           destruct (IH q c (or_introl eq_refl) Hc). split; [now right|assumption].
        -- destruct (IH piece c (or_intror Hp) Hc). split; [now right|assumption].
Qed.

Lemma split_runs_cons (p : ascii -> bool) c s :
  split_runs p (c :: s) =
  if p c then
    match s with
    | d :: _ => if p d then split_runs p s else [] :: split_runs p s
    | [] => [] :: split_runs p s
    end
  else
    match split_runs p s with
    | piece :: ps => (c :: piece) :: ps
    | [] => [[c]]
    end.
Proof. reflexivity. Qed.

(** A text that starts with a separator splits into an empty first piece. *)
Lemma split_runs_sep_head (p : ascii -> bool) s : forall d,
  p d = true -> exists qs, split_runs p (d :: s) = [] :: qs.
Proof.
  induction s as [|d' s IH]; intros d Pd; rewrite split_runs_cons, Pd.
  - eauto.
  - destruct (p d') eqn:Pd'; [now apply IH|eauto].
Qed.

(** The pieces of a split are contiguous parts of the input, the first
    one at its start. *)
Lemma split_runs_head (p : ascii -> bool) s :
  exists q qs post, split_runs p s = q :: qs /\ s = q ++ post.
Proof.
  induction s as [|a s (q & qs & post & E & Hs)].
  - exists [], [], []. auto.
  - rewrite split_runs_cons. destruct (p a).
    + destruct s as [|d s'].
      * exists [], (split_runs p []), [a]. auto.
      * destruct (p d) eqn:Pd.
        -- destruct (split_runs_sep_head p s' d Pd) as [qs' ->].
           exists [], qs', (a :: d :: s'). auto.
        -- exists [], (split_runs p (d :: s')), (a :: d :: s'). auto.
    + rewrite E. exists (a :: q), qs, post. simpl. now rewrite Hs.
Qed.

Lemma split_runs_appears (p : ascii -> bool) s : forall piece,
  In piece (split_runs p s) -> Spec.appears piece s.
Proof.
  induction s as [|a s IH]; intros piece Hp.
  - destruct Hp as [<-|[]]. exists [], []. reflexivity.
  - assert (Hnil : Spec.appears [] (a :: s)) by (exists [], (a :: s); reflexivity).
    assert (Hlift : In piece (split_runs p s) -> Spec.appears piece (a :: s)).
    { intros H. destruct (IH piece H) as (pre & post & ->).
      exists (a :: pre), post. reflexivity. }
    rewrite split_runs_cons in Hp. destruct (p a).
    + destruct s as [|d s'].
      * destruct Hp as [<-|Hp]; auto.
      * destruct (p d); [auto|]. destruct Hp as [<-|Hp]; auto.
    + destruct (split_runs_head p s) as (q & qs & post & E & Hs).
      rewrite E in Hp, Hlift. destruct Hp as [<-|Hp].
      * exists [], post. simpl. now rewrite Hs.
      * apply Hlift. now right.
Qed.

Lemma lower_fixed_iff s :
  lower s = s <-> forall c, In c s -> Char.to_lower c = c.
Proof.
  induction s as [|a s IH]; simpl.
  - split; [intros _ c []|reflexivity].
  - split.
    + intros [= Ha Hs] c [<-|Hc]; [exact Ha|]. now apply IH.
    + intros H. f_equal; [apply H; now left|]. apply IH. intros c Hc. apply H. now right.
Qed.

Lemma tokens_spec name tok :
  In tok (tokens name) ->
  (2 <= length tok)%nat /\ lower tok = tok /\ forallb is_sep tok = false /\
  forall c, In c tok -> is_sep c = false.
Proof.
  unfold tokens. intros H. apply List.filter_In in H as [Hin Hlen].
  apply Nat.leb_le in Hlen.
  assert (Hc : forall c, In c tok -> is_sep c = false).
  { intros c Hc. now destruct (split_runs_pieces _ _ _ _ Hin Hc). }
  repeat split; auto.
  - apply lower_fixed_iff. intros c Hc'.
    destruct (split_runs_pieces _ _ _ _ Hin Hc') as [Hl _].
    unfold lower in Hl. apply List.in_map_iff in Hl as (d & <- & _).
    apply to_lower_idem.
  - destruct tok as [|a tok]; [simpl in Hlen; lia|].
    simpl. rewrite (Hc a) by now left. reflexivity.
Qed.

(** Every code of the name index has a name in the code index. *)
Lemma codes_resolve (ref : list port_entry) (k c : text) :
  fst (build_port_index ref) !! k = Some c ->
  c <> [] /\
  exists name, name <> [] /\ snd (build_port_index ref) !! c = Some name.
Proof.
  intros H.
  destruct (name_to_code_origin ref k c H)
    as (e & name & Hin & Hc & Hn & Hce & Hne & _).
  split; [exact Hce|].
  rewrite code_to_name_lookup. unfold code_to_name_of.
  assert (Hhas : has_code c e = true).
  { unfold has_code, well_formed. rewrite Hc, Hn. simpl.
    rewrite text_eqb_refl.
    destruct c; [contradiction|]. destruct name; [contradiction|]. reflexivity. }
  destruct (find_is_some (has_code c) (rev ref) e) as [e' F]; [now apply in_rev in Hin|exact Hhas|].
  rewrite F. apply List.find_some in F as [_ F].
  unfold has_code, well_formed in F.
  destruct (pe_name e') as [n'|]; [|now rewrite andb_false_r in F].
  exists n'. split; [|reflexivity].
  intros ->. simpl in F. now rewrite andb_false_r in F.
Qed.


End IndexMore.

Import IndexSpec IndexMore.

(** X1.  The code-to-name index maps a code to the name of the last
    well-formed entry of the reference that has this code, and holds
    nothing else; entries without a code or a name are passed over. *)
Theorem build_port_index_code_to_name (ref : list port_entry) (c : text) :
  snd (build_port_index ref) !! c = code_to_name_of ref c.
Proof. apply code_to_name_lookup. Qed.

(** X2.  The name-to-code index maps a key to the code of the last
    well-formed entry whose full lower-cased name is the key; when there
    is none, to the code of the first well-formed entry that has the key
    among its sub-tokens of length at least 2; and holds nothing else. *)
Theorem build_port_index_name_to_code (ref : list port_entry) (k : text) :
  fst (build_port_index ref) !! k = name_to_code_of ref k.
Proof. apply name_to_code_lookup. Qed.

(** X3.  The two indexes agree: every code the name index can give is a
    non-empty code that the code index resolves to a non-empty name. *)
Theorem build_port_index_codes_resolve (ref : list port_entry) (k c : text) :
  fst (build_port_index ref) !! k = Some c ->
  c <> [] /\
  exists name, name <> [] /\ snd (build_port_index ref) !! c = Some name.
Proof. apply codes_resolve. Qed.

Lemma build_port_index_codes_resolve_witness :
  let ref := [PortEntry (Some (str "INMAA")) (Some (str "Chennai"))] in
  fst (build_port_index ref) !! str "chennai" = Some (str "INMAA") /\
  (str "INMAA" <> [] /\
   exists name, name <> [] /\ snd (build_port_index ref) !! str "INMAA" = Some name).
Proof.
  split; [vm_compute; reflexivity|].
  apply (build_port_index_codes_resolve _ (str "chennai")). vm_compute. reflexivity.
Defined.

(** X4.  Every key of the name index is non-empty and in lower case, and
    is either the full lower-cased name of a well-formed entry or a piece
    of such a name of at least two characters, none of them a
    separator. *)
Theorem build_port_index_keys (ref : list port_entry) (k c : text) :
  fst (build_port_index ref) !! k = Some c ->
  k <> [] /\ lower k = k /\
  exists e name,
    In e ref /\ pe_code e = Some c /\ pe_name e = Some name /\
    (k = lower name \/
     (2 <= length k)%nat /\ (forall ch, In ch k -> is_sep ch = false) /\
     Spec.appears k (lower name)).
Proof.
  intros H.
  destruct (name_to_code_origin ref k c H)
    as (e & name & Hin & Hc & Hn & Hce & Hne & [->|Htok]).
  - split; [destruct name; [contradiction|discriminate]|].
    split; [apply lower_idem|]. exists e, name. auto.
  - destruct (tokens_spec name k Htok) as (Hlen & Hlow & _ & Hsep).
    split; [intros ->; simpl in Hlen; lia|]. split; [exact Hlow|].
    exists e, name. repeat split; auto. right. repeat split; auto.
    unfold tokens in Htok. apply List.filter_In in Htok as [Htok _].
    now apply split_runs_appears in Htok.
Qed.

Lemma build_port_index_keys_witness :
  let ref := [PortEntry (Some (str "AEJEA")) (Some (str "Jebel Ali"))] in
  fst (build_port_index ref) !! str "ali" = Some (str "AEJEA") /\
  (str "ali" <> [] /\ lower (str "ali") = str "ali" /\
   exists e name,
     In e ref /\ pe_code e = Some (str "AEJEA") /\ pe_name e = Some name /\
     (str "ali" = lower name \/
      (2 <= length (str "ali"))%nat /\
      (forall ch, In ch (str "ali") -> is_sep ch = false) /\
      Spec.appears (str "ali") (lower name))).
Proof.
  split; [vm_compute; reflexivity|].
  apply (build_port_index_keys _ (str "ali")). vm_compute. reflexivity.
Defined.


(** ** The candidates of the port finder *)

Module PortsFacts.

Import Re ReFacts Ports PortsSpec.

Lemma run_next_word {A} prev rest cap (k : option ascii -> text -> option text -> option A) :
  run false next_word prev rest cap k =
  rep_greedy Char.is_space 1 prev rest (fun prev' rest' =>
    rep_greedy Char.is_alpha 2 prev' rest' (fun prev'' rest'' => k prev'' rest'' cap)).
Proof. reflexivity. Qed.

(** The continuation of a repetition is only ever called on what is left
    after [n] characters at least. *)
Lemma rep_greedy_ext {A} p rest : forall n prev (k1 k2 : option ascii -> text -> option A),
  (forall prev' rest', (length rest' + n <= length rest)%nat ->
     k1 prev' rest' = k2 prev' rest') ->
  rep_greedy p n prev rest k1 = rep_greedy p n prev rest k2.
Proof.
  induction rest as [|c rest IH]; intros n prev k1 k2 H; cbn [rep_greedy].
  - destruct (n =? 0)%nat eqn:E; [|reflexivity].
    apply Nat.eqb_eq in E. apply H. simpl. lia.
  - assert (H0 : (n =? 0)%nat = true -> k1 prev (c :: rest) = k2 prev (c :: rest)).
    { intros E. apply Nat.eqb_eq in E. apply H. lia. }
    destruct (p c).
    + rewrite (IH (pred n) (Some c) k1 k2).
      * destruct (rep_greedy p (pred n) (Some c) rest k2); [reflexivity|].
        destruct (n =? 0)%nat; auto.
      * intros prev' rest' Hl. apply H. simpl. lia.
    + destruct (n =? 0)%nat; auto.
Qed.

Lemma next_word_ext {A} prev rest cap
    (k1 k2 : option ascii -> text -> option text -> option A) :
  (forall prev' rest' cap', (length rest' + 3 <= length rest)%nat ->
     k1 prev' rest' cap' = k2 prev' rest' cap') ->
  run false next_word prev rest cap k1 = run false next_word prev rest cap k2.
Proof.
  intros H. rewrite !run_next_word.
  apply rep_greedy_ext. intros prev' rest' H1.
  apply rep_greedy_ext. intros prev'' rest'' H2.
  apply H. lia.
Qed.

(** The fuel of [more_words] is never used up. *)
Lemma more_words_fuel {A} (k : text -> option A) : forall f1 f2 rest,
  (length rest <= f1)%nat -> (length rest <= f2)%nat ->
  more_words f1 rest k = more_words f2 rest k.
Proof.
  assert (Hnone : forall rest (k' : option ascii -> text -> option text -> option A),
            (length rest < 3)%nat -> run false next_word None rest None k' = None).
  { intros rest k' Hl. rewrite run_next_word.
    destruct (rep_greedy Char.is_space 1 None rest _) eqn:E; [|reflexivity].
    apply rep_greedy_sound in E as (s & post & -> & Hs & _ & E).
    apply rep_greedy_sound in E as (s' & post' & -> & Hs' & _).
    rewrite !length_app in Hl. lia. }
  induction f1 as [|f1 IH]; intros f2 rest H1 H2.
  - destruct rest; [|simpl in H1; lia]. destruct f2; [reflexivity|].
    cbn [more_words]. now rewrite Hnone by (simpl; lia).
  - destruct f2 as [|f2].
    + destruct rest; [|simpl in H2; lia].
      cbn [more_words]. now rewrite Hnone by (simpl; lia).
    + cbn [more_words].
      rewrite (next_word_ext None rest None _
                 (fun _ rest' _ => more_words f2 rest' k)); [reflexivity|].
      intros _ rest' _ Hl. apply IH; lia.
Qed.

Lemma more_words_eq {A} (k : text -> option A) rest :
  more_words (length rest) rest k =
  match run false next_word None rest None
          (fun _ rest' _ => more_words (length rest') rest' k) with
  | Some a => Some a
  | None => k rest
  end.
Proof.
  rewrite (more_words_fuel k (length rest) (S (length rest))) by lia.
  cbn [more_words].
  rewrite (next_word_ext None rest None _
             (fun _ rest' _ => more_words (length rest') rest' k)); [reflexivity|].
  intros _ rest' _ Hl. apply more_words_fuel; lia.
Qed.

(** What [more_words] has gone over is a sequence of further words. *)
Lemma more_words_sound {A} (k : text -> option A) : forall fuel rest a,
  more_words fuel rest k = Some a ->
  exists s post, rest = s ++ post /\ Words s /\ k post = Some a.
Proof.
  induction fuel as [|fuel IH]; intros rest a H; cbn [more_words] in H.
  - exists [], rest. repeat split; [constructor|exact H].
  - destruct (run false next_word None rest None _) as [a0|] eqn:E.
    + injection H as ->. rewrite run_next_word in E.
      apply rep_greedy_sound in E as (sp & post & -> & Hsp & Hsp' & E).
      apply rep_greedy_sound in E as (w & post' & -> & Hw & Hw' & E).
      apply IH in E as (s & post'' & -> & Hs & Hk).
      exists (sp ++ w ++ s), post''. rewrite <- !app_assoc.
      repeat split; [now constructor|exact Hk].
    + exists [], rest. repeat split; [constructor|exact H].
Qed.

Lemma more_words_some fuel : forall rest, exists after, more_words fuel rest Some = Some after.
Proof.
  induction fuel as [|fuel IH]; intros rest; cbn [more_words]; [eauto|].
  destruct (run false next_word None rest None _); eauto.
Qed.

Lemma match_at_sound rest after :
  match_at rest = Some after -> exists s, rest = s ++ after /\ Phrase s.
Proof.
  unfold match_at. cbn [run]. intros H.
  apply rep_greedy_sound in H as (w & post & -> & Hw & Hw' & H).
  apply more_words_sound in H as (s & post' & -> & Hs & [= ->]).
  exists (w ++ s). rewrite <- app_assoc. split; [reflexivity|].
  exists w, s. auto.
Qed.

Lemma match_at_shorter rest after :
  match_at rest = Some after -> (length after + 2 <= length rest)%nat.
Proof.
  intros H. apply match_at_sound in H as (s & -> & w & ws & -> & Hw & _).
  rewrite !length_app. lia.
Qed.

(** The pattern matches at the start of a text exactly when the text
    starts with two letters. *)
Lemma match_at_none_iff rest :
  match_at rest = None <->
  ~ exists a b post, rest = a :: b :: post /\
      Char.is_alpha a = true /\ Char.is_alpha b = true.
Proof.
  unfold match_at. cbn [run]. split.
  - intros H (a & b & post & -> & Ha & Hb).
    revert H. apply rep_greedy_iff.
    exists [a; b], post. repeat split; [simpl; lia|simpl; now rewrite Ha, Hb|].
    destruct (more_words_some (length post) post) as [x ->]. discriminate.
  - intros H.
    destruct (rep_greedy Char.is_alpha 2 None rest _) eqn:E; [|reflexivity].
    exfalso. apply H.
    apply rep_greedy_sound in E as (w & post & -> & Hw & Hw' & _).
    destruct w as [|a [|b w]]; simpl in Hw; try lia.
    simpl in Hw'. apply andb_true_iff in Hw' as [Ha Hw'].
    apply andb_true_iff in Hw' as [Hb _].
    exists a, b, (w ++ post). auto.
Qed.

(** The fuel of [findall_from] is never used up. *)
Lemma findall_from_fuel : forall f1 f2 rest,
  (length rest <= f1)%nat -> (length rest <= f2)%nat ->
  findall_from f1 rest = findall_from f2 rest.
Proof.
  induction f1 as [|f1 IH]; intros f2 rest H1 H2.
  - destruct rest; [|simpl in H1; lia]. now destruct f2.
  - destruct f2 as [|f2]; [destruct rest; [reflexivity|simpl in H2; lia]|].
    cbn [findall_from]. destruct rest as [|c rest]; [reflexivity|].
    destruct (match_at (c :: rest)) as [after|] eqn:E.
    + apply match_at_shorter in E. simpl in *. f_equal. apply IH; lia.
    + simpl in *. apply IH; lia.
Qed.

Lemma findall_cons c rest :
  findall (c :: rest) =
  match match_at (c :: rest) with
  | Some after =>
      firstn (length (c :: rest) - length after) (c :: rest) :: findall after
  | None => findall rest
  end.
Proof.
  unfold findall. cbn [length findall_from].
  destruct (match_at (c :: rest)) as [after|] eqn:E.
  - f_equal. apply match_at_shorter in E. simpl in E.
    apply findall_from_fuel; lia.
  - reflexivity.
Qed.

Lemma findall_ind (P : text -> list text -> Prop) :
  P [] [] ->
  (forall c rest, match_at (c :: rest) = None ->
     P rest (findall rest) -> P (c :: rest) (findall rest)) ->
  (forall s after, s <> [] -> match_at (s ++ after) = Some after -> Phrase s ->
     P after (findall after) -> P (s ++ after) (s :: findall after)) ->
  forall t, P t (findall t).
Proof.
  intros Hnil Hskip Htok t.
  remember (length t) as n eqn:Hn. revert t Hn.
  induction n as [n IH] using lt_wf_ind. intros [|c rest] Hn; [exact Hnil|].
  rewrite findall_cons. destruct (match_at (c :: rest)) as [after|] eqn:E.
  - pose proof (match_at_shorter _ _ E) as Hl.
    destruct (match_at_sound _ _ E) as (s & Hs & Hp).
    assert (Hf : firstn (length (c :: rest) - length after) (c :: rest) = s).
    { rewrite Hs, length_app, Nat.add_sub.
      rewrite firstn_app, Nat.sub_diag, firstn_all. simpl. apply app_nil_r. }
    rewrite Hf. rewrite Hs in E |- *. apply Htok; auto.
    + intros ->. simpl in Hs. subst after. simpl in Hl. lia.
    + apply (IH (length after)); [subst n; lia|reflexivity].
  - apply Hskip; [exact E|]. apply (IH (length rest)); [subst n; simpl; lia|reflexivity].
Qed.

End PortsFacts.

Module FinderFacts.

Import Re ReFacts Ports PortsSpec PortsFacts.

Lemma Phrase_two_letters s after : Phrase s ->
  exists a b post, s ++ after = a :: b :: post /\
    Char.is_alpha a = true /\ Char.is_alpha b = true.
Proof.
  intros (w & ws & -> & Hw & Hw' & _).
  destruct w as [|a [|b w]]; simpl in Hw; try lia.
  simpl in Hw'. apply andb_true_iff in Hw' as [Ha Hw'].
  apply andb_true_iff in Hw' as [Hb _].
  exists a, b, ((w ++ ws) ++ after). auto.
Qed.

Lemma two_letters_cons c rest :
  two_letters (c :: rest) <->
  (exists a b post, c :: rest = a :: b :: post /\
     Char.is_alpha a = true /\ Char.is_alpha b = true) \/ two_letters rest.
Proof.
  split.
  - intros (pre & a & b & post & H & Ha & Hb). destruct pre as [|x pre].
    + left. exists a, b, post. auto.
    + right. injection H as -> ->. exists pre, a, b, post. auto.
  - intros [(a & b & post & H & Ha & Hb)|(pre & a & b & post & -> & Ha & Hb)].
    + exists [], a, b, post. auto.
    + exists (c :: pre), a, b, post. auto.
Qed.

(** There is no candidate exactly when the text has no two letters in a
    row. *)
Lemma findall_nil_iff t : findall t = [] <-> ~ two_letters t.
Proof.
  apply (findall_ind (fun t l => l = [] <-> ~ two_letters t)).
  - split; [|reflexivity]. intros _ (pre & a & b & post & H & _).
    destruct pre; discriminate.
  - intros c rest E IH. rewrite IH, two_letters_cons.
    apply match_at_none_iff in E. tauto.
  - intros s after Hne E Hp _. split; [discriminate|].
    intros H. exfalso. apply H.
    destruct (Phrase_two_letters s after Hp) as (a & b & post & -> & Ha & Hb).
    exists [], a, b, post. auto.
Qed.

Lemma findall_phrases t : forall tok,
  In tok (findall t) -> Phrase tok /\ Spec.appears tok t.
Proof.
  apply (findall_ind (fun t l => forall tok, In tok l -> Phrase tok /\ Spec.appears tok t)).
  - intros tok [].
  - intros c rest _ IH tok H. destruct (IH tok H) as [Hp (pre & post & ->)].
    split; [exact Hp|]. exists (c :: pre), post. reflexivity.
  - intros s after _ _ Hp IH tok [<-|H].
    + split; [exact Hp|]. exists [], after. reflexivity.
    + destruct (IH tok H) as [Hp' (pre & post & ->)].
      split; [exact Hp'|]. exists (s ++ pre), post. now rewrite <- app_assoc.
Qed.

(** *** The sort *)

Lemma insert_by_length_perm t l : Permutation (insert_by_length t l) (t :: l).
Proof.
  induction l as [|u l IH]; simpl; [reflexivity|].
  destruct (length t <? length u)%nat; [|reflexivity].
  rewrite IH. apply perm_swap.
Qed.

Lemma sorted_perm l : Permutation (sorted_longest_first l) l.
Proof.
  induction l as [|t l IH]; simpl; [reflexivity|].
  rewrite insert_by_length_perm. now constructor.
Qed.

Lemma longest_first_cons x l :
  longest_first l -> (forall y, In y l -> (length y <= length x)%nat) ->
  longest_first (x :: l).
Proof.
  intros Hl Hx l1 a l2 b l3 E. destruct l1 as [|z l1]; simpl in E.
  - injection E as <- ->. apply Hx. apply in_or_app. right. now left.
  - injection E as <- ->. eapply Hl. reflexivity.
Qed.

Lemma longest_first_tail x l : longest_first (x :: l) ->
  longest_first l /\ forall y, In y l -> (length y <= length x)%nat.
Proof.
  intros H. split.
  - intros l1 a l2 b l3 ->. apply (H (x :: l1) a l2 b l3). reflexivity.
  - intros y Hy. apply in_split in Hy as (l2 & l3 & ->).
    apply (H [] x l2 y l3). reflexivity.
Qed.

Lemma insert_by_length_sorted t l :
  longest_first l -> longest_first (insert_by_length t l).
Proof.
  induction l as [|u l IH]; intros H; simpl.
  - apply longest_first_cons; [exact H|intros y []].
  - destruct (longest_first_tail _ _ H) as [Hl Hu].
    destruct (length t <? length u)%nat eqn:E.
    + apply longest_first_cons; [now apply IH|].
      intros y Hy. apply (Permutation_in _ (insert_by_length_perm t l)) in Hy.
      apply Nat.ltb_lt in E. destruct Hy as [<-|Hy]; [lia|now apply Hu].
    + apply Nat.ltb_ge in E. apply longest_first_cons; [exact H|].
      intros y [<-|Hy]; [exact E|]. specialize (Hu y Hy). lia.
Qed.

Lemma sorted_longest_first_sorted l : longest_first (sorted_longest_first l).
Proof.
  induction l as [|t l IH]; simpl.
  - intros l1 x l2 y l3 E. destruct l1; discriminate.
  - now apply insert_by_length_sorted.
Qed.

Section Finder.

Variable extractOne : text -> list text -> option (text * F64.float).
Variable keys : gmap text text -> list text.

Local Abbreviation fuzzy_find_port := (Ports.fuzzy_find_port extractOne keys).
Local Abbreviation scan := (Ports.scan extractOne keys).
Local Abbreviation find_ports_in_text := (Ports.find_ports_in_text extractOne keys).

Lemma fuzzy_find_port_sound t d th c s :
  fuzzy_find_port t d th = Ok (Some (c, s)) ->
  exists key,
    extractOne (lower t) (keys d) = Some (key, s) /\ key <> [] /\
    at_least s th = true /\ d !! key = Some c.
Proof.
  unfold Ports.fuzzy_find_port.
  destruct (negb (nonempty t) || bool_decide (d = ∅)); [discriminate|].
  destruct (extractOne (lower t) (keys d)) as [[m score]|]; [|discriminate].
  destruct (nonempty m && at_least score th) eqn:E; [|discriminate].
  apply andb_true_iff in E as [Hm Hs].
  destruct (d !! m) as [code|] eqn:Hd; simpl; [|discriminate].
  intros [= -> ->]. exists m. repeat split; auto.
  intros ->. discriminate.
Qed.

Lemma fuzzy_find_port_empty t th : fuzzy_find_port t ∅ th = Ok None.
Proof.
  unfold Ports.fuzzy_find_port.
  rewrite (bool_decide_eq_true_2 _ (eq_refl (∅ : gmap text text))).
  now rewrite orb_true_r.
Qed.

Lemma fuzzy_find_port_total t d th :
  (forall q m s, extractOne q (keys d) = Some (m, s) -> is_Some (d !! m)) ->
  exists r, fuzzy_find_port t d th = Ok r.
Proof.
  intros H. unfold Ports.fuzzy_find_port.
  destruct (negb (nonempty t) || bool_decide (d = ∅)); [eauto|].
  destruct (extractOne (lower t) (keys d)) as [[m score]|] eqn:E; [|eauto].
  destruct (nonempty m && at_least score th); [|eauto].
  destruct (H _ _ _ E) as [code ->]. simpl. eauto.
Qed.

(** What the loop adds to [found]. *)
Lemma scan_spec d : forall cands found seen l,
  scan cands d found seen = Ok l ->
  (forall c, c ∈ seen <-> In c found) -> List.NoDup found ->
  List.NoDup l /\
  exists more,
    l = found ++ more /\ (length more <= length cands)%nat /\
    forall c, In c more ->
      exists tok s, In tok cands /\ fuzzy_find_port tok d 75 = Ok (Some (c, s)).
Proof.
  induction cands as [|t cands IH]; intros found seen l H Hseen Hnd; cbn [Ports.scan] in H.
  - injection H as <-. split; [exact Hnd|]. exists []. rewrite app_nil_r.
    repeat split; [simpl; lia|intros c []].
  - destruct (fuzzy_find_port t d 75) as [[[code s]|]|] eqn:E; simpl in H; [| |discriminate].
    + destruct (bool_decide (code ∈ seen)) eqn:Hin.
      * destruct (IH _ _ _ H Hseen Hnd) as (Hl & more & -> & Hlen & Hmore).
        split; [exact Hl|]. exists more. repeat split; [simpl; lia|].
        intros c Hc. destruct (Hmore c Hc) as (tok & s' & Htok & Hf).
        exists tok, s'. split; [now right|exact Hf].
      * apply bool_decide_eq_false in Hin.
        assert (Hnew : ~ In code found) by (intros Hc; apply Hin, Hseen, Hc).
        destruct (IH _ _ _ H) as (Hl & more & -> & Hlen & Hmore).
        { intros c. rewrite elem_of_union, elem_of_singleton, in_app_iff, Hseen.
          simpl. intuition. }
        { apply (Permutation_NoDup (Permutation_cons_append found code)).
          now constructor. }
        split; [exact Hl|]. exists (code :: more).
        rewrite <- app_assoc. repeat split; [simpl; lia|].
        intros c [<-|Hc].
        -- exists t, s. split; [now left|exact E].
        -- destruct (Hmore c Hc) as (tok & s' & Htok & Hf).
           exists tok, s'. split; [now right|exact Hf].
    + destruct (IH _ _ _ H Hseen Hnd) as (Hl & more & -> & Hlen & Hmore).
      split; [exact Hl|]. exists more. repeat split; [simpl; lia|].
      intros c Hc. destruct (Hmore c Hc) as (tok & s' & Htok & Hf).
      exists tok, s'. split; [now right|exact Hf].
Qed.

Lemma scan_total d : forall cands found seen,
  (forall t, In t cands -> exists r, fuzzy_find_port t d 75 = Ok r) ->
  exists l, scan cands d found seen = Ok l.
Proof.
  induction cands as [|t cands IH]; intros found seen H; cbn [Ports.scan]; [eauto|].
  destruct (H t (or_introl eq_refl)) as [r ->]. simpl.
  assert (H' : forall t', In t' cands -> exists r, fuzzy_find_port t' d 75 = Ok r)
    by (intros t' Ht; apply H; now right).
  destruct r as [[code s]|]; [destruct (bool_decide (code ∈ seen))|]; now apply IH.
Qed.

(** The first code found comes from the first candidate that matches. *)
Lemma scan_first d : forall cands c l,
  scan cands d [] ∅ = Ok (c :: l) ->
  exists l1 tok l2 s,
    cands = l1 ++ tok :: l2 /\ fuzzy_find_port tok d 75 = Ok (Some (c, s)) /\
    forall x, In x l1 -> fuzzy_find_port x d 75 = Ok None.
Proof.
  induction cands as [|t cands IH]; intros c l H; cbn [Ports.scan] in H; [discriminate|].
  destruct (fuzzy_find_port t d 75) as [[[code s]|]|] eqn:E; simpl in H; [| |discriminate].
  - rewrite bool_decide_eq_false_2 in H by apply not_elem_of_empty.
    apply scan_spec in H as (_ & more & Hl & _).
    + simpl in Hl. injection Hl as -> _.
      exists [], t, cands, s. repeat split; [exact E|intros x []].
    + intros c'. rewrite elem_of_union, elem_of_singleton. simpl. split.
      * intros [->|Hc]; [now left|now apply not_elem_of_empty in Hc].
      * intros [->|[]]. now left.
    + repeat constructor. intros [].
  - destruct (IH _ _ H) as (l1 & tok & l2 & s & -> & Hf & Hnone).
    exists (t :: l1), tok, l2, s. repeat split; [exact Hf|].
    intros x [<-|Hx]; [exact E|now apply Hnone].
Qed.

Lemma find_ports_sound t d l c :
  find_ports_in_text t d = Ok l -> In c l ->
  exists tok key score,
    In tok (findall t) /\
    extractOne (lower tok) (keys d) = Some (key, score) /\
    at_least score 75 = true /\ key <> [] /\ d !! key = Some c.
Proof.
  intros H Hc. unfold Ports.find_ports_in_text in H.
  apply scan_spec in H as (_ & more & -> & _ & Hmore);
    [|intros c'; split; [intros Hx; now apply not_elem_of_empty in Hx|intros []]
     |constructor].
  destruct (Hmore c Hc) as (tok & s & Htok & Hf).
  apply fuzzy_find_port_sound in Hf as (key & He & Hk & Hs & Hd).
  exists tok, key, s. repeat split; auto.
  apply (Permutation_in _ (sorted_perm (findall t))), Htok.
Qed.

Lemma find_ports_total t d :
  (forall q m s, extractOne q (keys d) = Some (m, s) -> In m (keys d)) ->
  (forall k, In k (keys d) -> is_Some (d !! k)) ->
  exists l, find_ports_in_text t d = Ok l.
Proof.
  intros Hchoice Hkeys. apply scan_total. intros tok _.
  apply fuzzy_find_port_total. intros q m s H. eauto.
Qed.

End Finder.

End FinderFacts.

Module MockFacts.

Import Mock.

Lemma map_keys_spec (d : gmap text text) k : In k (map_keys d) -> is_Some (d !! k).
Proof.
  unfold map_keys. intros H. apply List.in_map_iff in H as ([k' v] & <- & H).
  exists v. apply elem_of_map_to_list. now apply list_elem_of_In.
Qed.

Lemma partial_match_choice q cs m s : partial_match q cs = Some (m, s) -> In m cs.
Proof.
  unfold partial_match. generalize (F64.dec 90 0). intros sc.
  destruct (List.find _ cs) as [k|] eqn:E; [|discriminate].
  intros [= <- _]. now apply List.find_some in E.
Qed.

Lemma exact_match_choice q cs m s : exact_match q cs = Some (m, s) -> In m cs.
Proof.
  unfold exact_match. generalize (F64.dec 100 0). intros sc.
  destruct (existsb _ cs) eqn:E; [|discriminate].
  intros [= <- _]. apply existsb_exists in E as (x & Hx & E).
  apply IndexMore.text_eqb_iff in E. now subst.
Qed.

Lemma finder_values t d c :
  In c (finder t d) -> exists k, d !! k = Some c.
Proof.
  unfold finder.
  destruct (Ports.find_ports_in_text partial_match map_keys t d) as [l|] eqn:E;
    [|intros []].
  intros Hc.
  destruct (FinderFacts.find_ports_sound _ _ _ _ _ _ E Hc)
    as (_ & key & _ & _ & _ & _ & _ & H).
  eauto.
Qed.

End MockFacts.

Import Ports PortsSpec FinderFacts.

(** X5.  The candidates the port finder looks up are the phrases of the
    text: words of at least two letters with only whitespace between
    them, each a contiguous part of the text. *)
Theorem findall_candidates (t tok : text) :
  In tok (findall t) -> Phrase tok /\ Spec.appears tok t.
Proof. apply findall_phrases. Qed.

Lemma findall_candidates_witness :
  In (str "Jebel Ali") (findall (str "POL: Jebel Ali, 2 cbm")) /\
  (Phrase (str "Jebel Ali") /\
   Spec.appears (str "Jebel Ali") (str "POL: Jebel Ali, 2 cbm")).
Proof.
  assert (H : In (str "Jebel Ali") (findall (str "POL: Jebel Ali, 2 cbm")))
    by (vm_compute; auto).
  split; [exact H|]. exact (findall_candidates _ _ H).
Defined.

Section PortFinder.

Variable extractOne : text -> list text -> option (text * F64.float).
Variable keys : gmap text text -> list text.

Local Abbreviation fuzzy_find_port := (Ports.fuzzy_find_port extractOne keys).
Local Abbreviation find_ports_in_text := (Ports.find_ports_in_text extractOne keys).

(** X6.  Every code the port finder returns is the value the index holds
    for a non-empty key that the matcher chose, with a score of 75 at
    least, for the lower-cased text of one of the candidates. *)
Theorem find_ports_in_text_sound (t : text) (d : gmap text text)
    (l : list text) (c : text) :
  find_ports_in_text t d = Ok l -> In c l ->
  exists tok key score,
    In tok (findall t) /\
    extractOne (lower tok) (keys d) = Some (key, score) /\
    at_least score 75 = true /\ key <> [] /\ d !! key = Some c.
Proof. apply find_ports_sound. Qed.

(** X7.  The port finder returns no code twice, and at most one code for
    each candidate. *)
Theorem find_ports_in_text_distinct (t : text) (d : gmap text text)
    (l : list text) :
  find_ports_in_text t d = Ok l ->
  List.NoDup l /\ (length l <= length (findall t))%nat.
Proof.
  intros H. unfold Ports.find_ports_in_text in H.
  apply scan_spec in H as (Hnd & more & -> & Hlen & _);
    [|intros c'; split; [intros Hx; now apply not_elem_of_empty in Hx|intros []]
     |constructor].
  split; [exact Hnd|]. simpl.
  now rewrite (Permutation_length (sorted_perm (findall t))) in Hlen.
Qed.

(** X8.  The lookup of the matched key cannot fail, so the port finder
    returns a list, as soon as the matcher only answers with one of the
    choices it was given and these are keys of the index. *)
Theorem find_ports_in_text_total (t : text) (d : gmap text text) :
  (forall q m s, extractOne q (keys d) = Some (m, s) -> In m (keys d)) ->
  (forall k, In k (keys d) -> is_Some (d !! k)) ->
  exists l, find_ports_in_text t d = Ok l.
Proof. apply find_ports_total. Qed.

(** X9.  The first code returned, which becomes the origin, is the one of
    the longest candidate that has a match: every longer candidate has
    none.  The place of the candidates in the text plays no part. *)
Theorem find_ports_in_text_longest_first (t : text) (d : gmap text text)
    (c : text) (l : list text) :
  find_ports_in_text t d = Ok (c :: l) ->
  exists tok s,
    In tok (findall t) /\ fuzzy_find_port tok d 75 = Ok (Some (c, s)) /\
    forall tok', In tok' (findall t) -> (length tok < length tok')%nat ->
      fuzzy_find_port tok' d 75 = Ok None.
Proof.
  intros H. apply scan_first in H as (l1 & tok & l2 & s & E & Hf & Hnone).
  pose proof (sorted_perm (findall t)) as Hperm.
  pose proof (sorted_longest_first_sorted (findall t)) as Hsorted.
  rewrite E in Hperm, Hsorted.
  exists tok, s. repeat split; [|exact Hf|].
  - apply (Permutation_in _ Hperm). apply in_or_app. right. now left.
  - intros tok' Hin Hlen.
    apply (Permutation_in _ (Permutation_sym Hperm)) in Hin.
    apply in_app_or in Hin as [Hin|[<-|Hin]]; [now apply Hnone|lia|].
    apply in_split in Hin as (l3 & l4 & ->).
    specialize (Hsorted l1 tok l3 tok' l4 eq_refl). lia.
Qed.

(** X10.  A text without two letters in a row has no candidate, and an
    empty index has no match: either way the port finder returns the
    empty list, whatever the matcher would answer. *)
Theorem find_ports_in_text_nothing (t : text) (d : gmap text text) :
  ~ two_letters t \/ d = ∅ -> find_ports_in_text t d = Ok [].
Proof.
  unfold Ports.find_ports_in_text. intros [H| ->].
  - apply findall_nil_iff in H. now rewrite H.
  - generalize (sorted_longest_first (findall t)) as cands.
    induction cands as [|tok cands IH]; [reflexivity|].
    cbn [Ports.scan]. rewrite fuzzy_find_port_empty. exact IH.
Qed.

End PortFinder.

Lemma find_ports_in_text_sound_witness :
  Ports.find_ports_in_text Mock.partial_match Mock.map_keys
    (str "From Chennai, to HAMBURG.") Mock.name_index
  = Ok [str "INMAA"; str "DEHAM"] /\
  In (str "DEHAM") [str "INMAA"; str "DEHAM"] /\
  exists tok key score,
    In tok (findall (str "From Chennai, to HAMBURG.")) /\
    Mock.partial_match (lower tok) (Mock.map_keys Mock.name_index)
      = Some (key, score) /\
    at_least score 75 = true /\ key <> [] /\
    Mock.name_index !! key = Some (str "DEHAM").
Proof.
  assert (H : Ports.find_ports_in_text Mock.partial_match Mock.map_keys
    (str "From Chennai, to HAMBURG.") Mock.name_index
    = Ok [str "INMAA"; str "DEHAM"]) by (vm_compute; reflexivity).
  assert (Hin : In (str "DEHAM") [str "INMAA"; str "DEHAM"]) by (right; now left).
  split; [exact H|]. split; [exact Hin|].
  exact (find_ports_in_text_sound _ _ _ _ _ _ H Hin).
Defined.

Lemma find_ports_in_text_distinct_witness :
  Ports.find_ports_in_text Mock.partial_match Mock.map_keys
    (str "Chennai / Hamburg / chennai port") Mock.name_index
  = Ok [str "INMAA"; str "DEHAM"] /\
  List.NoDup [str "INMAA"; str "DEHAM"] /\
  (length [str "INMAA"; str "DEHAM"]
   <= length (findall (str "Chennai / Hamburg / chennai port")))%nat.
Proof.
  assert (H : Ports.find_ports_in_text Mock.partial_match Mock.map_keys
    (str "Chennai / Hamburg / chennai port") Mock.name_index
    = Ok [str "INMAA"; str "DEHAM"]) by (vm_compute; reflexivity).
  split; [exact H|]. exact (find_ports_in_text_distinct _ _ _ _ _ H).
Defined.

Lemma find_ports_in_text_total_witness :
  exists l,
    Ports.find_ports_in_text Mock.partial_match Mock.map_keys
      (str "Jebel Ali to Hamburg") Mock.name_index = Ok l.
Proof.
  apply find_ports_in_text_total.
  - intros q m s. apply MockFacts.partial_match_choice.
  - intros k. apply MockFacts.map_keys_spec.
Defined.

Lemma find_ports_in_text_longest_first_witness :
  Ports.find_ports_in_text Mock.partial_match Mock.map_keys
    (str "Hamburg - port of Chennai") Mock.name_index
  = Ok [str "INMAA"; str "DEHAM"] /\
  exists tok s,
    In tok (findall (str "Hamburg - port of Chennai")) /\
    Ports.fuzzy_find_port Mock.partial_match Mock.map_keys tok Mock.name_index 75
      = Ok (Some (str "INMAA", s)) /\
    forall tok', In tok' (findall (str "Hamburg - port of Chennai")) ->
      (length tok < length tok')%nat ->
      Ports.fuzzy_find_port Mock.partial_match Mock.map_keys tok' Mock.name_index 75
        = Ok None.
Proof.
  assert (H : Ports.find_ports_in_text Mock.partial_match Mock.map_keys
    (str "Hamburg - port of Chennai") Mock.name_index
    = Ok [str "INMAA"; str "DEHAM"]) by (vm_compute; reflexivity).
  split; [exact H|]. exact (find_ports_in_text_longest_first _ _ _ _ _ _ H).
Defined.

Lemma find_ports_in_text_nothing_witness :
  ~ two_letters (str "1 x 20' @ 3.5t") /\
  Ports.find_ports_in_text Mock.partial_match Mock.map_keys
    (str "1 x 20' @ 3.5t") Mock.name_index = Ok [].
Proof.
  assert (H : ~ two_letters (str "1 x 20' @ 3.5t"))
    by (apply findall_nil_iff; vm_compute; reflexivity).
  split; [exact H|]. apply find_ports_in_text_nothing. now left.
Defined.


(** ** The rule-based extractor, field by field *)

Module RuleFacts.

Lemma parse_incoterm_valid t w : parse_incoterm t = Some w -> In w VALID_INCOTERMS.
Proof.
  unfold parse_incoterm, parse_incoterm_in.
  destruct (negb (nonempty t)); [discriminate|].
  destruct (List.filter _ VALID_INCOTERMS) as [|first rest] eqn:E; [discriminate|].
  destruct (1 <? length (first :: rest))%nat.
  - intros [= <-]. now left.
  - intros [= <-].
    assert (H : In first (first :: rest)) by now left.
    rewrite <- E in H. now apply List.filter_In in H.
Qed.

Lemma valid_truthy w : In w VALID_INCOTERMS -> nonempty w = true.
Proof.
  intros H. repeat (destruct H as [<-|H]; [reflexivity|]). destruct H.
Qed.

(** [a or b or "FOB"] on the two parses. *)
Lemma incoterm_choice a b :
  (forall w, a = Some w -> In w VALID_INCOTERMS) ->
  (forall w, b = Some w -> In w VALID_INCOTERMS) ->
  exists i,
    or_text (or_text a b) (Some (str "FOB")) = Some i /\ In i VALID_INCOTERMS /\
    (forall w, a = Some w -> i = w) /\
    (a = None -> forall w, b = Some w -> i = w) /\
    (a = None -> b = None -> i = str "FOB").
Proof.
  intros Ha Hb. destruct a as [wa|].
  - pose proof (Ha wa eq_refl) as Hin. pose proof (valid_truthy wa Hin) as Hne.
    exists wa. unfold or_text. rewrite Hne, Hne.
    repeat split; auto; try discriminate. now intros w [= ->].
  - destruct b as [wb|].
    + pose proof (Hb wb eq_refl) as Hin. pose proof (valid_truthy wb Hin) as Hne.
      exists wb. unfold or_text. rewrite Hne.
      repeat split; auto; try discriminate. now intros _ w [= ->].
    + exists (str "FOB"). split; [reflexivity|]. split; [now left|].
      repeat split; discriminate.
Qed.

Section Rule.

Variable find_ports_in_text : text -> gmap text text -> list text.

Local Abbreviation rule_extract' := (rule_extract find_ports_in_text).

(** The raw record, written out. *)
Lemma rule_extract_eq (e : email) (idx c2n : gmap text text) :
  exists wb ws cb cs,
    parse_weight_kg (e_body e) = Ok wb /\ parse_weight_kg (e_subject e) = Ok ws /\
    parse_cbm (e_body e) = Ok cb /\ parse_cbm (e_subject e) = Ok cs /\
    rule_extract' e idx c2n =
    let ports := or_list (find_ports_in_text (e_body e) idx)
                         (find_ports_in_text (e_subject e) idx) in
    let origin := nth_error ports 0 in
    let dest := nth_error ports 1 in
    Ok (Raw (Some (e_id e))
            (Some (opt_text_val (choose_product_line origin dest)))
            (Some (opt_text_val origin))
            (Some (opt_text_val (lookup_name c2n origin)))
            (Some (opt_text_val dest))
            (Some (opt_text_val (lookup_name c2n dest)))
            (Some (opt_text_val
               (or_text (or_text (parse_incoterm (e_body e))
                                 (parse_incoterm (e_subject e)))
                        (Some (str "FOB")))))
            (Some (opt_float_val (or_float wb ws)))
            (Some (opt_float_val (or_float cb cs)))
            (Some (PBool (detect_dangerous
                            (Some (e_subject e ++ nl ++ e_body e)))))).
Proof.
  destruct (parse_cbm_total (e_body e)) as [cb Hcb].
  destruct (parse_cbm_total (e_subject e)) as [cs Hcs].
  destruct (parse_weight_kg_total (e_body e)) as [wb Hwb].
  destruct (parse_weight_kg_total (e_subject e)) as [ws Hws].
  exists wb, ws, cb, cs. repeat (split; [assumption|]).
  unfold rule_extract. cbv zeta.
  set (ports := or_list _ _).
  assert (Ho : (if (1 <=? length ports)%nat then nth_error ports 0 else None)
               = nth_error ports 0) by (destruct ports; reflexivity).
  assert (Hd : (if (2 <=? length ports)%nat then nth_error ports 1 else None)
               = nth_error ports 1) by (destruct ports as [|? [|? ?]]; reflexivity).
  rewrite Ho, Hd. clearbody ports. clear Ho Hd.
  rewrite Hcb, Hcs, Hwb, Hws. cbn [res_bind].
  destruct cb as [xc|], wb as [xw|]; cbn [or_float res_bind];
    try destruct (F64.truthy xc) eqn:Ec; try destruct (F64.truthy xw) eqn:Ew;
    cbn [or_float res_bind]; rewrite ?Ec, ?Ew; reflexivity.
Qed.

End Rule.

End RuleFacts.

Import RuleFacts.


(** X12.  The ports come from the body alone as soon as the body yields
    one: the origin is its first port and the destination its second, or
    null when it has no second, whatever the subject names.  Only when
    the body yields none are the ports of the subject used. *)
Theorem rule_extract_ports_body_first
    (find_ports_in_text : text -> gmap text text -> list text)
    (e : email) (idx c2n : gmap text text) :
  exists raw,
    rule_extract find_ports_in_text e idx c2n = Ok raw /\
    (forall c rest, find_ports_in_text (e_body e) idx = c :: rest ->
       raw_origin_port_code raw = Some (PStr c) /\
       raw_destination_port_code raw = Some (opt_text_val (head rest))) /\
    (find_ports_in_text (e_body e) idx = [] ->
       raw_origin_port_code raw =
         Some (opt_text_val (nth_error (find_ports_in_text (e_subject e) idx) 0)) /\
       raw_destination_port_code raw =
         Some (opt_text_val (nth_error (find_ports_in_text (e_subject e) idx) 1))).
Proof.
  destruct (rule_extract_eq find_ports_in_text e idx c2n)
    as (wb & ws & cb & cs & _ & _ & _ & _ & ->).
  cbv zeta. eexists. split; [reflexivity|].
  cbn [raw_origin_port_code raw_destination_port_code]. split.
  - intros c rest ->. cbn [or_list nth_error]. split; [reflexivity|].
    now destruct rest.
  - intros ->. cbn [or_list]. auto.
Qed.

(** X13.  With the two indexes built from one reference, and a port
    finder that only returns values of the name index, a port code of the
    record always comes with its name: the name is null only when the
    code is. *)
Theorem rule_extract_names_resolved
    (find_ports_in_text : text -> gmap text text -> list text)
    (ref : list port_entry) (e : email) (raw : raw_record) :
  (forall t c, In c (find_ports_in_text t (fst (build_port_index ref))) ->
     exists k, fst (build_port_index ref) !! k = Some c) ->
  rule_extract find_ports_in_text e (fst (build_port_index ref))
    (snd (build_port_index ref)) = Ok raw ->
  (raw_origin_port_code raw = Some PNone /\ raw_origin_port_name raw = Some PNone \/
   exists c n,
     raw_origin_port_code raw = Some (PStr c) /\
     raw_origin_port_name raw = Some (PStr n) /\
     n <> [] /\ snd (build_port_index ref) !! c = Some n) /\
  (raw_destination_port_code raw = Some PNone /\
   raw_destination_port_name raw = Some PNone \/
   exists c n,
     raw_destination_port_code raw = Some (PStr c) /\
     raw_destination_port_name raw = Some (PStr n) /\
     n <> [] /\ snd (build_port_index ref) !! c = Some n).
Proof.
  intros Hfp H.
  destruct (rule_extract_eq find_ports_in_text e (fst (build_port_index ref))
              (snd (build_port_index ref)))
    as (wb & ws & cb & cs & _ & _ & _ & _ & E).
  rewrite E in H. cbv zeta in H. injection H as <-.
  cbn [raw_origin_port_code raw_origin_port_name
       raw_destination_port_code raw_destination_port_name].
  set (ports := or_list _ _).
  assert (Hports : forall c, In c ports ->
            c <> [] /\ exists n, n <> [] /\ snd (build_port_index ref) !! c = Some n).
  { intros c Hc.
    assert (Hk : exists k, fst (build_port_index ref) !! k = Some c).
    { subst ports. unfold or_list in Hc.
      destruct (find_ports_in_text (e_body e) _) eqn:Eb.
      - eapply Hfp, Hc.
      - eapply Hfp. rewrite Eb. exact Hc. }
    destruct Hk as [k Hk]. exact (IndexMore.codes_resolve ref k c Hk). }
  assert (Hone : forall o, (forall c, o = Some c -> In c ports) ->
            opt_text_val o = PNone /\
            opt_text_val (lookup_name (snd (build_port_index ref)) o) = PNone \/
            exists c n,
              opt_text_val o = PStr c /\
              opt_text_val (lookup_name (snd (build_port_index ref)) o) = PStr n /\
              n <> [] /\ snd (build_port_index ref) !! c = Some n).
  { intros [c|] Ho; [|now left]. right.
    destruct (Hports c (Ho c eq_refl)) as (Hne & n & Hn & Hl).
    exists c, n. cbn [opt_text_val lookup_name].
    destruct c; [contradiction|]. cbn [nonempty]. rewrite Hl. auto. }
  split.
  - destruct (Hone (nth_error ports 0)) as [[H1 H2]|(c & n & H1 & H2 & Hn & Hl)].
    + intros c Hc. eapply nth_error_In, Hc.
    + left. split; f_equal; assumption.
    + right. exists c, n. repeat split; try assumption; f_equal; assumption.
  - destruct (Hone (nth_error ports 1)) as [[H1 H2]|(c & n & H1 & H2 & Hn & Hl)].
    + intros c Hc. eapply nth_error_In, Hc.
    + left. split; f_equal; assumption.
    + right. exists c, n. repeat split; try assumption; f_equal; assumption.
Qed.

Lemma rule_extract_names_resolved_witness :
  res_map raw_origin_port_name
    (rule_extract Mock.finder
       (Email (str "EMAIL_001") (str "Hamburg to Jebel Ali") (str "POL: Chennai"))
       (fst (build_port_index Mock.reference))
       (snd (build_port_index Mock.reference)))
  = Ok (Some (PStr (str "Chennai"))) /\
  exists raw,
    rule_extract Mock.finder
      (Email (str "EMAIL_001") (str "Hamburg to Jebel Ali") (str "POL: Chennai"))
      (fst (build_port_index Mock.reference))
      (snd (build_port_index Mock.reference)) = Ok raw /\
    (raw_origin_port_code raw = Some PNone /\ raw_origin_port_name raw = Some PNone \/
     exists c n,
       raw_origin_port_code raw = Some (PStr c) /\
       raw_origin_port_name raw = Some (PStr n) /\
       n <> [] /\ snd (build_port_index Mock.reference) !! c = Some n) /\
    (raw_destination_port_code raw = Some PNone /\
     raw_destination_port_name raw = Some PNone \/
     exists c n,
       raw_destination_port_code raw = Some (PStr c) /\
       raw_destination_port_name raw = Some (PStr n) /\
       n <> [] /\ snd (build_port_index Mock.reference) !! c = Some n).
Proof.
  split; [vm_compute; reflexivity|].
  destruct (ExtractFacts.rule_extract_total Mock.finder
              (Email (str "EMAIL_001") (str "Hamburg to Jebel Ali") (str "POL: Chennai"))
              (fst (build_port_index Mock.reference))
              (snd (build_port_index Mock.reference))) as [raw H].
  exists raw. split; [exact H|].
  refine (rule_extract_names_resolved Mock.finder Mock.reference
            (Email (str "EMAIL_001") (str "Hamburg to Jebel Ali") (str "POL: Chennai"))
            raw _ H).
  intros t c. apply MockFacts.finder_values.
Defined.

(** ** What the schema guarantees of every record it lets through *)

Section SchemaFacts.

Variable validate_str : pyval -> res text.
Variable validate_float : pyval -> res F64.float.
Variable validate_bool : pyval -> res bool.
Variable py_str : pyval -> text.

Hypothesis validate_str_str : forall s, validate_str (PStr s) = Ok s.
Hypothesis validate_float_float : forall x, validate_float (PFloat x) = Ok x.

Local Abbreviation validate' := (validate validate_str validate_float validate_bool py_str).

Ltac bind_step H :=
  match type of H with
  | res_bind ?m _ = Ok _ =>
      let E := fresh "E" in destruct m eqn:E; cbn [res_bind] in H; [|discriminate H]
  end.

Lemma norm_incoterm_normal v s :
  norm_incoterm py_str v = Some s ->
  s <> [] /\ upper s = s /\ strip s = s.
Proof.
  assert (H : forall t, (if nonempty (upper (strip t)) then Some (upper (strip t)) else None)
                        = Some s -> s <> [] /\ upper s = s /\ strip s = s).
  { intros t. destruct (nonempty (upper (strip t))) eqn:E; [|discriminate].
    intros [= <-]. split; [intros E'; now rewrite E' in E|].
    split; [apply upper_idem|].
    now rewrite StripFacts.strip_upper, StripFacts.strip_idem. }
  unfold norm_incoterm. destruct v; try discriminate; apply H.
Qed.

Lemma round_weight_normal v x : round_weight v = Some x -> F64.round2 x = x.
Proof.
  unfold round_weight. destruct v; try discriminate;
    (destruct (py_float _) as [y|]; [|discriminate];
     intros [= <-]; apply FloatFacts.round2_idem).
Qed.

Lemma round_cbm_normal v x : round_cbm v = Some x -> F64.round2 x = x.
Proof.
  unfold round_cbm. destruct v; try discriminate;
    (destruct (py_float _) as [y|]; [|discriminate];
     intros [= <-]; apply FloatFacts.round2_idem).
Qed.

(** X14.  Whatever the keyword arguments, rule-based or written by the
    LLM, a record that passes the schema has an incoterm that is null or
    a non-empty, trimmed, upper-case string, and a weight and a volume
    that are null or already rounded to two decimals. *)
Theorem validate_normal_form (raw : raw_record) (r : ExtractionResult) :
  validate' raw = Ok r ->
  (forall s, incoterm r = Some s -> s <> [] /\ upper s = s /\ strip s = s) /\
  (forall x, cargo_weight_kg r = Some x -> F64.round2 x = x) /\
  (forall x, cargo_cbm r = Some x -> F64.round2 x = x).
Proof.
  intros H. unfold validate in H.
  do 10 bind_step H. injection H as <-.
  cbn [incoterm cargo_weight_kg cargo_cbm].
  rewrite (optional_text validate_str validate_str_str) in E5. injection E5 as <-.
  rewrite (optional_float validate_float validate_float_float) in E6. injection E6 as <-.
  rewrite (optional_float validate_float validate_float_float) in E7. injection E7 as <-.
  split; [|split].
  - intros s. apply norm_incoterm_normal.
  - intros x. apply round_weight_normal.
  - intros x. apply round_cbm_normal.
Qed.

End SchemaFacts.

Lemma validate_normal_form_witness :
  validate Env.strict_str Env.strict_float Env.strict_bool Env.plain_str
    (Raw (Some (PStr (str "EMAIL_007"))) None None None None None
         (Some (PStr (str "  cif ")))
         (Some (PStr (str "12.345"))) (Some (PInt 3)) None)
  = Ok (Result (str "EMAIL_007") None None None None None
          (Some (str "CIF")) (Some (F64.dec 1235 2)) (Some (F64.dec 3 0)) false) /\
  (forall s, Some (str "CIF") = Some s -> s <> [] /\ upper s = s /\ strip s = s) /\
  (forall x, Some (F64.dec 1235 2) = Some x -> F64.round2 x = x) /\
  (forall x, Some (F64.dec 3 0) = Some x -> F64.round2 x = x).
Proof.
  assert (H : validate Env.strict_str Env.strict_float Env.strict_bool Env.plain_str
    (Raw (Some (PStr (str "EMAIL_007"))) None None None None None
         (Some (PStr (str "  cif ")))
         (Some (PStr (str "12.345"))) (Some (PInt 3)) None)
  = Ok (Result (str "EMAIL_007") None None None None None
          (Some (str "CIF")) (Some (F64.dec 1235 2)) (Some (F64.dec 3 0)) false))
    by (vm_compute; reflexivity).
  split; [exact H|].
  exact (validate_normal_form Env.strict_str Env.strict_float Env.strict_bool
           Env.plain_str (fun s => eq_refl) (fun x => eq_refl) _ _ H).
Defined.

(** ** The rule-based mode end to end *)

Section MockModeFacts.

Variable find_ports_in_text : text -> gmap text text -> list text.
Variable call_llm : text -> res (option text).
Variable json_loads : text -> res raw_record.
Variable validate_str : pyval -> res text.
Variable validate_float : pyval -> res F64.float.
Variable validate_bool : pyval -> res bool.
Variable py_str : pyval -> text.

Hypothesis validate_str_str : forall s, validate_str (PStr s) = Ok s.
Hypothesis validate_float_float : forall x, validate_float (PFloat x) = Ok x.
Hypothesis validate_bool_bool : forall b, validate_bool (PBool b) = Ok b.
Hypothesis py_str_str : forall s, py_str (PStr s) = s.

Local Abbreviation validate' := (validate validate_str validate_float validate_bool py_str).
Local Abbreviation try_extract' :=
  (try_extract find_ports_in_text call_llm json_loads
     validate_str validate_float validate_bool py_str).
Local Abbreviation process' :=
  (process find_ports_in_text call_llm json_loads
     validate_str validate_float validate_bool py_str).
Local Abbreviation loop' :=
  (loop find_ports_in_text call_llm json_loads
     validate_str validate_float validate_bool py_str).
Local Abbreviation main' :=
  (main find_ports_in_text call_llm json_loads
     validate_str validate_float validate_bool py_str).

Lemma valid_upper_strip i : In i VALID_INCOTERMS -> upper (strip i) = i.
Proof.
  intros H. repeat (destruct H as [<-|H]; [vm_compute; reflexivity|]). destruct H.
Qed.

Lemma norm_incoterm_valid i :
  In i VALID_INCOTERMS -> norm_incoterm py_str (PStr i) = Some i.
Proof.
  intros H. unfold norm_incoterm.
  rewrite py_str_str, (valid_upper_strip i H), (RuleFacts.valid_truthy i H).
  reflexivity.
Qed.

Lemma round_weight_float o : round_weight (opt_float_val o) = option_map F64.round2 o.
Proof. now destruct o. Qed.

Lemma round_cbm_float o : round_cbm (opt_float_val o) = option_map F64.round2 o.
Proof. now destruct o. Qed.

(** In the rule-based mode the body of the [try] never raises on an
    email whose id is a string. *)
Lemma try_extract_mock (e : email) (idx c2n : gmap text text) :
  (exists i, e_id e = PStr i) ->
  try_extract' true e idx c2n = Ok (RulesSpec.record find_ports_in_text idx c2n e).
Proof.
  intros [i0 Hid]. unfold try_extract.
  destruct (rule_extract_eq find_ports_in_text e idx c2n)
    as (wb & ws & cb & cs & Hwb & Hws & Hcb & Hcs & ->).
  destruct (incoterm_choice (parse_incoterm (e_body e)) (parse_incoterm (e_subject e))
              (parse_incoterm_valid _) (parse_incoterm_valid _))
    as (i & Hi & Hin & _).
  unfold RulesSpec.record, RulesSpec.id_text. rewrite Hwb, Hws, Hcb, Hcs, Hi, Hid. cbv zeta.
  cbn [res_bind RulesSpec.parsed]. unfold validate.
  cbn [raw_id raw_product_line raw_origin_port_code raw_origin_port_name
       raw_destination_port_code raw_destination_port_name raw_incoterm
       raw_cargo_weight_kg raw_cargo_cbm raw_is_dangerous given opt_text_val].
  rewrite (norm_incoterm_valid i Hin), round_weight_float, round_cbm_float.
  rewrite validate_str_str, validate_bool_bool.
  rewrite !(optional_text validate_str validate_str_str).
  rewrite !(optional_float validate_float validate_float_float).
  reflexivity.
Qed.

Lemma loop_mock (idx c2n : gmap text text) (emails : list email) :
  Forall (fun e => exists i, e_id e = PStr i) emails ->
  forall outputs,
    loop' true idx c2n emails outputs =
    Ok (outputs ++ List.map (RulesSpec.record find_ports_in_text idx c2n) emails).
Proof.
  induction 1 as [|e emails Hid _ IH]; intros outputs; cbn [loop List.map].
  - now rewrite app_nil_r.
  - unfold process. rewrite (try_extract_mock e idx c2n Hid). cbn [res_bind].
    rewrite IH, <- app_assoc. reflexivity.
Qed.


End MockModeFacts.



(** ** The JSON block taken out of the answer of the LLM *)

Module JsonFacts.

Import Re ReFacts JsonSpec.

Lemma last_close_iff rest r :
  last_close rest = Some r <->
  exists b, rest = b ++ close_brace :: r /\ ~ In close_brace r.
Proof.
  revert r. induction rest as [|c rest IH]; intros r; cbn [last_close].
  - split; [discriminate|]. intros (b & H & _). destruct b; discriminate.
  - destruct (last_close rest) as [x|] eqn:E.
    + destruct (proj1 (IH x) eq_refl) as (b & -> & Hx). split.
      * intros [= <-]. exists (c :: b). auto.
      * intros (b' & H & Hr). f_equal.
        destruct b' as [|c' b'].
        -- injection H as -> <-. exfalso. apply Hr.
           apply in_or_app. right. now left.
        -- injection H as -> H.
           assert (H' : Some x = Some r) by (apply IH; eauto).
           congruence.
    + split.
      * destruct (Char.eqb close_brace c) eqn:Ec; [|discriminate].
        apply CharFacts.eqb_eq in Ec. subst c. intros [= <-].
        exists []. split; [reflexivity|].
        intros Hin. apply in_split in Hin as (l1 & l2 & ->).
        clear IH. revert E. generalize l2. clear.
        induction l1 as [|a l1 IH]; intros l2; cbn [last_close app].
        -- destruct (last_close l2); [discriminate|].
           now rewrite CharFacts.eqb_refl.
        -- destruct (last_close (l1 ++ close_brace :: l2)) eqn:E; [discriminate|].
           now apply IH in E.
      * intros (b & H & Hr). destruct b as [|c' b].
        -- injection H as -> <-. now rewrite CharFacts.eqb_refl.
        -- injection H as -> H.
           assert (H' : None = Some r) by (apply IH; eauto).
           discriminate.
Qed.

Lemma last_close_none_iff rest : last_close rest = None <-> ~ In close_brace rest.
Proof.
  induction rest as [|c rest IH]; cbn [last_close].
  - split; [intros _ []|reflexivity].
  - destruct (last_close rest) as [x|].
    + split; [discriminate|]. intros H. exfalso. apply H. right.
      destruct (In_dec ascii_dec close_brace rest) as [Hin|Hn]; [exact Hin|].
      now apply IH in Hn.
    + destruct (Char.eqb close_brace c) eqn:Ec.
      * apply CharFacts.eqb_eq in Ec. split; [discriminate|].
        intros H. exfalso. apply H. now left.
      * split; [|reflexivity]. intros _ [->|Hin].
        -- now rewrite CharFacts.eqb_refl in Ec.
        -- now apply (proj1 IH eq_refl).
Qed.

(** The greedy [[\s\S]*] followed by the closing brace stops at the last
    closing brace. *)
Lemma rep_any_close {A} (f : text -> A) rest : forall prev,
  rep_greedy (fun _ => true) 0 prev rest
    (fun _ rest' =>
       match rest' with
       | d :: r => if Char.eqb close_brace d then Some (f r) else None
       | [] => None
       end) =
  option_map f (last_close rest).
Proof.
  induction rest as [|c rest IH]; intros prev; cbn [rep_greedy last_close].
  - reflexivity.
  - cbn [pred Nat.eqb]. rewrite IH.
    destruct (last_close rest) as [x|]; cbn [option_map]; [reflexivity|].
    now destruct (Char.eqb close_brace c).
Qed.

(** The match of the pattern at the start of [rest]. *)
Lemma run_json prev rest :
  run false json_re prev rest None accept =
  match rest with
  | d :: rest1 =>
      if Char.eqb open_brace d then
        option_map
          (fun r => Some (firstn (length rest - length r) rest))
          (last_close rest1)
      else None
  | [] => None
  end.
Proof.
  destruct rest as [|d rest1]; [reflexivity|].
  unfold json_re. cbn [run Char.eq_flag].
  change (Char.eqb "{" d) with (Char.eqb open_brace d).
  destruct (Char.eqb open_brace d); [|reflexivity].
  apply (rep_any_close (fun r => Some (firstn (length (d :: rest1) - length r) (d :: rest1)))).
Qed.

Lemma search_json_none rest : forall prev,
  ~ In close_brace rest -> search_from false json_re prev rest = None.
Proof.
  induction rest as [|c rest IH]; intros prev H; cbn [search_from]; rewrite run_json.
  - reflexivity.
  - assert (Hr : ~ In close_brace rest) by (intros Hin; apply H; now right).
    rewrite (proj2 (last_close_none_iff rest) Hr). cbn [option_map].
    destruct (Char.eqb open_brace c); now apply IH.
Qed.

Lemma firstn_block b r :
  firstn (length (open_brace :: b ++ close_brace :: r) - length r)
         (open_brace :: b ++ close_brace :: r) =
  open_brace :: b ++ [close_brace].
Proof.
  replace (open_brace :: b ++ close_brace :: r)
    with ((open_brace :: b ++ [close_brace]) ++ r)
    by (simpl; now rewrite <- app_assoc).
  rewrite length_app, Nat.add_sub, firstn_app, Nat.sub_diag, firstn_all.
  simpl. now rewrite app_nil_r.
Qed.

(** The block runs from the first opening brace to the last closing
    brace of the text. *)
Lemma search_json_iff rest : forall prev g,
  search_from false json_re prev rest = Some (Some g) <->
  exists a b c,
    rest = a ++ open_brace :: b ++ close_brace :: c /\
    ~ In open_brace a /\ ~ In close_brace c /\
    g = open_brace :: b ++ [close_brace].
Proof.
  induction rest as [|x rest IH]; intros prev g; cbn [search_from]; rewrite run_json.
  - split; [discriminate|]. intros (a & b & c & H & _). destruct a; discriminate.
  - destruct (Char.eqb open_brace x) eqn:Ex.
    + apply CharFacts.eqb_eq in Ex. subst x.
      destruct (last_close rest) as [r|] eqn:E; cbn [option_map].
      * apply last_close_iff in E as (b & -> & Hr). rewrite firstn_block. split.
        -- intros [= <-]. exists [], b, r. auto.
        -- intros (a & b' & c & H & Ha & Hc & ->).
           destruct a as [|y a]; [|exfalso; injection H as <- _; apply Ha; now left].
           injection H as H.
           assert (H1 : last_close (b ++ close_brace :: r) = Some r)
             by (apply last_close_iff; eauto).
           assert (H2 : last_close (b ++ close_brace :: r) = Some c)
             by (rewrite H; apply last_close_iff; eauto).
           assert (c = r) by congruence. subst c.
           apply app_inv_tail in H. now subst.
      * apply last_close_none_iff in E.
        rewrite (search_json_none rest (Some open_brace) E). split; [discriminate|].
        intros (a & b & c & H & Ha & _). exfalso. apply E.
        destruct a as [|y a].
        -- injection H as ->. apply in_or_app. right. now left.
        -- injection H as _ ->.
           apply in_or_app. right. right. apply in_or_app. right. now left.
    + rewrite IH. split.
      * intros (a & b & c & -> & Ha & Hc & ->). exists (x :: a), b, c.
        repeat split; auto. intros [Hx|Hin]; [|contradiction].
        now rewrite Hx, CharFacts.eqb_refl in Ex.
      * intros (a & b & c & H & Ha & Hc & ->).
        destruct a as [|y a].
        -- injection H as Hx _. now rewrite Hx, CharFacts.eqb_refl in Ex.
        -- injection H as <- ->. exists a, b, c. repeat split; auto.
           intros Hin. apply Ha. now right.
Qed.

End JsonFacts.

(** X16.  The block handed to [json.loads] runs from the first opening
    brace of the answer to its last closing brace; and the rules are
    fallen back on exactly when the answer has no opening brace with a
    closing brace somewhere after it. *)
Theorem json_block_extent (resp : text) :
  (forall g,
     Re.group1 false json_re resp = Some g <->
     exists a b c,
       resp = a ++ "{"%char :: b ++ "}"%char :: c /\
       ~ In "{"%char a /\ ~ In "}"%char c /\
       g = "{"%char :: b ++ ["}"%char]) /\
  (Re.group1 false json_re resp = None <->
   ~ exists a b c, resp = a ++ "{"%char :: b ++ "}"%char :: c).
Proof.
  split.
  - intros g. unfold Re.group1, Re.search.
    rewrite <- (JsonFacts.search_json_iff resp None g).
    destruct (Re.search_from false json_re None resp) as [[g'|]|];
      split; congruence.
  - rewrite (ReFacts.group1_none_iff false json_re resp eq_refl).
    unfold Re.Occurs. split; intros H H'; apply H.
    + destruct H' as (a & b & c & ->).
      exists a, ("{"%char :: b ++ ["}"%char]), c. split.
      * simpl. now rewrite <- app_assoc.
      * unfold json_re. constructor.
        apply (Re.M_Seq false _ _ _ ["{"%char] (b ++ ["}"%char])).
        -- constructor. apply CharFacts.eqb_refl.
        -- apply (Re.M_Seq false _ _ _ b ["}"%char]).
           ++ constructor; [simpl; lia|]. now apply forallb_forall.
           ++ constructor. apply CharFacts.eqb_refl.
    + destruct H' as (pre & s & post & -> & HM).
      unfold json_re in HM. inversion HM as [| | | | | | | | | |r p0 s0 po HS]; subst.
      apply WeightFacts.Matches_Seq_inv in HS as (s1 & s2 & -> & H1 & H2).
      apply WeightFacts.Matches_Chr_inv in H1 as (d & -> & Hd).
      apply WeightFacts.Matches_Seq_inv in H2 as (s3 & s4 & -> & _ & H4).
      apply WeightFacts.Matches_Chr_inv in H4 as (d' & -> & Hd').
      apply CharFacts.eqb_eq in Hd, Hd'. subst d d'.
      exists pre, s3, post. simpl. now rewrite <- !app_assoc.
Qed.


(** ** The numbers the parsers return *)

Module SignFacts.

Import F64 FloatSpec.
Local Open Scope Z_scope.

Lemma of_ratio_nonneg n d : nonneg (of_ratio false n d) = true.
Proof.
  unfold of_ratio.
  destruct (if (rne_div _ _ =? 2 ^ prec) then 2 ^ (prec - 1) else rne_div _ _);
    try reflexivity.
  now destruct (_ <=? _).
Qed.

Lemma shr_1_nonneg mrs : 0 <= shr_m mrs -> 0 <= shr_m (shr_1 mrs).
Proof.
  destruct mrs as [m r s]. simpl. intros H.
  destruct m as [|[p|p|]|p]; simpl; lia.
Qed.

Lemma iter_shr_1_nonneg p : forall mrs,
  0 <= shr_m mrs -> 0 <= shr_m (SpecFloat.iter_pos shr_1 p mrs).
Proof.
  induction p as [p IH|p IH|]; intros mrs H; simpl.
  - apply IH, IH, shr_1_nonneg, H.
  - apply IH, IH, H.
  - apply shr_1_nonneg, H.
Qed.

Lemma shr_fexp_nonneg m e l :
  0 <= m -> 0 <= shr_m (fst (shr_fexp prec emax m e l)).
Proof.
  intros H. unfold shr_fexp, shr.
  assert (H0 : 0 <= shr_m (shr_record_of_loc m l)) by (destruct l as [|[]]; exact H).
  destruct (_ - e); simpl; auto. now apply iter_shr_1_nonneg.
Qed.

Lemma round_nearest_even_nonneg m l : 0 <= m -> 0 <= round_nearest_even m l.
Proof.
  intros H. destruct l as [|[]]; simpl; try lia. destruct (Z.even m); lia.
Qed.

Lemma binary_round_aux_nonneg m e l :
  0 <= m -> nonneg (binary_round_aux prec emax false m e l) = true.
Proof.
  intros H. unfold binary_round_aux.
  pose proof (shr_fexp_nonneg m e l H) as H1.
  destruct (shr_fexp prec emax m e l) as [mrs' e']. simpl in H1.
  pose proof (shr_fexp_nonneg _ e' loc_Exact
                (round_nearest_even_nonneg _ (loc_of_shr_record mrs') H1)) as H2.
  destruct (shr_fexp prec emax _ e' loc_Exact) as [mrs'' e'']. simpl in H2.
  destruct (shr_m mrs''); [reflexivity| |lia].
  now destruct (_ <=? _).
Qed.

(** A product by a positive finite constant stays non-negative. *)
Lemma mul_nonneg x m e :
  nonneg x = true -> nonneg (mul x (S754_finite false m e)) = true.
Proof.
  unfold mul. destruct x as [s|s| |s mx ex]; simpl; try discriminate;
    destruct s; try discriminate; intros _; try reflexivity.
  now apply binary_round_aux_nonneg.
Qed.

Lemma numeral_value_nonneg ip fp : nonneg (Spec.numeral_value ip fp) = true.
Proof. apply of_ratio_nonneg. Qed.

Import Re ReFacts.

Lemma parse_cbm_cascade t :
  parse_cbm t =
  match group1 true cbm_re t with
  | Some g => let* v := group_value g in Ok (Some v)
  | None => Ok None
  end.
Proof.
  unfold parse_cbm. destruct t; [|reflexivity].
  simpl negb. cbv iota. now vm_compute (group1 true cbm_re []).
Qed.

Lemma parse_cbm_nonneg t v : parse_cbm t = Ok (Some v) -> nonneg v = true.
Proof.
  rewrite parse_cbm_cascade.
  destruct (group1 true cbm_re t) as [g|] eqn:E; [|discriminate].
  destruct (NumeralFacts.quantity_group_numeral _ _ _ _ (group1_sound _ _ _ _ E))
    as (ip & fp & Hnum).
  rewrite (NumeralFacts.group_value_numeral ip fp g Hnum). simpl.
  intros [= <-]. apply numeral_value_nonneg.
Qed.

Lemma parse_weight_kg_nonneg t w : parse_weight_kg t = Ok (Some w) -> nonneg w = true.
Proof.
  rewrite WeightFacts.parse_weight_kg_cascade.
  destruct (group1 true kg_re t) as [g|] eqn:E1.
  { destruct (NumeralFacts.quantity_group_numeral _ _ _ _ (group1_sound _ _ _ _ E1))
      as (ip & fp & Hnum).
    rewrite (NumeralFacts.group_value_numeral ip fp g Hnum). simpl.
    intros [= <-]. apply numeral_value_nonneg. }
  destruct (group1 true tonne_re t) as [g|] eqn:E2.
  { destruct (NumeralFacts.quantity_group_numeral _ _ _ _ (group1_sound _ _ _ _ E2))
      as (ip & fp & Hnum).
    rewrite (NumeralFacts.group_value_numeral ip fp g Hnum). simpl.
    intros [= <-]. apply mul_nonneg, numeral_value_nonneg. }
  destruct (group1 true lb_re t) as [g|] eqn:E3.
  { destruct (NumeralFacts.quantity_group_numeral _ _ _ _ (group1_sound _ _ _ _ E3))
      as (ip & fp & Hnum).
    rewrite (NumeralFacts.group_value_numeral ip fp g Hnum). simpl.
    intros [= <-]. apply mul_nonneg, numeral_value_nonneg. }
  destruct (found false zero_re t); [intros [= <-]; reflexivity|].
  destruct (found true placeholder_re t); discriminate.
Qed.

End SignFacts.

Import Re ReFacts.


(** X18.  The two numeric parsers never raise, although [float] is
    called outside any [try]: it is only given what the number pattern
    matched.  And what they return is never negative and never NaN: it is
    null, zero, a positive number or plus infinity. *)
Theorem numeric_parsers_safe (t : text) :
  (exists w, parse_weight_kg t = Ok w /\
     forall x, w = Some x -> FloatSpec.nonneg x = true) /\
  (exists v, parse_cbm t = Ok v /\
     forall x, v = Some x -> FloatSpec.nonneg x = true).
Proof.
  split.
  - destruct (parse_weight_kg_total t) as [w Hw]. exists w. split; [exact Hw|].
    intros x ->. eapply SignFacts.parse_weight_kg_nonneg, Hw.
  - destruct (parse_cbm_total t) as [v Hv]. exists v. split; [exact Hv|].
    intros x ->. eapply SignFacts.parse_cbm_nonneg, Hv.
Qed.


(** ** The parsers do not tell the case of a letter *)

Module CaseFacts.

Import Re ReFacts CaseSpec.

Lemma to_lower_to_upper c : Char.to_lower (Char.to_upper c) = Char.to_lower c.
Proof. CharFacts.by_cases c. Qed.

Lemma to_upper_to_lower c : Char.to_upper (Char.to_lower c) = Char.to_upper c.
Proof. CharFacts.by_cases c. Qed.

Lemma is_digit_to_upper c : Char.is_digit (Char.to_upper c) = Char.is_digit c.
Proof. CharFacts.by_cases c. Qed.

Lemma is_dot_comma_to_upper c : is_dot_comma (Char.to_upper c) = is_dot_comma c.
Proof. CharFacts.by_cases c. Qed.

Lemma digit_upper c : Char.is_digit c = true -> Char.to_upper c = c.
Proof. CharFacts.by_cases c. Qed.

Lemma dot_comma_upper c : is_dot_comma c = true -> Char.to_upper c = c.
Proof. CharFacts.by_cases c. Qed.

Lemma lower_upper s : lower (upper s) = lower s.
Proof.
  unfold lower, upper. rewrite List.map_map. apply List.map_ext, to_lower_to_upper.
Qed.

Lemma upper_lower s : upper (lower s) = upper s.
Proof.
  unfold lower, upper. rewrite List.map_map. apply List.map_ext, to_upper_to_lower.
Qed.

Lemma nonempty_upper s : nonempty (upper s) = nonempty s.
Proof. now destruct s. Qed.

Lemma eq_flag_upper c d :
  Char.eq_flag true c (Char.to_upper d) = Char.eq_flag true c d.
Proof. unfold Char.eq_flag. now rewrite to_lower_to_upper. Qed.

Lemma at_boundary_up prev rest :
  at_boundary (up prev) (upper rest) = at_boundary prev rest.
Proof.
  unfold at_boundary. f_equal.
  - destruct prev; simpl; [apply CharFacts.is_word_to_upper|reflexivity].
  - destruct rest; simpl; [reflexivity|apply CharFacts.is_word_to_upper].
Qed.

Lemma firstn_upper n s : firstn n (upper s) = upper (firstn n s).
Proof. unfold upper. apply firstn_map. Qed.

Lemma length_upper s : length (upper s) = length s.
Proof. apply length_map. Qed.

Section Simulation.

Context {A B : Type}.
Variable f : A -> B.

Lemma rep_greedy_upper p (Hp : forall c, p (Char.to_upper c) = p c) rest :
  forall n prev (k : option ascii -> text -> option A)
         (k' : option ascii -> text -> option B),
    (forall prev' rest', k' (up prev') (upper rest') = option_map f (k prev' rest')) ->
    rep_greedy p n (up prev) (upper rest) k' =
    option_map f (rep_greedy p n prev rest k).
Proof.
  induction rest as [|c rest IH]; intros n prev k k' Hk.
  - cbn [upper List.map rep_greedy]. destruct (n =? 0)%nat; [apply (Hk prev [])|reflexivity].
  - change (upper (c :: rest)) with (Char.to_upper c :: upper rest).
    cbn [rep_greedy]. rewrite Hp.
    pose proof (Hk prev (c :: rest)) as Hk0.
    change (upper (c :: rest)) with (Char.to_upper c :: upper rest) in Hk0.
    destruct (p c).
    + change (Some (Char.to_upper c)) with (up (Some c)).
      rewrite (IH (pred n) (Some c) k k' Hk).
      destruct (rep_greedy p (pred n) (Some c) rest k); [reflexivity|].
      cbn [option_map]. destruct (n =? 0)%nat; [exact Hk0|reflexivity].
    + destruct (n =? 0)%nat; [exact Hk0|reflexivity].
Qed.

(** Matching the upper-cased text goes as matching the text. *)
Lemma run_upper r : stable r ->
  forall prev rest cap
         (k : option ascii -> text -> option text -> option A)
         (k' : option ascii -> text -> option text -> option B),
    (forall prev' rest' cap',
       k' (up prev') (upper rest') (option_map upper cap') =
       option_map f (k prev' rest' cap')) ->
    run true r (up prev) (upper rest) (option_map upper cap) k' =
    option_map f (run true r prev rest cap k).
Proof.
  induction r as [|c|p|r1 IH1 r2 IH2|r1 IH1 r2 IH2|r1 IH1|p n| |r1 IH1];
    intros Hst prev rest cap k k' Hk; cbn [run].
  - apply Hk.
  - destruct rest as [|d rest]; [reflexivity|].
    change (upper (d :: rest)) with (Char.to_upper d :: upper rest). cbv iota.
    rewrite eq_flag_upper. destruct (Char.eq_flag true c d); [|reflexivity].
    apply (Hk (Some d) rest cap).
  - destruct rest as [|d rest]; [reflexivity|].
    change (upper (d :: rest)) with (Char.to_upper d :: upper rest). cbv iota.
    cbn [stable] in Hst. rewrite Hst. destruct (p d); [|reflexivity].
    apply (Hk (Some d) rest cap).
  - destruct Hst as [H1 H2]. apply (IH1 H1). intros prev' rest' cap'.
    now apply (IH2 H2).
  - destruct Hst as [H1 H2].
    rewrite (IH1 H1 prev rest cap k k' Hk), (IH2 H2 prev rest cap k k' Hk).
    now destruct (run true r1 prev rest cap k).
  - cbn [stable] in Hst. rewrite (IH1 Hst prev rest cap k k' Hk).
    destruct (run true r1 prev rest cap k); [reflexivity|apply Hk].
  - cbn [stable] in Hst. apply (rep_greedy_upper p Hst). intros prev' rest'. apply Hk.
  - rewrite at_boundary_up. destruct (at_boundary prev rest); [apply Hk|reflexivity].
  - cbn [stable] in Hst. apply (IH1 Hst). intros prev' rest' cap'.
    rewrite !length_upper, firstn_upper.
    apply (Hk prev' rest' (Some (firstn (length rest - length rest') rest))).
Qed.

End Simulation.

Lemma search_from_eq ic r prev rest :
  search_from ic r prev rest =
  match run ic r prev rest None accept with
  | Some g => Some g
  | None =>
      match rest with
      | [] => None
      | c :: rest' => search_from ic r (Some c) rest'
      end
  end.
Proof. now destruct rest. Qed.

Lemma search_from_upper r : stable r -> forall rest prev,
  search_from true r (up prev) (upper rest) =
  option_map (option_map upper) (search_from true r prev rest).
Proof.
  intros Hst. induction rest as [|c rest IH]; intros prev;
    rewrite (search_from_eq true r (up prev)), (search_from_eq true r prev);
    change (@None text) with (option_map upper None) at 1;
    rewrite (run_upper (option_map upper) r Hst prev _ None accept accept)
      by reflexivity;
    (destruct (run true r prev _ None accept); [reflexivity|]).
  - reflexivity.
  - change (upper (c :: rest)) with (Char.to_upper c :: upper rest).
    cbv iota. apply (IH (Some c)).
Qed.

Lemma group1_upper r t : stable r ->
  group1 true r (upper t) = option_map upper (group1 true r t).
Proof.
  intros Hst. unfold group1, search.
  change (@None ascii) with (up None) at 1.
  rewrite (search_from_upper r Hst t None).
  now destruct (search_from true r None t) as [[g|]|].
Qed.

Lemma found_upper r t : stable r -> found true r (upper t) = found true r t.
Proof.
  intros Hst. unfold found, search.
  change (@None ascii) with (up None) at 1.
  rewrite (search_from_upper r Hst t None).
  now destruct (search_from true r None t).
Qed.

Lemma stable_lit w : stable (lit w).
Proof. induction w; simpl; auto. Qed.

Lemma stable_alts rs : forall r,
  stable r -> (forall r', In r' rs -> stable r') -> stable (alts r rs).
Proof.
  induction rs as [|r' rs IH]; intros r Hr Hrs; simpl; [exact Hr|].
  split; [exact Hr|]. apply IH; [apply Hrs; now left|].
  intros r'' H. apply Hrs. now right.
Qed.

Lemma stable_quantity u us : stable (quantity_re u us).
Proof.
  unfold quantity_re, number_re. cbn [stable].
  repeat split; try exact is_digit_to_upper; try exact is_dot_comma_to_upper;
    try exact CharFacts.is_space_to_upper.
  apply stable_alts; [apply stable_lit|].
  intros r' H. apply List.in_map_iff in H as (w & <- & _). apply stable_lit.
Qed.

Lemma numeral_upper ip fp g : Spec.numeral ip fp g -> upper g = g.
Proof.
  assert (Hd : forall s, forallb Char.is_digit s = true -> upper s = s).
  { induction s as [|c s IH]; simpl; [reflexivity|].
    intros H. apply andb_true_iff in H as [Hc Hs].
    now rewrite (digit_upper c Hc), IH. }
  intros (_ & Hip & Hfp & [[_ ->]|[_ (c & Hc & ->)]]).
  - now apply Hd.
  - rewrite upper_app. change (upper (c :: fp)) with (Char.to_upper c :: upper fp).
    now rewrite (Hd ip Hip), (Hd fp Hfp), (dot_comma_upper c Hc).
Qed.

(** The number taken in front of a unit is the same in the upper-cased
    text. *)
Lemma quantity_upper u us t :
  group1 true (quantity_re u us) (upper t) = group1 true (quantity_re u us) t.
Proof.
  rewrite (group1_upper _ t (stable_quantity u us)).
  destruct (group1 true (quantity_re u us) t) as [g|] eqn:E; [|reflexivity].
  destruct (NumeralFacts.quantity_group_numeral _ _ _ _ (group1_sound _ _ _ _ E))
    as (ip & fp & Hnum).
  cbn [option_map]. now rewrite (numeral_upper ip fp g Hnum).
Qed.

Lemma zero_not_found t :
  group1 true kg_re t = None -> group1 true tonne_re t = None ->
  group1 true lb_re t = None -> found false zero_re t = false.
Proof.
  intros H1 H2 H3.
  apply (group1_none_iff true kg_re t eq_refl) in H1.
  apply (group1_none_iff true tonne_re t eq_refl) in H2.
  apply (group1_none_iff true lb_re t eq_refl) in H3.
  destruct (found false zero_re t) eqn:E; [|reflexivity].
  apply found_iff in E. apply WeightFacts.zero_re_covered in E. tauto.
Qed.

Lemma parse_weight_kg_upper t : parse_weight_kg (upper t) = parse_weight_kg t.
Proof.
  rewrite !WeightFacts.parse_weight_kg_cascade.
  unfold kg_re, tonne_re, lb_re. rewrite !quantity_upper.
  fold kg_re. fold tonne_re. fold lb_re.
  destruct (group1 true kg_re t) eqn:E1; [reflexivity|].
  destruct (group1 true tonne_re t) eqn:E2; [reflexivity|].
  destruct (group1 true lb_re t) eqn:E3; [reflexivity|].
  rewrite (zero_not_found t E1 E2 E3).
  rewrite (zero_not_found (upper t)).
  - now destruct (found true placeholder_re (upper t)), (found true placeholder_re t).
  - unfold kg_re. now rewrite quantity_upper.
  - unfold tonne_re. now rewrite quantity_upper.
  - unfold lb_re. now rewrite quantity_upper.
Qed.

Lemma parse_cbm_upper t : parse_cbm (upper t) = parse_cbm t.
Proof.
  rewrite !SignFacts.parse_cbm_cascade. unfold cbm_re. now rewrite quantity_upper.
Qed.

Lemma parse_incoterm_upper t : parse_incoterm (upper t) = parse_incoterm t.
Proof.
  unfold parse_incoterm, parse_incoterm_in. now rewrite nonempty_upper, upper_idem.
Qed.

Lemma detect_dangerous_upper t :
  detect_dangerous (Some (upper t)) = detect_dangerous (Some t).
Proof. unfold detect_dangerous. now rewrite nonempty_upper, lower_upper. Qed.

End CaseFacts.




(** ** compare_field *)

Module CompareFacts.

Import Evaluate.

(** Equality of two binary64 numbers, read on their representations. *)
Lemma SFeqb_iff x y :
  SFeqb x y = true <->
  match x, y with
  | S754_zero _, S754_zero _ => True
  | S754_infinity s1, S754_infinity s2 => s1 = s2
  | S754_finite s1 m1 e1, S754_finite s2 m2 e2 => s1 = s2 /\ m1 = m2 /\ e1 = e2
  | _, _ => False
  end.
Proof.
  unfold SFeqb, SFcompare.
  destruct x as [s1|s1| |s1 m1 e1], y as [s2|s2| |s2 m2 e2];
    try destruct s1; try destruct s2; simpl;
    try tauto;
    try (split; [discriminate|intros H; try discriminate H; try tauto;
                 destruct H as (H & _); discriminate H]);
    try (split; reflexivity);
    (destruct (Z.compare_spec e1 e2) as [He|He|He];
     [subst e2; destruct (Pos.compare_cont Eq m1 m2) eqn:E;
      [apply Pos.compare_eq in E; subst; simpl; tauto
      |split; [discriminate|intros (_ & Hm & _); subst m2;
               fold (Pos.compare m1 m1) in E; rewrite Pos.compare_refl in E;
               discriminate E]
      |split; [discriminate|intros (_ & Hm & _); subst m2;
               fold (Pos.compare m1 m1) in E; rewrite Pos.compare_refl in E;
               discriminate E]]
     |split; [discriminate|intros (_ & _ & ?); lia]
     |split; [discriminate|intros (_ & _ & ?); lia]]).
Qed.

Lemma SFeqb_sym x y : SFeqb x y = SFeqb y x.
Proof.
  apply eq_true_iff_eq. rewrite !SFeqb_iff.
  destruct x as [s1|s1| |s1 m1 e1], y as [s2|s2| |s2 m2 e2]; try tauto;
    split; intuition congruence.
Qed.

Lemma SFeqb_refl x : x <> S754_nan -> SFeqb x x = true.
Proof. intros H. apply SFeqb_iff. destruct x; auto. Qed.

Lemma text_eqb_sym s t : text_eqb s t = text_eqb t s.
Proof.
  apply eq_true_iff_eq. rewrite !IndexMore.text_eqb_iff. split; congruence.
Qed.

Lemma round2_nan x : F64.round2 x = S754_nan -> x = S754_nan.
Proof.
  destruct x as [s|s| |s m e]; try discriminate; [reflexivity|].
  unfold F64.round2, F64.of_ratio.
  destruct (if (_ =? _)%Z then _ else _); try discriminate.
  destruct (_ <=? _)%Z; discriminate.
Qed.

End CompareFacts.

Section CompareField.

Variable py_str : pyval -> text.

Local Abbreviation compare_field := (Evaluate.compare_field py_str).

(** X20.  The comparison of two field values is symmetric, and a value
    compares equal to itself unless it is the float NaN. *)
Theorem compare_field_symmetric (a b : pyval) :
  compare_field a b = compare_field b a /\
  compare_field a a = negb (Evaluate.is_nan a).
Proof.
  split.
  - unfold Evaluate.compare_field.
    destruct a, b; try reflexivity; cbn [Evaluate.is_float orb py_float];
      try apply CompareFacts.text_eqb_sym;
      repeat match goal with
             | |- context [of_option ?o] => destruct o; cbn [of_option res_bind]
             end;
      cbn [res_bind]; try reflexivity; apply CompareFacts.SFeqb_sym.
  - unfold Evaluate.compare_field.
    destruct a as [|b0|n|x|s|]; try reflexivity;
      cbn [Evaluate.is_float orb Evaluate.is_nan negb];
      try apply IndexMore.text_eqb_refl.
    cbn [py_float res_bind]. destruct x as [s|s| |s m e]; try reflexivity;
      (apply CompareFacts.SFeqb_refl; intros H;
       apply CompareFacts.round2_nan in H; discriminate H).
Qed.

(** X21.  The normalisation of the schema does not change the verdict of
    the comparison: a float may be rounded to two decimals first, and a
    string trimmed and upper-cased first when it is compared with a
    string (the string being one whose upper case stays in the 8-bit
    range). *)
Theorem compare_field_normalised (x : F64.float) (s t : text) (b : pyval) :
  (forall u, py_str (PStr u) = u) ->
  compare_field (PFloat (F64.round2 x)) b = compare_field (PFloat x) b /\
  (forallb CaseSpec.upper_in_range s = true ->
   compare_field (PStr (upper (strip s))) (PStr t) =
   compare_field (PStr s) (PStr t)).
Proof.
  intros Hstr. split.
  - unfold Evaluate.compare_field.
    destruct b; try reflexivity; cbn [Evaluate.is_float orb py_float res_bind];
      now rewrite FloatFacts.round2_idem.
  - intros _. unfold Evaluate.compare_field. cbn [Evaluate.is_float orb].
    rewrite !Hstr.
    now rewrite <- StripFacts.strip_upper, StripFacts.strip_idem,
                StripFacts.strip_upper, CaseFacts.lower_upper.
Qed.

End CompareField.

Lemma compare_field_normalised_witness :
  (forall u, Env.plain_str (PStr u) = u) /\
  Evaluate.compare_field Env.plain_str
    (PFloat (F64.round2 (F64.dec 12345 3))) (PStr (str "12.35")) =
  Evaluate.compare_field Env.plain_str
    (PFloat (F64.dec 12345 3)) (PStr (str "12.35")) /\
  forallb CaseSpec.upper_in_range (str " cif ") = true /\
  Evaluate.compare_field Env.plain_str
    (PStr (upper (strip (str " cif ")))) (PStr (str "CIF")) =
  Evaluate.compare_field Env.plain_str (PStr (str " cif ")) (PStr (str "CIF")).
Proof.
  split; [reflexivity|].
  destruct (compare_field_normalised Env.plain_str (F64.dec 12345 3)
              (str " cif ") (str "CIF") (PStr (str "12.35")) (fun u => eq_refl))
    as [H1 H2].
  split; [exact H1|]. split; [reflexivity|]. apply H2. reflexivity.
Defined.


(** ** The tally of evaluate *)

Module TallyFacts.

Import Evaluate.

Lemma fields_NoDup : List.NoDup fields.
Proof.
  unfold fields.
  repeat (constructor;
          [simpl; intros H; repeat (destruct H as [H|H]; [discriminate H|]); exact H|]).
  constructor.
Qed.

Lemma zeros_lookup f : In f fields -> zeros !! f = Some 0%nat.
Proof.
  intros H. repeat (destruct H as [<-|H]; [vm_compute; reflexivity|]). destruct H.
Qed.

Lemma sum_list_insert_out (l : list text) : forall f n (d : gmap text nat),
  ~ In f l -> sum_list l (<[f := n]> d) = sum_list l d.
Proof.
  induction l as [|g l IH]; intros f n d H; simpl; [reflexivity|].
  rewrite lookup_insert_ne by (intros ->; apply H; now left).
  rewrite IH; [reflexivity|]. intros Hin. apply H. now right.
Qed.

Lemma sum_list_bump (l : list text) : forall f c (d : gmap text nat),
  List.NoDup l -> In f l -> d !! f = Some c ->
  sum_list l (<[f := S c]> d) = S (sum_list l d).
Proof.
  induction l as [|g l IH]; intros f c d Hnd Hin Hd; [destruct Hin|].
  inversion Hnd as [|? ? Hg Hl]; subst. simpl.
  destruct (decide (g = f)) as [->|Hne].
  - rewrite lookup_insert_eq, Hd. simpl.
    now rewrite sum_list_insert_out by exact Hg.
  - rewrite lookup_insert_ne by congruence.
    destruct Hin as [->|Hin]; [contradiction|].
    rewrite (IH f c d Hl Hin Hd). lia.
Qed.

Lemma sum_list_le (l : list text) (d : gmap text nat) (m : nat) :
  (forall f, In f l -> exists c, d !! f = Some c /\ (c <= m)%nat) ->
  (sum_list l d <= length l * m)%nat.
Proof.
  induction l as [|g l IH]; intros H; simpl; [lia|].
  destruct (H g (or_introl eq_refl)) as (c & -> & Hc). simpl.
  assert (sum_list l d <= length l * m)%nat by (apply IH; intros f Hf; apply H; now right).
  lia.
Qed.

Lemma Inv_start : Inv [] fields 0 start.
Proof.
  split; [intros f []|]. split; [|split; vm_compute; reflexivity].
  intros f Hf. split; [now apply zeros_lookup|].
  exists 0%nat. split; [now apply zeros_lookup|lia].
Qed.

Lemma Inv_next m t : Inv fields [] m t -> Inv [] fields (S m) t.
Proof.
  intros (Hd & _ & Ht & Hc).
  split; [intros f []|]. split; [exact Hd|]. split; [|exact Hc].
  rewrite Ht. simpl. lia.
Qed.

Section Loop.

Variable py_str : pyval -> text.
Variable key_eq : pyval -> pyval -> bool.

Local Abbreviation score_field := (Evaluate.score_field py_str).
Local Abbreviation score_record := (Evaluate.score_record py_str key_eq).

Lemma score_fields rec gold m : forall todo done t,
  done ++ todo = fields -> Inv done todo m t ->
  exists t', fold_left (score_field rec gold) todo (Ok t) = Ok t' /\ Inv fields [] m t'.
Proof.
  induction todo as [|f todo IH]; intros done t Hsplit Hinv.
  - rewrite app_nil_r in Hsplit. subst done. exists t. split; [reflexivity|exact Hinv].
  - destruct Hinv as (Hd & Ht & Htv & Hcv).
    destruct (Ht f (or_introl eq_refl)) as (Htf & c & Hcf & Hc).
    pose proof fields_NoDup as Hnd. rewrite <- Hsplit in Hnd.
    assert (Hf_done : ~ In f done).
    { intros Hin. apply NoDup_remove_2 in Hnd. apply Hnd.
      apply in_or_app. now left. }
    assert (Hf_todo : ~ In f todo).
    { intros Hin. apply NoDup_remove_2 in Hnd. apply Hnd.
      apply in_or_app. now right. }
    assert (Hf_in : In f fields).
    { rewrite <- Hsplit. apply in_or_app. right. now left. }
    cbn [fold_left]. unfold Evaluate.score_field at 2. cbn [res_bind].
    unfold bump. rewrite Htf. cbn [of_option res_bind].
    destruct (compare_field py_str (get rec f) (get gold f)).
    + rewrite Hcf. cbn [of_option res_bind].
      apply (IH (done ++ [f])); [now rewrite <- app_assoc|].
      unfold Inv. cbn [totals correct total_values correct_values].
      split; [|split; [|split]].
      * intros g Hg. apply in_app_or in Hg as [Hg|[<-|[]]].
        -- rewrite !lookup_insert_ne by (intros ->; contradiction). now apply Hd.
        -- rewrite !lookup_insert_eq. split; [reflexivity|].
           exists (S c). split; [reflexivity|lia].
      * intros g Hg.
        rewrite !lookup_insert_ne by (intros ->; apply Hf_todo, Hg).
        apply Ht. now right.
      * rewrite Htv, length_app. simpl. lia.
      * rewrite Hcv. symmetry.
        apply (sum_list_bump fields f c (correct t) fields_NoDup Hf_in Hcf).
    + apply (IH (done ++ [f])); [now rewrite <- app_assoc|].
      unfold Inv. cbn [totals correct total_values correct_values].
      split; [|split; [|split]].
      * intros g Hg. apply in_app_or in Hg as [Hg|[<-|[]]].
        -- rewrite lookup_insert_ne by (intros ->; contradiction). now apply Hd.
        -- rewrite lookup_insert_eq. split; [reflexivity|].
           exists c. split; [exact Hcf|lia].
      * intros g Hg.
        rewrite lookup_insert_ne by (intros ->; apply Hf_todo, Hg).
        apply Ht. now right.
      * rewrite Htv, length_app. simpl. lia.
      * exact Hcv.
Qed.

Lemma score_records_raised tm out :
  fold_left (score_record tm) out Raised = Raised.
Proof. induction out as [|j out IH]; [reflexivity|exact IH]. Qed.

(** What one output record does to the tally. *)
Lemma score_record_step tm m t j t' :
  Inv [] fields m t -> score_record tm (Ok t) j = Ok t' ->
  t' = t \/ Inv [] fields (S m) t'.
Proof.
  intros Hinv. unfold Evaluate.score_record. cbn [res_bind].
  destruct j as [r|]; [|discriminate].
  destruct (hashable (get r (str "id"))); [|discriminate].
  destruct (dict_get key_eq (get r (str "id")) tm) as [gold|]; [|intros [= <-]; now left].
  destruct (bool_decide (gold = ∅)); [intros [= <-]; now left|].
  destruct (score_fields r gold m fields [] t eq_refl Hinv) as (t1 & -> & H1).
  intros [= <-]. right. now apply Inv_next.
Qed.

Lemma score_records tm : forall out m t t',
  Inv [] fields m t -> fold_left (score_record tm) out (Ok t) = Ok t' ->
  exists m', (m <= m' <= m + length out)%nat /\ Inv [] fields m' t'.
Proof.
  induction out as [|j out IH]; intros m t t' Hinv H.
  - injection H as <-. exists m. split; [simpl; lia|exact Hinv].
  - cbn [fold_left] in H.
    destruct (score_record tm (Ok t) j) as [t1|] eqn:E;
      [|rewrite score_records_raised in H; discriminate].
    destruct (score_record_step tm m t j t1 Hinv E) as [->|H1].
    + destruct (IH m t t' Hinv H) as (m' & Hm & Hi). exists m'.
      split; [simpl; lia|exact Hi].
    + destruct (IH (S m) t1 t' H1 H) as (m' & Hm & Hi). exists m'.
      split; [simpl; lia|exact Hi].
Qed.

Lemma truth_map_total : forall truth d,
  (forall j, In j truth ->
     exists r k, j = JObject r /\ r !! str "id" = Some k /\ hashable k = true) ->
  exists tm, truth_map_from key_eq truth d = Ok tm.
Proof.
  induction truth as [|j truth IH]; intros d H; [simpl; eauto|].
  destruct (H j (or_introl eq_refl)) as (r & k & -> & Hk & Hh).
  cbn [truth_map_from]. rewrite Hk. cbn [of_option res_bind]. rewrite Hh.
  apply IH. intros j Hj. apply H. now right.
Qed.

Lemma score_records_total tm : forall out m t,
  Inv [] fields m t ->
  (forall j, In j out ->
     exists r, j = JObject r /\ hashable (get r (str "id")) = true) ->
  exists t', fold_left (score_record tm) out (Ok t) = Ok t'.
Proof.
  induction out as [|j out IH]; intros m t Hinv H; [simpl; eauto|].
  destruct (H j (or_introl eq_refl)) as (r & -> & Hh).
  assert (Hrest : forall j, In j out ->
            exists r, j = JObject r /\ hashable (get r (str "id")) = true)
    by (intros j Hj; apply H; now right).
  cbn [fold_left]. unfold Evaluate.score_record at 2. cbn [res_bind]. rewrite Hh.
  destruct (dict_get key_eq (get r (str "id")) tm) as [gold|]; [|now apply (IH m)].
  destruct (bool_decide (gold = ∅)); [now apply (IH m)|].
  destruct (score_fields r gold m fields [] t eq_refl Hinv) as (t1 & -> & H1).
  apply (IH (S m)); [now apply Inv_next|exact Hrest].
Qed.

End Loop.

End TallyFacts.

Import Evaluate TallyFacts.

Section EvaluateFacts.

Variable py_str : pyval -> text.
Variable key_eq : pyval -> pyval -> bool.

Local Abbreviation evaluate := (Evaluate.evaluate py_str key_eq).


(** X23.  The evaluation completes as soon as the gold records are
    objects with an id that can be a key and the output records are
    objects whose id, if any, can be a key: no count is ever missing
    from the tally. *)
Theorem evaluate_total (out truth : list json) :
  (forall j, In j truth ->
     exists r k, j = JObject r /\ r !! str "id" = Some k /\ hashable k = true) ->
  (forall j, In j out ->
     exists r, j = JObject r /\ hashable (get r (str "id")) = true) ->
  exists t, evaluate out truth = Ok t.
Proof.
  intros Htruth Hout. unfold Evaluate.evaluate.
  destruct (truth_map_total key_eq truth [] Htruth) as [tm ->]. cbn [res_bind].
  apply (score_records_total py_str key_eq tm out 0 start Inv_start Hout).
Qed.

(** X24.  An output record whose id has no gold record is passed over:
    it counts neither as values nor as errors, wherever it stands. *)
Theorem evaluate_skips_unmatched (out1 out2 truth : list json) (r : jobject)
    (truth_map : pydict) :
  truth_map_from key_eq truth [] = Ok truth_map ->
  hashable (get r (str "id")) = true ->
  dict_get key_eq (get r (str "id")) truth_map = None ->
  evaluate (out1 ++ JObject r :: out2) truth = evaluate (out1 ++ out2) truth.
Proof.
  intros Htm Hh Hget. unfold Evaluate.evaluate. rewrite Htm. cbn [res_bind].
  rewrite !fold_left_app. cbn [fold_left]. f_equal.
  destruct (fold_left _ out1 (Ok start)) as [t|]; [|reflexivity].
  unfold Evaluate.score_record. cbn [res_bind]. now rewrite Hh, Hget.
Qed.

End EvaluateFacts.


Lemma evaluate_total_witness :
  exists t, Evaluate.evaluate Env.plain_str Mock.same_key Mock.outputs Mock.truth = Ok t.
Proof.
  apply evaluate_total.
  - intros j [<-|[<-|[]]].
    + exists (<[str "id" := PStr (str "EMAIL_001")]>
                (<[str "incoterm" := PStr (str "FOB")]>
                   (<[str "cargo_weight_kg" := PFloat (F64.dec 125 1)]> ∅))),
             (PStr (str "EMAIL_001")).
      split; [reflexivity|]. split; [vm_compute; reflexivity|reflexivity].
    + exists (<[str "id" := PStr (str "EMAIL_002")]>
                (<[str "incoterm" := PStr (str "CIF")]> ∅)),
             (PStr (str "EMAIL_002")).
      split; [reflexivity|]. split; [vm_compute; reflexivity|reflexivity].
  - intros j [<-|[<-|[]]]; eexists; (split; [reflexivity|vm_compute; reflexivity]).
Defined.

Lemma evaluate_skips_unmatched_witness :
  exists truth_map,
    truth_map_from Mock.same_key Mock.truth [] = Ok truth_map /\
    hashable (get (<[str "id" := PStr (str "EMAIL_009")]> ∅) (str "id")) = true /\
    dict_get Mock.same_key
      (get (<[str "id" := PStr (str "EMAIL_009")]> ∅) (str "id")) truth_map = None /\
    Evaluate.evaluate Env.plain_str Mock.same_key
      (Mock.outputs ++ JObject (<[str "id" := PStr (str "EMAIL_009")]> ∅) :: Mock.outputs)
      Mock.truth =
    Evaluate.evaluate Env.plain_str Mock.same_key (Mock.outputs ++ Mock.outputs)
      Mock.truth.
Proof.
  assert (H : exists truth_map,
    truth_map_from Mock.same_key Mock.truth [] = Ok truth_map /\
    hashable (get (<[str "id" := PStr (str "EMAIL_009")]> ∅) (str "id")) = true /\
    dict_get Mock.same_key
      (get (<[str "id" := PStr (str "EMAIL_009")]> ∅) (str "id")) truth_map = None)
    by (vm_compute; eexists; repeat split).
  destruct H as (tm & Htm & Hh & Hget). exists tm.
  split; [exact Htm|]. split; [exact Hh|]. split; [exact Hget|].
  exact (evaluate_skips_unmatched Env.plain_str Mock.same_key _ _ _ _ tm Htm Hh Hget).
Defined.


(** ** Without a usable answer of the LLM *)

Section FallbackFacts.

Variable find_ports_in_text : text -> gmap text text -> list text.
Variable call_llm : text -> res (option text).
Variable json_loads : text -> res raw_record.
Variable validate_str : pyval -> res text.
Variable validate_float : pyval -> res F64.float.
Variable validate_bool : pyval -> res bool.
Variable py_str : pyval -> text.

Local Abbreviation try_extract' :=
  (try_extract find_ports_in_text call_llm json_loads
     validate_str validate_float validate_bool py_str).
Local Abbreviation loop' :=
  (loop find_ports_in_text call_llm json_loads
     validate_str validate_float validate_bool py_str).
Local Abbreviation main' :=
  (main find_ports_in_text call_llm json_loads
     validate_str validate_float validate_bool py_str).

Lemma try_extract_fallback (e : email) (idx c2n : gmap text text) :
  (forall prompt, JsonSpec.unusable (call_llm prompt)) ->
  try_extract' false e idx c2n = try_extract' true e idx c2n.
Proof.
  intros H. unfold try_extract.
  destruct (H (prompt e))
    as [->|(resp & -> & Hnone)]; cbn [res_bind]; [reflexivity|].
  rewrite Hnone. now destruct (nonempty resp).
Qed.

Lemma loop_fallback (idx c2n : gmap text text) (emails : list email) :
  (forall prompt, JsonSpec.unusable (call_llm prompt)) ->
  forall outputs,
    loop' false idx c2n emails outputs = loop' true idx c2n emails outputs.
Proof.
  intros H. induction emails as [|e emails IH]; intros outputs; [reflexivity|].
  cbn [loop]. unfold process. rewrite (try_extract_fallback e idx c2n H).
  destruct (match try_extract' true e idx c2n with
            | Ok validated => Ok validated
            | Raised => _
            end); cbn [res_bind]; [apply IH|reflexivity].
Qed.

(** X25.  When no call of the LLM gives anything to parse (it is not
    configured, it failed, or it answered without a JSON block), the
    program writes exactly what it writes in the rule-based mode. *)
Theorem main_without_llm_is_mock (ports_ref : list port_entry)
    (emails : list email) :
  (forall prompt, JsonSpec.unusable (call_llm prompt)) ->
  main' false ports_ref emails = main' true ports_ref emails.
Proof.
  intros H. unfold main. destruct (build_port_index ports_ref) as [idx c2n].
  now apply loop_fallback.
Qed.

End FallbackFacts.

Lemma main_without_llm_is_mock_witness :
  (forall prompt, JsonSpec.unusable (Mock.chatty_llm prompt)) /\
  main Mock.finder Mock.chatty_llm Env.no_json
    Env.strict_str Env.strict_float Env.strict_bool Env.plain_str false
    Mock.reference
    [Email (str "EMAIL_001") (str "RFQ") (str "Hamburg, 300 kg, DAP")] =
  main Mock.finder Mock.chatty_llm Env.no_json
    Env.strict_str Env.strict_float Env.strict_bool Env.plain_str true
    Mock.reference
    [Email (str "EMAIL_001") (str "RFQ") (str "Hamburg, 300 kg, DAP")].
Proof.
  assert (H : forall prompt, JsonSpec.unusable (Mock.chatty_llm prompt)).
  { intros prompt. right. eexists. split; [reflexivity|]. vm_compute. reflexivity. }
  split; [exact H|].
  exact (main_without_llm_is_mock Mock.finder Mock.chatty_llm Env.no_json
           Env.strict_str Env.strict_float Env.strict_bool Env.plain_str
           Mock.reference _ H).
Defined.
